(** * hull-closeio: classification, deduplication and attribute mapping

    A shallow embedding of the connector's two stateless utilities,
    [FilterUtil] (server/lib/sync-agent/filter-util.js) and [MappingUtil]
    (server/lib/sync-agent/mapping-util.js and its later revision), together
    with the properties the design document states about them. *)

From Stdlib Require Import List String Ascii Bool ZArith NArith Lia Permutation.
From Stdlib Require Import RelationClasses Sorted.
From Stdlib Require OrdersEx DecimalString.
Import ListNotations.
Open Scope string_scope.
Open Scope list_scope.
Set Warnings "-register-all".

(** ** JavaScript values and plain objects *)

Module Js.

(** JSON-like values.  Objects keep their properties in insertion order. *)
Inductive value : Type :=
| undefined
| null
| boolean (b : bool)
| number (n : Z)
| str (s : string)
| array (elems : list value)
| object (fields : list (string * value)).

(** [_.isNil(v)] *)
Definition isNil (v : value) : bool :=
  match v with
  | undefined | null => true
  | _ => false
  end.

(** ToBoolean *)
Definition truthy (v : value) : bool :=
  match v with
  | undefined | null => false
  | boolean b => b
  | number n => negb (n =? 0)%Z
  | str s => negb (s =? "")
  | array _ | object _ => true
  end.

(** [a || b] *)
Definition or (a b : value) : value := if truthy a then a else b.

(** Plain objects used as dictionaries: own string-keyed properties, kept in
    insertion order. *)
Definition dict (V : Type) := list (string * V).

Fixpoint lookup {V : Type} (o : dict V) (k : string) : option V :=
  match o with
  | [] => None
  | (k', v) :: rest => if k' =? k then Some v else lookup rest k
  end.

(** [o[k] = v]: overwrite in place, or append a new property. *)
Fixpoint assign {V : Type} (o : dict V) (k : string) (v : V) : dict V :=
  match o with
  | [] => [(k, v)]
  | (k', v') :: rest =>
      if k' =? k then (k', v) :: rest else (k', v') :: assign rest k v
  end.

Definition mem {V : Type} (o : dict V) (k : string) : bool :=
  match lookup o k with
  | Some _ => true
  | None => false
  end.

Definition props := dict value.

(** [o[k]] on an own data property; [undefined] when absent. *)
Definition get (o : props) (k : string) : value :=
  match lookup o k with
  | Some v => v
  | None => undefined
  end.

(** [Object.prototype.hasOwnProperty.call(o, k)] *)
Definition has (o : props) (k : string) : bool := mem o k.

Definition set (o : props) (k : string) (v : value) : props := assign o k v.

Definition keys {V : Type} (o : dict V) : list string := map fst o.

(** *** Property enumeration order

    Own properties are enumerated with the array indices first, in ascending
    numeric order, then the other string keys in insertion order. *)

Definition digit_value (c : ascii) : option N :=
  let n := N_of_ascii c in
  if ((48 <=? n) && (n <=? 57))%N then Some (n - 48)%N else None.

Fixpoint decimal_value (s : string) (acc : N) : option N :=
  match s with
  | EmptyString => Some acc
  | String c rest =>
      match digit_value c with
      | Some d => decimal_value rest (acc * 10 + d)%N
      | None => None
      end
  end.

(** A key is an array index when it is the canonical decimal numeral of an
    integer below 2^32 - 1. *)
Definition array_index (s : string) : option N :=
  match s with
  | EmptyString => None
  | String c rest =>
      if Ascii.eqb c "0" && negb (rest =? "") then None
      else match decimal_value s 0 with
           | Some n => if (n <? 4294967295)%N then Some n else None
           | None => None
           end
  end.

Fixpoint insert_index {V : Type} (x : N * (string * V))
    (l : list (N * (string * V))) : list (N * (string * V)) :=
  match l with
  | [] => [x]
  | y :: rest =>
      if (fst x <=? fst y)%N then x :: y :: rest
      else y :: insert_index x rest
  end.

Definition sort_indices {V : Type} (l : list (N * (string * V)))
  : list (N * (string * V)) :=
  fold_right insert_index [] l.

Definition indexed {V : Type} (o : dict V) : list (N * (string * V)) :=
  flat_map (fun kv => match array_index (fst kv) with
                      | Some n => [(n, kv)]
                      | None => []
                      end) o.

Definition named {V : Type} (o : dict V) : dict V :=
  filter (fun kv => match array_index (fst kv) with
                    | Some _ => false
                    | None => true
                    end) o.

(** The own properties in enumeration order ([Object.keys], [for..in]). *)
Definition ownEntries {V : Type} (o : dict V) : dict V :=
  (map snd (sort_indices (indexed o)) ++ named o)%list.

(** *** Conversions and member access *)

(** The decimal numeral of a number. *)
Definition number_to_string (n : Z) : string :=
  DecimalString.NilZero.string_of_int (Z.to_int n).

(** ToString, as a template literal applies it. *)
Fixpoint to_string (v : value) : string :=
  match v with
  | undefined => "undefined"
  | null => "null"
  | boolean true => "true"
  | boolean false => "false"
  | number n => number_to_string n
  | str s => s
  | array elems =>
      (fix join (l : list value) : string :=
         match l with
         | [] => ""
         | x :: rest =>
             let sx := match x with
                       | undefined | null => ""
                       | _ => to_string x
                       end in
             match rest with
             | [] => sx
             | _ => (sx ++ "," ++ join rest)%string
             end
         end) elems
  | object _ => "[object Object]"
  end.

(** [v.k] on a value that is not nil: the own property of an object,
    [undefined] on anything else (for names no primitive or array has). *)
Definition member (v : value) (k : string) : value :=
  match v with
  | object fields => get fields k
  | _ => undefined
  end.

(** [s.slice(0, -1)] *)
Fixpoint drop_last (s : string) : string :=
  match s with
  | EmptyString => EmptyString
  | String c EmptyString => EmptyString
  | String c rest => String c (drop_last rest)
  end.

(** [s.split(".")] *)
Fixpoint split_dot (s : string) : list string :=
  match s with
  | EmptyString => [EmptyString]
  | String c rest =>
      if Ascii.eqb c "." then EmptyString :: split_dot rest
      else match split_dot rest with
           | [] => [String c EmptyString]
           | w :: ws => String c w :: ws
           end
  end.

Definition lower_char (c : ascii) : ascii :=
  let n := N_of_ascii c in
  if ((65 <=? n) && (n <=? 90))%N then ascii_of_N (n + 32) else c.

(** [s.toLowerCase()] on the ASCII letters. *)
Fixpoint toLowerCase (s : string) : string :=
  match s with
  | EmptyString => EmptyString
  | String c rest => String (lower_char c) (toLowerCase rest)
  end.

(** *** Comparison of strings with [<]: lexicographic on code units. *)
Definition lt (a b : string) : bool :=
  match OrdersEx.String_as_OT.compare a b with
  | Lt => true
  | _ => false
  end.

End Js.

(** ** Data model

    The types the utilities import from server/lib/types and from the
    platform's client library.  Each record lists the fields the code reads
    or writes, under the names the code uses. *)

(** A segment the entity currently belongs to ([s.id]). *)
Record THullSegment := { segment_id : string }.

(** A sub-event of an update message ([e.event_id]); the other two fields
    stand for the rest of the event. *)
Record THullEvent := {
  event_id : string;
  event_name : string;
  event_properties : Js.props
}.

(** The snapshot of an internal entity: its id ([user.id], [account.id]),
    the time it was last indexed ([indexed_at]) and its other attributes,
    read by name (["closeio/id"], ["traits_closeio/id"]). *)
Record THullObject := {
  id : string;
  indexed_at : string;
  attributes : Js.props
}.

Definition THullUser := THullObject.
Definition THullAccount := THullObject.

(** A change notification for one user ([message.user], [.account],
    [.segments], [.account_segments], [.events]). *)
Record THullUserUpdateMessage := {
  user : THullUser;
  user_account : THullAccount;
  user_segments : list THullSegment;
  user_account_segments : list THullSegment;
  user_events : list THullEvent
}.

(** Modelled from the spec: the events of an account message.  The message
    type is declared by the platform's client library, which is not among
    the sources; the design document gives an update message, for an account
    as for a user, zero or more sub-events, and the callback of
    [deduplicateAccountUpdateMessages] types its group as
    [Array<THullUserUpdateMessage>], the type whose [events] the user variant
    reads.  The other fields are the ones the code reads ([message.account],
    [.account_segments]). *)
Record THullAccountUpdateMessage := {
  account : THullAccount;
  account_segments : list THullSegment;
  account_events : list THullEvent
}.

(** The envelope of a user, with the fields [buildUserUpdateEnvelope] sets
    and the filter reads or writes ([message], [hullUser], [cioContactWrite],
    [skipReason], [opsResult]); [None] is [null]. *)
Record UserUpdateEnvelope := {
  u_message : THullUserUpdateMessage;
  hullUser : THullUser;
  cioContactWrite : Js.props;
  u_skipReason : option string;
  u_opsResult : option string
}.

(** The envelope of an account, as [buildAccountUpdateEnvelope] makes it
    ([message], [hullAccount], [cioLeadWrite], [skipReason], [opsResult]). *)
Record AccountUpdateEnvelope := {
  a_message : THullAccountUpdateMessage;
  hullAccount : THullAccount;
  cioLeadWrite : Js.props;
  a_skipReason : option string;
  a_opsResult : option string
}.

(** The three lists a filter returns. *)
Record FilterResults (E : Type) := {
  toSkip : list E;
  toInsert : list E;
  toUpdate : list E
}.
Arguments toSkip {E} _.
Arguments toInsert {E} _.
Arguments toUpdate {E} _.
Arguments Build_FilterResults {E} _ _ _.

(** The message catalogue (server/lib/shared-messages): the [message] text of
    each entry the utilities and their tests refer to.  The wording is
    configuration; the catalogue is a parameter of everything below. *)
Record SharedMessages := {
  OPERATION_SKIP_NOMATCHACCOUNTSEGMENTSUSER : string;
  OPERATION_SKIP_NOMATCHACCOUNTSEGMENTS : string;
  OPERATION_SKIP_USERDOESNTEXISTINCLOSEIO : string;
  OPERATION_SKIP_ACCOUNTDOESNTEXISTINCLOSEIO : string;
  OPERATION_SKIP_NOLINKEDACCOUNT : string;
  OPERATION_SKIP_NOLEADIDENT : string -> string;
  MAPPING_NOOUTBOUNDFIELDS : string;
  MAPPING_UNSUPPORTEDTYPEOUTBOUND : string -> string
}.

(** The identity cache as the filter sees it: [cache.get(key)] resolves to the
    stored value, or to [undefined] when nothing is stored. *)
Definition Cache := string -> Js.value.

(** ** What lodash is left to decide

    A key that holds property-path syntax (a dot or a bracket) is walked by
    lodash as a path, and a key that names a member of [Object.prototype] is
    refused or answered from the prototype.  The embedding defines lodash on
    the other keys and takes its behaviour on these as a parameter, together
    with the word splitting of [_.snakeCase]. *)
Record LodashPaths := {
  set_path : forall V : Type, Js.dict V -> string -> V -> Js.dict V;
  get_path : Js.props -> string -> Js.value;
  has_path : Js.props -> string -> bool;
  (** [_.snakeCase(string)] *)
  snakeCase : string -> string
}.

(** ** lodash helpers *)

Module Lodash.

Definition includes (x : string) (l : list string) : bool :=
  existsb (String.eqb x) l.

(** [_.uniq] on strings, keeping first occurrences. *)
Fixpoint uniq (l : list string) : list string :=
  match l with
  | [] => []
  | x :: rest => x :: filter (fun y => negb (x =? y)) (uniq rest)
  end.

(** [_.intersection(a, b)]: the unique values of [a] also found in [b]. *)
Definition intersection (a b : list string) : list string :=
  uniq (filter (fun x => includes x b) a).

Fixpoint contains_char (c : ascii) (s : string) : bool :=
  match s with
  | EmptyString => false
  | String c' rest => Ascii.eqb c c' || contains_char c rest
  end.

(** No property-path syntax: neither a dot nor an opening bracket. *)
Definition plain_path (path : string) : bool :=
  negb (contains_char "." path || contains_char "[" path).

(** The names every object inherits from [Object.prototype]. *)
Definition prototype_member (k : string) : bool :=
  includes k ["constructor"; "__proto__"; "prototype"; "hasOwnProperty";
              "isPrototypeOf"; "propertyIsEnumerable"; "toLocaleString";
              "toString"; "valueOf"; "__defineGetter__"; "__defineSetter__";
              "__lookupGetter__"; "__lookupSetter__"].

(** A key lodash reads and writes as one own property. *)
Definition own_key (path : string) : bool :=
  plain_path path && negb (prototype_member path).

Section WithPaths.

Variable paths : LodashPaths.

(** [_.set(object, path, value)] *)
Definition set {V : Type} (object : Js.dict V) (path : string) (value : V)
  : Js.dict V :=
  if own_key path || (Js.mem object path && negb (prototype_member path))
  then Js.assign object path value
  else set_path paths V object path value.

(** [_.get(object, path)] *)
Definition get (object : Js.props) (path : string) : Js.value :=
  if own_key path || Js.has object path then Js.get object path
  else get_path paths object path.

(** [_.has(object, path)] *)
Definition has (object : Js.props) (path : string) : bool :=
  if own_key path || Js.has object path then Js.has object path
  else has_path paths object path.

End WithPaths.

(** [_.values(object)] *)
Definition values {V : Type} (object : Js.dict V) : list V :=
  map snd (Js.ownEntries object).

(** [_.groupBy(collection, iteratee)]: one array per key, elements in
    encounter order. *)
Definition groupBy {A : Type} (iteratee : A -> string) (collection : list A)
  : Js.dict (list A) :=
  fold_left
    (fun result value =>
       let key := iteratee value in
       match Js.lookup result key with
       | Some group => Js.assign result key (group ++ [value])
       | None => Js.assign result key [value]
       end)
    collection [].

Fixpoint sort_insert {A : Type} (iteratee : A -> string) (x : A) (l : list A)
  : list A :=
  match l with
  | [] => [x]
  | y :: rest =>
      if Js.lt (iteratee y) (iteratee x) then y :: sort_insert iteratee x rest
      else x :: y :: rest
  end.

(** [_.sortBy(collection, [iteratee])]: ascending and stable. *)
Definition sortBy {A : Type} (iteratee : A -> string) (collection : list A)
  : list A :=
  fold_right (sort_insert iteratee) [] collection.

(** [_.last(array)]; [None] stands for [undefined]. *)
Fixpoint last {A : Type} (array : list A) : option A :=
  match array with
  | [] => None
  | [x] => Some x
  | _ :: rest => last rest
  end.

End Lodash.

(** ** Outcome of a call that may throw *)

Inductive Error :=
| TypeError (message : string)
| LogicError (message : string) (method : string)
    (objType : string) (hullObject : Js.props).

(** [Untyped]: the call met a value that does not have the shape the
    service's records have ([CioLeadRead], [CioContactRead]); the embedding
    does not follow the code on such a value. *)
Inductive Result (A : Type) :=
| Ok (a : A)
| Throw (e : Error)
| Untyped.
Arguments Ok {A} _.
Arguments Throw {A} _.
Arguments Untyped {A}.

Definition bind {A B : Type} (r : Result A) (k : A -> Result B) : Result B :=
  match r with
  | Ok a => k a
  | Throw e => Throw e
  | Untyped => Untyped
  end.

(** [try { body } catch (error) { handler }] *)
Definition try_catch {A : Type} (body : Result A) (handler : Error -> Result A)
  : Result A :=
  match body with
  | Throw e => handler e
  | r => r
  end.

(** Run [f] on every element, left to right, stopping at the first throw. *)
Fixpoint mapM {A B : Type} (f : A -> Result B) (l : list A) : Result (list B) :=
  match l with
  | [] => Ok []
  | x :: rest =>
      bind (f x) (fun y => bind (mapM f rest) (fun ys => Ok (y :: ys)))
  end.

(** ** FilterUtil *)

(** The two envelope kinds share the segment gate; the property name selects
    which segment list of the message is read ([_.get(envelope, name, [])]). *)
Class SegmentedEnvelope (E : Type) := {
  get_segments : E -> string -> list THullSegment
}.

#[export] Instance UserEnvelope_segments : SegmentedEnvelope UserUpdateEnvelope := {
  get_segments e name :=
    if name =? "message.segments" then user_segments (u_message e)
    else if name =? "message.account_segments"
         then user_account_segments (u_message e)
    else []
}.

#[export] Instance AccountEnvelope_segments : SegmentedEnvelope AccountUpdateEnvelope := {
  get_segments e name :=
    if name =? "message.account_segments" then account_segments (a_message e)
    else []
}.

(** The settings the constructor of [FilterUtil] keeps. *)
Record FilterUtilConfiguration := {
  synchronizedAccountSegments : list string;
  leadIdentifierHull : string;
  cache : Cache
}.

Module FilterUtil.
Section Instance_.

Variable SHARED_MESSAGES : SharedMessages.
Variable this : FilterUtilConfiguration.

(** [matchesSynchronizedAccountSegments(envelope, segmentPropertyName)] *)
Definition matchesSynchronizedAccountSegments {E} `{SegmentedEnvelope E}
    (envelope : E) (segmentPropertyName : string) : bool :=
  let msgSegmentIds := map segment_id (get_segments envelope segmentPropertyName) in
  if (0 <? List.length (Lodash.intersection msgSegmentIds
                     (synchronizedAccountSegments this)))%nat
  then true
  else false.

Definition push {E} (l : list E) (e : E) : list E := l ++ [e].

(** [envelope.skipReason = message; envelope.opsResult = "skip"] *)
Definition u_skip (envelope : UserUpdateEnvelope) (message : string)
  : UserUpdateEnvelope :=
  {| u_message := u_message envelope;
     hullUser := hullUser envelope;
     cioContactWrite := cioContactWrite envelope;
     u_skipReason := Some message;
     u_opsResult := Some "skip" |}.

(** [envelope.cioContactWrite.id = v] *)
Definition u_write_id (envelope : UserUpdateEnvelope) (v : Js.value)
  : UserUpdateEnvelope :=
  {| u_message := u_message envelope;
     hullUser := hullUser envelope;
     cioContactWrite := Js.set (cioContactWrite envelope) "id" v;
     u_skipReason := u_skipReason envelope;
     u_opsResult := u_opsResult envelope |}.

Definition a_skip (envelope : AccountUpdateEnvelope) (message : string)
  : AccountUpdateEnvelope :=
  {| a_message := a_message envelope;
     hullAccount := hullAccount envelope;
     cioLeadWrite := cioLeadWrite envelope;
     a_skipReason := Some message;
     a_opsResult := Some "skip" |}.

(** [envelope.cioLeadWrite.id = v] *)
Definition a_write_id (envelope : AccountUpdateEnvelope) (v : Js.value)
  : AccountUpdateEnvelope :=
  {| a_message := a_message envelope;
     hullAccount := hullAccount envelope;
     cioLeadWrite := Js.set (cioLeadWrite envelope) "id" v;
     a_skipReason := a_skipReason envelope;
     a_opsResult := a_opsResult envelope |}.

(** The callback [filterUsers] runs on each envelope, in order. *)
Definition filterUsers_each (results : FilterResults UserUpdateEnvelope)
    (envelope : UserUpdateEnvelope) : FilterResults UserUpdateEnvelope :=
  if negb (matchesSynchronizedAccountSegments envelope "message.account_segments")
  then
    let skipMsg := OPERATION_SKIP_NOMATCHACCOUNTSEGMENTSUSER SHARED_MESSAGES in
    {| toSkip := push (toSkip results) (u_skip envelope skipMsg);
       toInsert := toInsert results;
       toUpdate := toUpdate results |}
  else
    let cachedContactCioId := cache this (id (hullUser envelope)) in
    if Js.has (attributes (hullUser envelope)) "traits_closeio/id"
       || negb (Js.isNil cachedContactCioId)
    then
      {| toSkip := toSkip results;
         toInsert := toInsert results;
         toUpdate :=
           push (toUpdate results)
             (u_write_id envelope
                (Js.or (Js.get (attributes (hullUser envelope)) "traits_closeio/id")
                       cachedContactCioId)) |}
    else
      let skipMsg := OPERATION_SKIP_USERDOESNTEXISTINCLOSEIO SHARED_MESSAGES in
      {| toSkip := push (toSkip results) (u_skip envelope skipMsg);
         toInsert := toInsert results;
         toUpdate := toUpdate results |}.

(** [filterUsers(envelopes)]: [Promise.each] visits the envelopes one at a
    time, in order, over the shared [results]. *)
Definition filterUsers (envelopes : list UserUpdateEnvelope)
  : FilterResults UserUpdateEnvelope :=
  fold_left filterUsers_each envelopes
    {| toSkip := []; toInsert := []; toUpdate := [] |}.

Definition filterAccounts_each (results : FilterResults AccountUpdateEnvelope)
    (envelope : AccountUpdateEnvelope) : FilterResults AccountUpdateEnvelope :=
  if negb (matchesSynchronizedAccountSegments envelope "message.account_segments")
  then
    let skipMsg := OPERATION_SKIP_NOMATCHACCOUNTSEGMENTS SHARED_MESSAGES in
    {| toSkip := push (toSkip results) (a_skip envelope skipMsg);
       toInsert := toInsert results;
       toUpdate := toUpdate results |}
  else
    let cachedCioLeadId := cache this (id (hullAccount envelope)) in
    if Js.has (attributes (hullAccount envelope)) "closeio/id"
       || negb (Js.isNil cachedCioLeadId)
    then
      {| toSkip := toSkip results;
         toInsert := toInsert results;
         toUpdate :=
           push (toUpdate results)
             (a_write_id envelope
                (Js.or (Js.get (attributes (hullAccount envelope)) "closeio/id")
                       cachedCioLeadId)) |}
    else
      let skipMsg := OPERATION_SKIP_ACCOUNTDOESNTEXISTINCLOSEIO SHARED_MESSAGES in
      {| toSkip := push (toSkip results) (a_skip envelope skipMsg);
         toInsert := toInsert results;
         toUpdate := toUpdate results |}.

Definition filterAccounts (envelopes : list AccountUpdateEnvelope)
  : FilterResults AccountUpdateEnvelope :=
  fold_left filterAccounts_each envelopes
    {| toSkip := []; toInsert := []; toUpdate := [] |}.

Variable paths : LodashPaths.

(** [set_events m events]: [m.events = events] on the cloned message. *)
Definition u_set_events (m : THullUserUpdateMessage) (events : list THullEvent)
  : THullUserUpdateMessage :=
  {| user := user m;
     user_account := user_account m;
     user_segments := user_segments m;
     user_account_segments := user_account_segments m;
     user_events := events |}.

(** The callback of [deduplicateUserUpdateMessages] on one group. *)
Definition dedupeUserGroup (groupedMessages : list THullUserUpdateMessage)
  : Result THullUserUpdateMessage :=
  match Lodash.last
          (Lodash.sortBy (fun m => indexed_at (user m)) groupedMessages) with
  | None => Throw (TypeError "Cannot set property 'events' of undefined")
  | Some dedupedMessage =>
      let hashedEvents :=
        fold_left
          (fun hashedEvents m =>
             fold_left
               (fun hashedEvents e =>
                  Lodash.set paths hashedEvents (event_id e) e)
               (user_events m) hashedEvents)
          groupedMessages [] in
      Ok (u_set_events dedupedMessage (Lodash.values hashedEvents))
  end.

(** [deduplicateUserUpdateMessages(messages)] *)
Definition deduplicateUserUpdateMessages (messages : list THullUserUpdateMessage)
  : Result (list THullUserUpdateMessage) :=
  mapM dedupeUserGroup
    (Lodash.values (Lodash.groupBy (fun m => id (user m)) messages)).

(** The callback of [deduplicateAccountUpdateMessages] on one group;
    [None] stands for [_.cloneDeep(undefined)]. *)
Definition dedupeAccountGroup (groupedMessages : list THullAccountUpdateMessage)
  : option THullAccountUpdateMessage :=
  Lodash.last
    (Lodash.sortBy (fun m => indexed_at (account m)) groupedMessages).

(** [deduplicateAccountUpdateMessages(messages)] *)
Definition deduplicateAccountUpdateMessages
    (messages : list THullAccountUpdateMessage)
  : list (option THullAccountUpdateMessage) :=
  map dedupeAccountGroup
    (Lodash.values (Lodash.groupBy (fun m => id (account m)) messages)).

End Instance_.
End FilterUtil.

(** ** MappingUtil: settings and records *)

(** A property that may be missing ([undefined]) or [null]. *)
Inductive Nullable (A : Type) :=
| IsUndefined
| IsNull
| Defined (a : A).
Arguments IsUndefined {A}.
Arguments IsNull {A}.
Arguments Defined {A} _.

(** An outbound rule ([m.hull_field_name], [m.closeio_field_name]).  A field
    is [None] when the rule object lacks the key, so the empty rule object
    has both [None]. *)
Record CioOutboundMapping := {
  hull_field_name : option string;
  closeio_field_name : option string
}.

(** The rule lists of [this.attributeMappings], per object type and
    direction. *)
Record CioAttributesMapping := {
  lead_attributes_outbound : Nullable (list CioOutboundMapping);
  lead_attributes_inbound : Nullable (list string);
  contact_attributes_outbound : Nullable (list CioOutboundMapping);
  contact_attributes_inbound : Nullable (list string)
}.

(** The reference data: lead statuses ([id], [label]) and the custom field
    registry ([id], [name]). *)
Record CioLeadStatus := { status_id : string; status_label : string }.
Record CioLeadCustomField := { field_id : string; field_name : string }.

(** What [new URL(input)] gives when it does not throw. *)
Record URL := { hostname : string }.

(** The WHATWG URL parser of the runtime; [None] when the input is not a
    valid URL. *)
Record Node := { URL_parse : string -> option URL }.

(** [new URL(input)]: the parsed URL, or a [TypeError] on an invalid input. *)
Definition URL_new (node : Node) (input : string) : Result URL :=
  match URL_parse node input with
  | Some url => Ok url
  | None => Throw (TypeError ("Invalid URL: " ++ input)%string)
  end.

Module Cio.

(** The settings the constructor of [MappingUtil] keeps. *)
Record MappingUtilSettings := {
  attributeMappings : Nullable CioAttributesMapping;
  leadCreationStatusId : string;
  leadStatuses : list CioLeadStatus;
  leadCustomFields : list CioLeadCustomField;
  leadIdentifierHull : string;
  leadIdentifierService : string
}.

End Cio.

(** [_.keys(rule).length] *)
Definition rule_keys (m : CioOutboundMapping) : nat :=
  (match hull_field_name m with Some _ => 1 | None => 0 end)
  + (match closeio_field_name m with Some _ => 1 | None => 0 end).

(** The property key an optional string is used as ([undefined] reads as the
    key ["undefined"]). *)
Definition as_key (name : option string) : string :=
  match name with
  | Some s => s
  | None => "undefined"
  end.

(** Truthiness of an optional string. *)
Definition some_text (name : option string) : bool :=
  match name with
  | Some s => negb (s =? "")
  | None => false
  end.

(** [_.startsWith(name, prefix)]; an [undefined] name reads as [""]. *)
Definition startsWith (name : option string) (prefix : string) : bool :=
  match name with
  | Some s => String.prefix prefix s
  | None => String.prefix prefix ""
  end.

(** [_.concat(array, value)] for a [value] that is not an array. *)
Definition concat (array : Js.value) (value : Js.value) : list Js.value :=
  match array with
  | Js.array elems => elems ++ [value]
  | other => [other; value]
  end.

(** The outbound rule list of an object type,
    [attributeMappings[`${objType.toLowerCase()}_attributes_outbound`]]. *)
Definition outbound_rules (mappings : CioAttributesMapping) (objType : string)
  : Nullable (list CioOutboundMapping) :=
  let name := (Js.toLowerCase objType ++ "_attributes_outbound")%string in
  if name =? "lead_attributes_outbound" then lead_attributes_outbound mappings
  else if name =? "contact_attributes_outbound"
       then contact_attributes_outbound mappings
  else IsUndefined.

(** The "Customized mapping" loop body, the same in both revisions of
    [mapToServiceObject]. *)
Definition customizedMapping_each (paths : LodashPaths) (hullObject : Js.props)
    (svcObject : Js.props) (m : CioOutboundMapping) : Js.props :=
  let hullAttribValue := Lodash.get paths hullObject (as_key (hull_field_name m)) in
  if negb (Js.isNil hullAttribValue) then
    let svcAttribName := closeio_field_name m in
    if startsWith svcAttribName "emails"
       || startsWith svcAttribName "phones"
       || startsWith svcAttribName "urls"
    then
      let arrayAttribName := nth 0 (Js.split_dot (as_key svcAttribName)) "" in
      let typeValue :=
        match nth_error (Js.split_dot (as_key svcAttribName)) 1 with
        | Some t => Js.str t
        | None => Js.undefined
        end in
      let svcObject :=
        if negb (Lodash.has paths svcObject arrayAttribName)
        then Js.set svcObject arrayAttribName (Js.array [])
        else svcObject in
      let newVal :=
        Lodash.set paths [("type", typeValue)]
          (Js.drop_last arrayAttribName) hullAttribValue in
      let arrayVal :=
        concat (Lodash.get paths svcObject arrayAttribName) (Js.object newVal) in
      Js.set svcObject arrayAttribName (Js.array arrayVal)
    else
      (* Regular case, just set whatever we get from hull to the field *)
      Js.set svcObject (as_key svcAttribName) hullAttribValue
  else svcObject.

(** ** MappingUtil (server/lib/sync-agent/mapping-util.js) *)

Module MappingUtil.
Section Instance_.

Variable SHARED_MESSAGES : SharedMessages.
Variable paths : LodashPaths.
Variable node : Node.
Variable this : Cio.MappingUtilSettings.

(** [_.get(this.attributeMappings, `..._attributes_outbound`, [])] *)
Definition configuredRules (objType : string)
  : Nullable (list CioOutboundMapping) :=
  match Cio.attributeMappings this with
  | Defined mappings =>
      match outbound_rules mappings objType with
      | IsUndefined => Defined []
      | rules => rules
      end
  | _ => Defined []
  end.

Definition noOutboundFields (objType : string) (hullObject : Js.props) : Error :=
  LogicError (MAPPING_NOOUTBOUNDFIELDS SHARED_MESSAGES)
             "MappingUtil.mapToServiceObject" objType hullObject.

Definition unsupportedType (objType : string) (hullObject : Js.props) : Error :=
  LogicError (MAPPING_UNSUPPORTEDTYPEOUTBOUND SHARED_MESSAGES objType)
             "MappingUtil.mapToServiceObject" objType hullObject.

Definition nullLength : Error :=
  TypeError "Cannot read property 'length' of null".

(** The default properties and the external id, per object type. *)
Definition defaultProperties (objType : string) (hullObject : Js.props)
  : Result Js.props :=
  let svcObject : Js.props := [] in
  if objType =? "Lead" then
    let svcObject := Js.set svcObject "name" (Js.get hullObject "name") in
    let svcObject := Js.set svcObject "url" (Js.get hullObject "domain") in
    if negb (Js.isNil (Js.get hullObject "closeio/id")) then
      Ok (Js.set svcObject "id" (Js.get hullObject "closeio/id"))
    else if negb (Cio.leadCreationStatusId this =? "N/A")
            && negb (Cio.leadCreationStatusId this =? "hull-default")
    then Ok (Js.set svcObject "status_id" (Js.str (Cio.leadCreationStatusId this)))
    else Ok svcObject
  else if objType =? "Contact" then
    let svcObject := Js.set svcObject "name" (Js.get hullObject "name") in
    let svcObject :=
      Js.set svcObject "lead_id"
        (Js.or (Js.get hullObject "account.closeio/id") Js.null) in
    if Js.has hullObject "traits_closeio/id"
    then Ok (Js.set svcObject "id" (Js.get hullObject "traits_closeio/id"))
    else Ok svcObject
  else Throw (unsupportedType objType hullObject).

(** [mapToServiceObject(objType, hullObject)] *)
Definition mapToServiceObject (objType : string) (hullObject : Js.props)
  : Result Js.props :=
  match Cio.attributeMappings this with
  | IsNull => Throw (noOutboundFields objType hullObject)
  | _ =>
      match configuredRules objType with
      | IsNull => Throw nullLength
      | IsUndefined | Defined [] => Throw (noOutboundFields objType hullObject)
      | Defined (first :: rest) =>
          if (List.length (first :: rest) =? 1)%nat && (rule_keys first =? 0)%nat
          then Throw (noOutboundFields objType hullObject)
          else
            bind (defaultProperties objType hullObject) (fun svcObject =>
            (* Customized mapping *)
            let mappings := first :: rest in
            Ok (fold_left (customizedMapping_each paths hullObject)
                          mappings svcObject))
      end
  end.

(** [normalizeUrl(original)] *)
Definition normalizeUrl (original : string) : Result string :=
  try_catch
    (bind (URL_new node original) (fun closeUrl => Ok (hostname closeUrl)))
    (fun error => Ok original).

End Instance_.
End MappingUtil.

(** ** MappingUtil, later revision (the copy that resolves lead statuses and
    custom field names) *)

Module MappingUtilRev.
Section Instance_.

Variable SHARED_MESSAGES : SharedMessages.
Variable paths : LodashPaths.
Variable node : Node.
Variable this : Cio.MappingUtilSettings.

Definition unsupportedType (objType : string) (hullObject : Js.props) : Error :=
  LogicError (MAPPING_UNSUPPORTEDTYPEOUTBOUND SHARED_MESSAGES objType)
             "MappingUtil.mapToServiceObject" objType hullObject.

Definition undefinedProperty (name : string) : Error :=
  TypeError ("Cannot read property '" ++ name ++ "' of undefined")%string.

(** The default properties and the external id, per object type. *)
Definition defaultProperties (objType : string) (hullObject : Js.props)
  : Result Js.props :=
  let svcObject : Js.props := [] in
  if objType =? "Lead" then
    let svcObject := Js.set svcObject "name" (Js.get hullObject "name") in
    let svcObject := Js.set svcObject "url" (Js.get hullObject "domain") in
    if negb (Js.isNil (Js.get hullObject "closeio/id")) then
      Ok (Js.set svcObject "id" (Js.get hullObject "closeio/id"))
    else if negb (Cio.leadCreationStatusId this =? "N/A")
            && negb (Cio.leadCreationStatusId this =? "hull-default")
    then Ok (Js.set svcObject "status_id" (Js.str (Cio.leadCreationStatusId this)))
    else Ok svcObject
  else if objType =? "Contact" then
    let svcObject := Js.set svcObject "name" (Js.get hullObject "name") in
    if Js.isNil (Js.get hullObject "account")
    then Throw (undefinedProperty "closeio/id")
    else
      let svcObject :=
        Js.set svcObject "lead_id"
          (Js.or (Js.member (Js.get hullObject "account") "closeio/id") Js.null) in
      if Js.has hullObject "traits_closeio/id"
      then Ok (Js.set svcObject "id" (Js.get hullObject "traits_closeio/id"))
      else Ok svcObject
  else Throw (unsupportedType objType hullObject).

(** [(this.attributeMappings[name] || []).filter(entry =>
       entry.hull_field_name && entry.closeio_field_name)] *)
Definition usableRules (objType : string) : Result (list CioOutboundMapping) :=
  match Cio.attributeMappings this with
  | Defined mappings =>
      let configured :=
        match outbound_rules mappings objType with
        | Defined rules => rules
        | _ => []
        end in
      Ok (filter (fun entry => some_text (hull_field_name entry)
                               && some_text (closeio_field_name entry))
                 configured)
  | _ => Throw (undefinedProperty
                  (Js.toLowerCase objType ++ "_attributes_outbound")%string)
  end.

(** [mapToServiceObject(objType, hullObject)] *)
Definition mapToServiceObject (objType : string) (hullObject : Js.props)
  : Result Js.props :=
  bind (defaultProperties objType hullObject) (fun svcObject =>
  (* Customized mapping *)
  bind (usableRules objType) (fun mappings =>
  Ok (fold_left (customizedMapping_each paths hullObject) mappings svcObject))).

(** [{ value: v, operation: op }] *)
Definition trait (v : Js.value) (operation : string) : Js.value :=
  Js.object [("value", v); ("operation", Js.str operation)].

(** [getHumanFieldName(field)] *)
Definition getHumanFieldName (field : string) : string :=
  let fieldIds :=
    map (fun c => ("custom." ++ field_id c)%string) (Cio.leadCustomFields this) in
  let humanName :=
    if Lodash.includes field fieldIds then
      match find (fun c => field_id c =? field) (Cio.leadCustomFields this) with
      | Some customField => field_name customField
      | None => ""
      end
    else field in
  snakeCase paths humanName.

(** One step of the reduction in [applyMapping]. *)
Definition applyMapping_each (serviceObject : Js.props)
    (hullAttrs : Js.props) (m : string) : Result Js.props :=
  if (m =? "phones") || (m =? "emails") || (m =? "urls") then
    (* These are arrays, so we flatten them *)
    match Js.get serviceObject m with
    | Js.undefined => Ok hullAttrs
    | Js.array arrayVal =>
        Ok (fold_left
              (fun hullAttrs v =>
                 Js.set hullAttrs
                   ("closeio/" ++ Js.drop_last m ++ "_"
                      ++ Js.to_string (Js.member v "type"))%string
                   (trait (Js.member v (Js.drop_last m)) "set"))
              arrayVal hullAttrs)
    | _ => Untyped
    end
  else if m =? "status_id" then
    match Js.get serviceObject "status_id" with
    | Js.undefined => Ok hullAttrs
    | Js.str code =>
        match find (fun status => status_id status =? code)
                   (Cio.leadStatuses this) with
        | Some leadStatus =>
            Ok (Js.set hullAttrs "closeio/status"
                  (trait (Js.str (status_label leadStatus)) "set"))
        | None => Ok hullAttrs
        end
    | _ => Ok hullAttrs
    end
  else if m =? "addresses" then
    (* Multiple addresses are not supported, we only store the first one *)
    if Js.has serviceObject m then
      match Js.get serviceObject m with
      | Js.undefined | Js.array [] => Ok hullAttrs
      | Js.null => Throw (TypeError "Cannot read property 'length' of null")
      | Js.array (Js.object addressData :: _) =>
          let label :=
            match Js.get addressData "label" with
            | Js.undefined => Js.str "office"
            | l => l
            end in
          let attribPrefix := ("closeio/address_" ++ Js.to_string label)%string in
          Ok (fold_left
                (fun hullAttrs kv =>
                   if negb (fst kv =? "label")
                   then Js.set hullAttrs (attribPrefix ++ "_" ++ fst kv)%string
                               (trait (snd kv) "set")
                   else hullAttrs)
                (Js.ownEntries addressData) hullAttrs)
      | _ => Untyped
      end
    else Ok hullAttrs
  else if m =? "opportunities" then
    (* Opportunities are not supported at the moment *)
    Ok hullAttrs
  else
    if negb (Js.isNil (Lodash.get paths serviceObject m))
    then Ok (Js.set hullAttrs ("closeio/" ++ getHumanFieldName m)%string
                    (trait (Lodash.get paths serviceObject m) "set"))
    else Ok hullAttrs.

(** [applyMapping(mapping, serviceObject)] *)
Definition applyMapping (mapping : list string) (serviceObject : Js.props)
  : Result Js.props :=
  fold_left
    (fun acc m => bind acc (fun hullAttrs =>
                    applyMapping_each serviceObject hullAttrs m))
    mapping (Ok []).

(** The test on [hObject["closeio/name"]]: a trait whose value is a
    non-empty string. *)
Definition mappedName (hObject : Js.props) : option string :=
  match Js.get hObject "closeio/name" with
  | Js.object fields =>
      match Js.get fields "value" with
      | Js.str name => if name =? "" then None else Some name
      | _ => None
      end
  | _ => None
  end.

(** [mapLeadToHullAccountAttributes(lead)] *)
Definition mapLeadToHullAccountAttributes (lead : Js.props) : Result Js.props :=
  match Cio.attributeMappings this with
  | Defined mappings =>
      let mapping :=
        match lead_attributes_inbound mappings with
        | Defined l => l
        | _ => []
        end in
      bind (applyMapping mapping lead) (fun hObject =>
      (* Ensure that we always set the id from close.io *)
      let hObject :=
        if Js.has lead "id"
        then Js.set hObject "closeio/id" (trait (Js.get lead "id") "set")
        else hObject in
      let hObject :=
        match mappedName hObject with
        | Some name => Js.set hObject "name" (trait (Js.str name) "setIfNull")
        | None => hObject
        end in
      let hObject :=
        Js.set hObject "closeio/created_at"
               (trait (Js.get lead "date_created") "setIfNull") in
      let hObject :=
        Js.set hObject "closeio/updated_at"
               (trait (Js.get lead "date_updated") "set") in
      Ok hObject)
  | _ => Throw (undefinedProperty "lead_attributes_inbound")
  end.

(** [normalizeUrl(original)] *)
Definition normalizeUrl (original : string) : Result string :=
  try_catch
    (bind (URL_new node original) (fun closeUrl => Ok (hostname closeUrl)))
    (fun error => Ok original).

End Instance_.
End MappingUtilRev.

(** ** SyncAgent: the lead fields offered to the settings

    [getLeadFields({ type })] (server/lib/sync-agent.js): the [value]s of the
    dropdown items a rule's close.io field is chosen from, given the custom
    fields the service lists. *)
Definition leadFieldValues (type : string) (customFields : list CioLeadCustomField)
  : list string :=
  let defaultFields := ["name"; "url"; "description"] in
  let defaultFields :=
    if type =? "inbound" then defaultFields ++ ["status_id"] else defaultFields in
  defaultFields ++ map (fun f => ("custom." ++ field_id f)%string) customFields.

(** The shape the service's read records have where [applyMapping] looks:
    the multi-valued fields are absent or arrays, the address list is absent,
    empty, or starts with an address object. *)
Definition is_list (v : Js.value) : bool :=
  match v with
  | Js.undefined | Js.array _ => true
  | _ => false
  end.

Definition is_address_list (v : Js.value) : bool :=
  match v with
  | Js.undefined | Js.array [] | Js.array (Js.object _ :: _) => true
  | _ => false
  end.

Definition CioRead_shaped (serviceObject : Js.props) : Prop :=
  is_list (Js.get serviceObject "phones") = true
  /\ is_list (Js.get serviceObject "emails") = true
  /\ is_list (Js.get serviceObject "urls") = true
  /\ is_address_list (Js.get serviceObject "addresses") = true.


(** ** Sample data

    The envelopes and configurations of test/unit/filter-util.spec.js, the
    cache of test/helper/cache-mock.js, and a catalogue with a wording of its
    own for each entry. *)

Module Sample.

Definition messages : SharedMessages :=
  {| OPERATION_SKIP_NOMATCHACCOUNTSEGMENTSUSER :=
       "User is linked to an account which is not in a synchronized segment.";
     OPERATION_SKIP_NOMATCHACCOUNTSEGMENTS :=
       "Account is not in a synchronized segment.";
     OPERATION_SKIP_USERDOESNTEXISTINCLOSEIO :=
       "User does not exist in close.io.";
     OPERATION_SKIP_ACCOUNTDOESNTEXISTINCLOSEIO :=
       "Account does not exist in close.io.";
     OPERATION_SKIP_NOLINKEDACCOUNT :=
       "User is not linked to an account.";
     OPERATION_SKIP_NOLEADIDENT := fun field =>
       ("Account has no value for " ++ field ++ ".")%string;
     MAPPING_NOOUTBOUNDFIELDS :=
       "No outbound fields are configured.";
     MAPPING_UNSUPPORTEDTYPEOUTBOUND := fun objType =>
       ("Unsupported object type " ++ objType ++ ".")%string |}.

(** [cacheMock.get] resolves to [undefined] for every key. *)
Definition cacheMock : Cache := fun _ => Js.undefined.

(** A cache that already links one account and one user. *)
Definition cacheLinked : Cache := fun key =>
  if key =? "5bd329d5e2bcf3eeaf000099" then Js.str "lead_cached0000000000000000"
  else if key =? "5bd329d5e2bcf3eeaf00009f" then Js.str "cont_cached00000000"
  else Js.undefined.

Definition config : FilterUtilConfiguration :=
  {| synchronizedAccountSegments := ["59f09bc7f9c5a94af600076d"];
     leadIdentifierHull := "external_id";
     cache := cacheMock |}.

Definition configNoMatch : FilterUtilConfiguration :=
  {| synchronizedAccountSegments := ["someSegmentThatDoesntMatch"];
     leadIdentifierHull := "external_id";
     cache := cacheMock |}.

Definition configLinked : FilterUtilConfiguration :=
  {| synchronizedAccountSegments := ["59f09bc7f9c5a94af600076d"];
     leadIdentifierHull := "external_id";
     cache := cacheLinked |}.

Definition segment : THullSegment := {| segment_id := "59f09bc7f9c5a94af600076d" |}.

Definition account0 : THullAccount :=
  {| id := "5bd329d5e2bcf3eeaf000099";
     indexed_at := "2018-10-26T14:51:01+00:00";
     attributes := [("name", Js.str "Hull Inc"); ("domain", Js.str "hull.io");
                    ("external_id", Js.str "hull-1234")] |}.

Definition accountLinked : THullAccount :=
  {| id := "5bd329d5e2bcf3eeaf000099";
     indexed_at := "2018-10-26T14:51:01+00:00";
     attributes := [("name", Js.str "Hull Inc"); ("domain", Js.str "hull.io");
                    ("external_id", Js.str "hull-1234");
                    ("closeio/id", Js.str "lead_534219tidgshk452t38tajfk")] |}.

Definition accountMessage (a : THullAccount) : THullAccountUpdateMessage :=
  {| account := a; account_segments := [segment]; account_events := [] |}.

Definition accountEnvelope (a : THullAccount) : AccountUpdateEnvelope :=
  {| a_message := accountMessage a;
     hullAccount := a;
     cioLeadWrite := [("name", Js.get (attributes a) "name")];
     a_skipReason := None;
     a_opsResult := None |}.

Definition user0 : THullUser :=
  {| id := "5bd329d5e2bcf3eeaf00009f";
     indexed_at := "2018-10-26T14:51:01+00:00";
     attributes := [("name", Js.str "Ada Lovelace");
                    ("email", Js.str "ada@hull.io")] |}.

Definition userLinked : THullUser :=
  {| id := "5bd329d5e2bcf3eeaf00009f";
     indexed_at := "2018-10-26T14:51:01+00:00";
     attributes := [("name", Js.str "Ada Lovelace");
                    ("email", Js.str "ada@hull.io");
                    ("traits_closeio/id", Js.str "cont_y29g2ohnb3u35hy")] |}.

Definition userMessage (u : THullUser) (a : THullAccount) : THullUserUpdateMessage :=
  {| user := u; user_account := a; user_segments := [];
     user_account_segments := [segment]; user_events := [] |}.

(** A user envelope; [lead_id] is the parent link the write payload carries
    (absent in the "not linked to a lead" test). *)
Definition userEnvelope (u : THullUser) (a : THullAccount)
    (lead_id : option string) : UserUpdateEnvelope :=
  {| u_message := userMessage u a;
     hullUser := u;
     cioContactWrite :=
       ("name", Js.get (attributes u) "name") ::
       match lead_id with
       | Some l => [("lead_id", Js.str l)]
       | None => []
       end;
     u_skipReason := None;
     u_opsResult := None |}.

(** Two messages for one account: the older one carries an event, the
    younger one none. *)
Definition signedUp : THullEvent :=
  {| event_id := "evt-1"; event_name := "Signed up"; event_properties := [] |}.

Definition accountOlder : THullAccountUpdateMessage :=
  {| account := {| id := "5bd329d5e2bcf3eeaf000099";
                   indexed_at := "2018-10-26T14:51:01+00:00";
                   attributes := [("name", Js.str "Hull Inc")] |};
     account_segments := [segment];
     account_events := [signedUp] |}.

Definition accountYounger : THullAccountUpdateMessage :=
  {| account := {| id := "5bd329d5e2bcf3eeaf000099";
                   indexed_at := "2018-10-26T15:02:44+00:00";
                   attributes := [("name", Js.str "Hull Incorporated")] |};
     account_segments := [segment];
     account_events := [] |}.

Definition viewedPage : THullEvent :=
  {| event_id := "evt-2"; event_name := "Viewed page"; event_properties := [] |}.

Definition signedUpAgain : THullEvent :=
  {| event_id := "evt-1"; event_name := "Signed up";
     event_properties := [("plan", Js.str "pro")] |}.

Definition userOlder : THullUserUpdateMessage :=
  {| user := {| id := "5bd329d5e2bcf3eeaf00009f";
                indexed_at := "2018-10-26T14:51:01+00:00";
                attributes := [("name", Js.str "Ada")] |};
     user_account := account0;
     user_segments := [];
     user_account_segments := [segment];
     user_events := [signedUp; viewedPage] |}.

Definition userYounger : THullUserUpdateMessage :=
  {| user := {| id := "5bd329d5e2bcf3eeaf00009f";
                indexed_at := "2018-10-26T15:02:44+00:00";
                attributes := [("name", Js.str "Ada Lovelace")] |};
     user_account := account0;
     user_segments := [];
     user_account_segments := [segment];
     user_events := [signedUpAgain] |}.

(** A stand-in for the parts of lodash the examples do not reach. *)
Definition paths : LodashPaths :=
  {| set_path := fun V object _ _ => object;
     get_path := fun _ _ => Js.undefined;
     has_path := fun _ _ => false;
     snakeCase := fun s => s |}.

Fixpoint host_of (s : string) : string :=
  match s with
  | EmptyString => EmptyString
  | String c rest =>
      if Ascii.eqb c "/" || Ascii.eqb c ":" || Ascii.eqb c "?" || Ascii.eqb c "#"
      then EmptyString
      else String c (host_of rest)
  end.

(** A small URL parser for the examples: an http(s) scheme followed by a
    non-empty host. *)
Definition node : Node :=
  {| URL_parse := fun input =>
       let after :=
         if String.prefix "https://" input then Some (substring 8 (String.length input) input)
         else if String.prefix "http://" input then Some (substring 7 (String.length input) input)
         else None in
       match after with
       | Some rest =>
           if host_of rest =? "" then None else Some {| hostname := host_of rest |}
       | None => None
       end |}.

Definition nameRule : CioOutboundMapping :=
  {| hull_field_name := Some "name"; closeio_field_name := Some "description" |}.

Definition emptyRule : CioOutboundMapping :=
  {| hull_field_name := None; closeio_field_name := None |}.

Definition settingsWith (rules : Nullable (list CioOutboundMapping))
  : Cio.MappingUtilSettings :=
  {| Cio.attributeMappings :=
       Defined {| lead_attributes_outbound := rules;
                  lead_attributes_inbound := Defined ["name"; "url"; "addresses"];
                  contact_attributes_outbound := Defined [];
                  contact_attributes_inbound := Defined ["name"; "emails"] |};
     Cio.leadCreationStatusId := "N/A";
     Cio.leadStatuses := [];
     Cio.leadCustomFields := [];
     Cio.leadIdentifierHull := "domain";
     Cio.leadIdentifierService := "url" |}.

Definition lead : Js.props :=
  [("id", Js.str "lead_534219tidgshk452t38tajfk");
   ("name", Js.str "Hull Inc");
   ("url", Js.str "https://www.hull.io/about");
   ("addresses",
    Js.array [Js.object [("label", Js.str "business");
                         ("city", Js.str "Atlanta")]]);
   ("date_created", Js.str "2018-07-17T08:21:29.000000+00:00");
   ("date_updated", Js.str "2018-07-18T09:11:02.000000+00:00")].

Definition accountBatch : list AccountUpdateEnvelope :=
  [accountEnvelope account0; accountEnvelope accountLinked].

Definition userBatch : list UserUpdateEnvelope :=
  [userEnvelope user0 account0 (Some "lead_534219tidgshk452t38tajfk");
   userEnvelope userLinked account0 (Some "lead_534219tidgshk452t38tajfk")].

End Sample.

(** ** FilterUtil: the constructor *)

(** The [config] object handed to [new FilterUtil(config)]; [None] is a
    property the caller left out. *)
Record FilterUtilConfig := {
  config_synchronizedAccountSegments : option (list string);
  config_leadIdentifierHull : option string;
  config_cache : Cache
}.

(** [constructor(config)]: "Configure the util with sensible defaults".  An
    array is truthy, so a list that is given is kept, also when it is empty;
    the empty name is falsy and gives way to ["domain"]. *)
Definition FilterUtil_constructor (config : FilterUtilConfig)
  : FilterUtilConfiguration :=
  {| synchronizedAccountSegments :=
       match config_synchronizedAccountSegments config with
       | Some segments => segments
       | None => []
       end;
     leadIdentifierHull :=
       match config_leadIdentifierHull config with
       | Some name => if name =? "" then "domain" else name
       | None => "domain"
       end;
     cache := config_cache config |}.

(** ** SyncAgent (server/lib/sync-agent.js): settings and options *)

(** [_.get(object, key, defaultValue)] on a property that is a string when
    it is there. *)
Definition get_or (given : option string) (defaultValue : string) : string :=
  match given with
  | Some s => s
  | None => defaultValue
  end.

(** Whether an optional name is the given text. *)
Definition is_name (name : option string) (s : string) : bool :=
  match name with
  | Some t => t =? s
  | None => false
  end.

(** [_.indexOf(array, value)]; [-1] when the value is not found. *)
Fixpoint indexOf_from (array : list string) (value : string) (from : Z) : Z :=
  match array with
  | [] => (-1)%Z
  | x :: rest => if x =? value then from else indexOf_from rest value (from + 1)%Z
  end.

Definition indexOf (array : list string) (value : string) : Z :=
  indexOf_from array value 0%Z.

(** An item of a settings dropdown ([{ value, label }]). *)
Record HullFieldDropdownItem := {
  item_value : string;
  item_label : string
}.

Module SyncAgent.

(** The private settings of a connector instance ([CioConnectorSettings]),
    with the properties the agent reads.  A scalar is [None] when the
    settings lack it; a list may also be [null]. *)
Record CioConnectorSettings := {
  api_key : Js.value;
  synchronized_account_segments : option (list string);
  lead_status : option string;
  lead_identifier_hull : option string;
  lead_identifier_service : option string;
  lead_attributes_outbound : Nullable (list CioOutboundMapping);
  lead_attributes_inbound : Nullable (list string);
  contact_attributes_outbound : Nullable (list CioOutboundMapping);
  contact_attributes_inbound : Nullable (list string);
  last_sync_at : Js.value
}.

(** [settings.lead_attributes_outbound = rules] *)
Definition set_lead_attributes_outbound (settings : CioConnectorSettings)
    (rules : Nullable (list CioOutboundMapping)) : CioConnectorSettings :=
  {| api_key := api_key settings;
     synchronized_account_segments := synchronized_account_segments settings;
     lead_status := lead_status settings;
     lead_identifier_hull := lead_identifier_hull settings;
     lead_identifier_service := lead_identifier_service settings;
     lead_attributes_outbound := rules;
     lead_attributes_inbound := lead_attributes_inbound settings;
     contact_attributes_outbound := contact_attributes_outbound settings;
     contact_attributes_inbound := contact_attributes_inbound settings;
     last_sync_at := last_sync_at settings |}.

(** [settings.lead_attributes_inbound = fields] *)
Definition set_lead_attributes_inbound (settings : CioConnectorSettings)
    (fields : Nullable (list string)) : CioConnectorSettings :=
  {| api_key := api_key settings;
     synchronized_account_segments := synchronized_account_segments settings;
     lead_status := lead_status settings;
     lead_identifier_hull := lead_identifier_hull settings;
     lead_identifier_service := lead_identifier_service settings;
     lead_attributes_outbound := lead_attributes_outbound settings;
     lead_attributes_inbound := fields;
     contact_attributes_outbound := contact_attributes_outbound settings;
     contact_attributes_inbound := contact_attributes_inbound settings;
     last_sync_at := last_sync_at settings |}.

(** The matcher [{ hull_field_name: hullId, closeio_field_name: svcId }] of
    [_.find]: a rule that has both properties with these values. *)
Definition matches (hullId svcId : string) (m : CioOutboundMapping) : bool :=
  is_name (hull_field_name m) hullId && is_name (closeio_field_name m) svcId.

Definition nullPush : Error := TypeError "Cannot read property 'push' of null".

(** [normalizeSettings(settings)].  The two lists are read from [settings]
    itself ([_.get] hands out the array the object holds) and [push] writes
    to them in place, so the call changes its argument; the result is a
    clone whose two lists are those same arrays.  The function returns the
    argument as the call leaves it, and the outcome. *)
Definition normalizeSettings (settings : CioConnectorSettings)
  : CioConnectorSettings * Result CioConnectorSettings :=
  let hullId := get_or (lead_identifier_hull settings) "domain" in
  let svcId := get_or (lead_identifier_service settings) "url" in
  let leadStatus := get_or (lead_status settings) "N/A" in
  let givenOut := lead_attributes_outbound settings in
  let givenIn := lead_attributes_inbound settings in
  match givenOut with
  | IsNull => (settings, Throw nullPush)
  | _ =>
      let leadAttribsOut := match givenOut with Defined l => l | _ => [] end in
      (* Ensure that the identifier for leads is always present *)
      let leadAttribsOut :=
        match find (matches hullId svcId) leadAttribsOut with
        | None =>
            leadAttribsOut ++ [{| hull_field_name := Some hullId;
                                  closeio_field_name := Some svcId |}]
        | Some _ => leadAttribsOut
        end in
      let settings :=
        match givenOut with
        | Defined _ => set_lead_attributes_outbound settings (Defined leadAttribsOut)
        | _ => settings
        end in
      match givenIn with
      | IsNull => (settings, Throw nullPush)
      | _ =>
          let leadAttribsIn := match givenIn with Defined l => l | _ => [] end in
          let leadAttribsIn :=
            if (indexOf leadAttribsIn svcId =? -1)%Z
            then leadAttribsIn ++ [svcId]
            else leadAttribsIn in
          let settings :=
            match givenIn with
            | Defined _ => set_lead_attributes_inbound settings (Defined leadAttribsIn)
            | _ => settings
            end in
          let finalSettings :=
            {| api_key := api_key settings;
               synchronized_account_segments := synchronized_account_segments settings;
               lead_status := Some leadStatus;
               lead_identifier_hull := Some hullId;
               lead_identifier_service := Some svcId;
               lead_attributes_outbound := Defined leadAttribsOut;
               lead_attributes_inbound := Defined leadAttribsIn;
               contact_attributes_outbound := contact_attributes_outbound settings;
               contact_attributes_inbound := contact_attributes_inbound settings;
               last_sync_at := last_sync_at settings |} in
          (settings, Ok finalSettings)
      end
  end.

(** [initialize()]: the settings it configures the mapping util with, from
    the normalized private settings and the reference data the service
    answered.  [_.pick] copies the four rule lists as they are.  The three
    scalars are strings in settings that went through [normalizeSettings]. *)
Definition configMappingUtil (normalizedPrivateSettings : CioConnectorSettings)
    (leadStatuses : list CioLeadStatus) (leadCustomFields : list CioLeadCustomField)
  : Result Cio.MappingUtilSettings :=
  match lead_status normalizedPrivateSettings,
        lead_identifier_hull normalizedPrivateSettings,
        lead_identifier_service normalizedPrivateSettings with
  | Some status, Some hullId, Some svcId =>
      Ok {| Cio.attributeMappings :=
              Defined
                (Build_CioAttributesMapping
                   (lead_attributes_outbound normalizedPrivateSettings)
                   (lead_attributes_inbound normalizedPrivateSettings)
                   (contact_attributes_outbound normalizedPrivateSettings)
                   (contact_attributes_inbound normalizedPrivateSettings));
            Cio.leadCreationStatusId := status;
            Cio.leadStatuses := leadStatuses;
            Cio.leadCustomFields := leadCustomFields;
            Cio.leadIdentifierHull := hullId;
            Cio.leadIdentifierService := svcId |}
  | _, _, _ => Untyped
  end.

(** The constructor and [initialize] in a row: the mapping util an agent
    works with, for the private settings it was given. *)
Definition mappingUtilSettings (loadedSettings : CioConnectorSettings)
    (leadStatuses : list CioLeadStatus) (leadCustomFields : list CioLeadCustomField)
  : Result Cio.MappingUtilSettings :=
  bind (snd (normalizeSettings loadedSettings)) (fun normalizedPrivateSettings =>
  configMappingUtil normalizedPrivateSettings leadStatuses leadCustomFields).

(** [getLeadStatus()]: the options made from the statuses the service
    lists, behind the entry that stands for no choice. *)
Definition leadStatusOptions (data : list CioLeadStatus)
  : list HullFieldDropdownItem :=
  let status :=
    map (fun s => {| item_value := status_id s; item_label := status_label s |})
        data in
  {| item_value := "N/A"; item_label := "(Use default)" |} :: status.

End SyncAgent.

(** ** MappingUtil: from the service's records to the platform *)

(** [_.isEmpty(value)] *)
Definition isEmpty (v : Js.value) : bool :=
  match v with
  | Js.undefined | Js.null | Js.boolean _ | Js.number _ => true
  | Js.str s => s =? ""
  | Js.array [] => true
  | Js.array (_ :: _) => false
  | Js.object [] => true
  | Js.object (_ :: _) => false
  end.

(** [_.first(array)]: [array[0]] of a value with a truthy [length]. *)
Definition first (v : Js.value) : Js.value :=
  match v with
  | Js.str (String c _) => Js.str (String c "")
  | Js.array (x :: _) => x
  | Js.object fields =>
      if Js.truthy (Js.get fields "length") then Js.get fields "0"
      else Js.undefined
  | _ => Js.undefined
  end.

(** [`closeio:${record.id}`] *)
Definition anonymous_id (record : Js.props) : Js.value :=
  Js.str ("closeio:" ++ Js.to_string (Js.get record "id"))%string.

(** [mapContactToHullUserIdent(contact)], the same in both revisions. *)
Definition mapContactToHullUserIdent (contact : Js.props) : Js.props :=
  let ident : Js.props := [] in
  (* We cannot say for sure which email address is the proper one,
     so stick to anonymous_id *)
  let ident :=
    if negb (isEmpty (Js.get contact "emails")) then
      let email := Js.member (first (Js.get contact "emails")) "email" in
      Js.set ident "email" email
    else ident in
  Js.set ident "anonymous_id" (anonymous_id contact).

(** [{ value: v, operation: op }] *)
Definition trait_with (v : Js.value) (operation : string) : Js.value :=
  Js.object [("value", v); ("operation", Js.str operation)].

(** *** mapping-util.js *)

Module MappingUtilInbound.
Section Instance_.

Variable paths : LodashPaths.
Variable node : Node.
Variable this : Cio.MappingUtilSettings.

(** [this.customFields].  The constructor does not set it: it is [None]
    ([undefined]) unless it is set from outside the class. *)
Variable customFields : option (list CioLeadCustomField).

Definition nilProperty (name : string) (holder : string) : Error :=
  TypeError ("Cannot read property '" ++ name ++ "' of " ++ holder)%string.

(** [{ value: v }] *)
Definition trait (v : Js.value) : Js.value := Js.object [("value", v)].

(** [getHumanFieldName(field)] *)
Definition getHumanFieldName (field : string) : string :=
  let registry := match customFields with Some l => l | None => [] end in
  let fieldIds := map (fun c => field_id c) registry in
  let humanName :=
    if Lodash.includes field fieldIds then
      match find (fun c => field_id c =? field) registry with
      | Some customField => field_name customField
      | None => ""
      end
    else field in
  snakeCase paths humanName.

(** One step of the reduction in [applyMapping]. *)
Definition applyMapping_each (serviceObject : Js.props)
    (hullAttrs : Js.props) (m : string) : Result Js.props :=
  if (m =? "phones") || (m =? "emails") || (m =? "urls") then
    (* These are arrays, so we flatten them *)
    match Js.get serviceObject m with
    | Js.undefined => Ok hullAttrs
    | Js.array arrayVal =>
        Ok (fold_left
              (fun hullAttrs v =>
                 Js.set hullAttrs
                   ("closeio/" ++ Js.drop_last m ++ "_"
                      ++ Js.to_string (Js.member v "type"))%string
                   (trait (Js.member v (Js.drop_last m))))
              arrayVal hullAttrs)
    | _ => Untyped
    end
  else if m =? "addresses" then
    (* Multiple addresses are not supported, we only store the first one *)
    if Js.has serviceObject m then
      match Js.get serviceObject m with
      | Js.undefined | Js.array [] => Ok hullAttrs
      | Js.null => Throw (nilProperty "length" "null")
      | Js.array (Js.object addressData :: _) =>
          let label :=
            match Js.get addressData "label" with
            | Js.undefined => Js.str "office"
            | l => l
            end in
          let attribPrefix := ("closeio/address_" ++ Js.to_string label)%string in
          Ok (fold_left
                (fun hullAttrs kv =>
                   if negb (fst kv =? "label")
                   then Js.set hullAttrs (attribPrefix ++ "_" ++ fst kv)%string
                               (trait (snd kv))
                   else hullAttrs)
                (Js.ownEntries addressData) hullAttrs)
      | _ => Untyped
      end
    else Ok hullAttrs
  else if negb (m =? "opportunities") then
    (* Opps are not supported at the moment *)
    if negb (Js.isNil (Lodash.get paths serviceObject m))
    then Ok (Js.set hullAttrs ("closeio/" ++ getHumanFieldName m)%string
                    (trait (Lodash.get paths serviceObject m)))
    else Ok hullAttrs
  else Ok hullAttrs.

(** [applyMapping(mapping, serviceObject)] *)
Definition applyMapping (mapping : list string) (serviceObject : Js.props)
  : Result Js.props :=
  fold_left
    (fun acc m => bind acc (fun hullAttrs =>
                    applyMapping_each serviceObject hullAttrs m))
    mapping (Ok []).

(** [mapping.reduce(...)] on the inbound list of an object type: a list that
    is missing or [null] has no [reduce]. *)
Definition reduceMapping (mapping : Nullable (list string))
    (serviceObject : Js.props) : Result Js.props :=
  match mapping with
  | Defined l => applyMapping l serviceObject
  | IsUndefined => Throw (nilProperty "reduce" "undefined")
  | IsNull => Throw (nilProperty "reduce" "null")
  end.

(** [mapLeadToHullAccountAttributes(lead)] *)
Definition mapLeadToHullAccountAttributes (lead : Js.props) : Result Js.props :=
  match Cio.attributeMappings this with
  | Defined mappings =>
      let mapping := lead_attributes_inbound mappings in
      bind (reduceMapping mapping lead) (fun hObject =>
      (* Ensure that we always set the id from close.io *)
      let hObject :=
        if Js.has lead "id"
        then Js.set hObject "closeio/id" (trait_with (Js.get lead "id") "set")
        else hObject in
      let hObject :=
        Js.set hObject "closeio/created_at"
               (trait_with (Js.get lead "date_created") "setIfNull") in
      let hObject :=
        Js.set hObject "closeio/updated_at"
               (trait_with (Js.get lead "date_updated") "set") in
      Ok hObject)
  | IsUndefined => Throw (nilProperty "lead_attributes_inbound" "undefined")
  | IsNull => Throw (nilProperty "lead_attributes_inbound" "null")
  end.

(** [mapContactToHullUserAttributes(contact)] *)
Definition mapContactToHullUserAttributes (contact : Js.props)
  : Result Js.props :=
  match Cio.attributeMappings this with
  | Defined mappings =>
      let mapping := contact_attributes_inbound mappings in
      bind (reduceMapping mapping contact) (fun hObject =>
      (* Ensure that we always set the id from close.io *)
      let hObject :=
        if Js.has contact "id"
        then Js.set hObject "closeio/id" (trait_with (Js.get contact "id") "set")
        else hObject in
      let hObject :=
        Js.set hObject "closeio/lead_id"
               (trait_with (Js.get contact "lead_id") "set") in
      Ok hObject)
  | IsUndefined => Throw (nilProperty "contact_attributes_inbound" "undefined")
  | IsNull => Throw (nilProperty "contact_attributes_inbound" "null")
  end.

(** [normalizeUrl(original)] for the value a record holds, of whatever
    type: [new URL] reads its argument as a string. *)
Definition normalizeUrlOf (original : Js.value) : Result Js.value :=
  try_catch
    (bind (URL_new node (Js.to_string original)) (fun closeUrl =>
     Ok (Js.str (hostname closeUrl))))
    (fun error => Ok original).

(** [mapLeadToHullAccountIdent(lead)] *)
Definition mapLeadToHullAccountIdent (lead : Js.props) : Result Js.props :=
  let ident : Js.props := [] in
  bind (normalizeUrlOf (Js.get lead "url")) (fun domain =>
  let ident := Js.set ident "domain" domain in
  Ok (Js.set ident "anonymous_id" (anonymous_id lead))).

End Instance_.
End MappingUtilInbound.

(** *** The later revision *)

Module MappingUtilRevInbound.
Section Instance_.

Variable paths : LodashPaths.
Variable node : Node.
Variable this : Cio.MappingUtilSettings.

(** [mapLeadToHullAccountIdent(lead)] *)
Definition mapLeadToHullAccountIdent (lead : Js.props) : Result Js.props :=
  let ident : Js.props := [] in
  bind
    match Cio.leadIdentifierHull this =? "domain",
          Js.get lead (Cio.leadIdentifierService this) with
    | true, Js.str url =>
        bind (MappingUtilRev.normalizeUrl node url) (fun domain =>
        Ok (Js.set ident "domain" (Js.str domain)))
    | _, _ =>
        if Cio.leadIdentifierHull this =? "external_id"
        then Ok (Js.set ident (Cio.leadIdentifierHull this)
                        (Js.get lead (Cio.leadIdentifierService this)))
        else Ok ident
    end
    (fun ident => Ok (Js.set ident "anonymous_id" (anonymous_id lead))).

(** [mapContactToHullUserAttributes(contact)] *)
Definition mapContactToHullUserAttributes (contact : Js.props)
  : Result Js.props :=
  match Cio.attributeMappings this with
  | Defined mappings =>
      let mapping :=
        match contact_attributes_inbound mappings with
        | Defined l => l
        | _ => []
        end in
      bind (MappingUtilRev.applyMapping paths this mapping contact) (fun hObject =>
      (* Ensure that we always set the id from close.io *)
      let hObject :=
        if Js.has contact "id"
        then Js.set hObject "closeio/id"
                    (MappingUtilRev.trait (Js.get contact "id") "set")
        else hObject in
      let hObject :=
        match MappingUtilRev.mappedName hObject with
        | Some name =>
            Js.set hObject "name" (MappingUtilRev.trait (Js.str name) "setIfNull")
        | None => hObject
        end in
      let hObject :=
        Js.set hObject "closeio/lead_id"
               (MappingUtilRev.trait (Js.get contact "lead_id") "set") in
      Ok hObject)
  | _ => Throw (MappingUtilRev.undefinedProperty "contact_attributes_inbound")
  end.

End Instance_.
End MappingUtilRevInbound.

(** ** The status list of the settings (the action of the later revision)

    [leadStatusListAction(req, res)]: the body handed to [res.json].  The
    agent is not part of it: whether it [isAuthenticationConfigured()], and
    what [Cache.wrap(cacheKey, () => agent.fetchLeadStatuses())] settles to,
    are given. *)

(** A settled promise of the status list: the statuses, where [None] is a
    falsy answer, or a rejection with the [message] of its error. *)
Inductive FetchedStatuses :=
| Fetched (ls : option (list CioLeadStatus))
| FetchFailed (message : option string).

Record StatusListBody := {
  body_ok : bool;
  body_error : option string;
  body_options : list HullFieldDropdownItem
}.

Definition leadStatusListAction (isAuthenticationConfigured : bool)
    (wrapped : FetchedStatuses) : StatusListBody :=
  if negb isAuthenticationConfigured then
    {| body_ok := false;
       body_error :=
         Some "The connector is not or not properly authenticated to Close.io.";
       body_options := [] |}
  else
    match wrapped with
    | Fetched ls =>
        let status :=
          map (fun s => {| item_value := status_id s; item_label := status_label s |})
              (match ls with Some l => l | None => [] end) in
        let status :=
          {| item_value := "hull-default"; item_label := "(Use default)" |} :: status in
        {| body_ok := true; body_error := None; body_options := status |}
    | FetchFailed message =>
        {| body_ok := false; body_error := message; body_options := [] |}
    end.

(** ** ServiceClient (server/lib/service-client.js)

    The client hands requests to a superagent instance and returns its
    promises.  A call is modelled by the requests it hands over, in order,
    and by how the promise it returns settles, given how the agent answers
    each request. *)

Module ServiceClient.

Inductive Method := GET | POST | PUT.

(** A request as the client builds it: the method, the path behind the url
    prefix, the [query] object and the body given to [send] ([undefined]
    when there is none). *)
Record Request := {
  method : Method;
  path : string;
  query : Js.props;
  sent : Js.value
}.

(** The answer of the agent to a request: its promise is fulfilled with a
    response, or rejected with an error object. *)
Inductive Answer :=
| Fulfilled (response : Js.props)
| Failed (error : Js.props).

(** How the promise a call returns settles: resolved, rejected with an error
    object, rejected with an error the runtime raises in a handler; or
    [Thrown], when the call throws before it returns a promise. *)
Inductive Settled (A : Type) :=
| Resolved (a : A)
| Rejected (error : Js.props)
| RejectedWith (e : Error)
| Thrown (e : Error).
Arguments Resolved {A} _.
Arguments Rejected {A} _.
Arguments RejectedWith {A} _.
Arguments Thrown {A} _.

(** The error classes of hull/lib/errors the client uses, as the error
    objects their constructors build from a message and the extra data. *)
Record HullErrors := {
  ConfigurationError : string -> Js.props -> Js.props
}.

(** [new Error(message)] *)
Definition Error_new (message : string) : Js.props :=
  [("message", Js.str message)].

(** [v === undefined] *)
Definition is_undefined (v : Js.value) : bool :=
  match v with
  | Js.undefined => true
  | _ => false
  end.

Section Instance_.

Variable errors : HullErrors.

(** [this.agent], by its answers. *)
Variable agent : Request -> Answer.

(** [this.apiKey] *)
Variable apiKey : Js.value.

(** [hasValidApiKey()] *)
Definition hasValidApiKey : bool :=
  if Js.isNil apiKey then false
  else
    match apiKey with
    | Js.str key =>
        if negb (String.length key =? 0)%nat && (5 <? String.length key)%nat
        then true
        else false
    | _ => false
    end.

Definition noApiKey : Js.props :=
  ConfigurationError errors "No API key specified in the Settings." [].

(** Hand a request to the agent and return its promise. *)
Definition request (r : Request) : list Request * Settled Js.props :=
  ([r], match agent r with
        | Fulfilled response => Resolved response
        | Failed error => Rejected error
        end).

(** A parameter with a default value. *)
Definition number_or (given : option Z) (defaultValue : Z) : Js.value :=
  Js.number (match given with Some n => n | None => defaultValue end).

(** [listLeads(query, limit = 100, skip = 0)] *)
Definition listLeads (q : string) (limit skip : option Z)
  : list Request * Settled Js.props :=
  if negb hasValidApiKey then ([], Rejected noApiKey)
  else request {| method := GET; path := "/lead/";
                  query := [("query", Js.str q);
                            ("_limit", number_or limit 100);
                            ("_skip", number_or skip 0)];
                  sent := Js.undefined |}.

(** [createLead(data)] *)
Definition createLead (data : Js.value) : list Request * Settled Js.props :=
  if negb hasValidApiKey then ([], Rejected noApiKey)
  else request {| method := POST; path := "/lead/"; query := []; sent := data |}.

(** The body the two update calls share, for a resource (["lead"],
    ["contact"]): the check of the API key, the check of [data.id], where
    reading a property of [undefined] or [null] throws, and the request. *)
Definition update (resource : string) (data : Js.value)
  : list Request * Settled Js.props :=
  if negb hasValidApiKey then ([], Rejected noApiKey)
  else
    match data with
    | Js.undefined =>
        ([], Thrown (TypeError "Cannot read property 'id' of undefined"))
    | Js.null => ([], Thrown (TypeError "Cannot read property 'id' of null"))
    | _ =>
        if is_undefined (Js.member data "id")
        then ([], Rejected (Error_new ("Cannot update " ++ resource
                                         ++ " without id")%string))
        else request {| method := PUT;
                        path := ("/" ++ resource ++ "/"
                                   ++ Js.to_string (Js.member data "id") ++ "/")%string;
                        query := []; sent := data |}
    end.

(** [updateLead(data)] *)
Definition updateLead (data : Js.value) : list Request * Settled Js.props :=
  update "lead" data.

(** [listLeadStatuses()] *)
Definition listLeadStatuses : list Request * Settled Js.props :=
  if negb hasValidApiKey then ([], Rejected noApiKey)
  else request {| method := GET; path := "/status/lead/"; query := [];
                  sent := Js.undefined |}.

(** [listCustomFields(limit = 100, skip = 0)] *)
Definition listCustomFields (limit skip : option Z)
  : list Request * Settled Js.props :=
  if negb hasValidApiKey then ([], Rejected noApiKey)
  else request {| method := GET; path := "/custom_fields/lead";
                  query := [("_limit", number_or limit 100);
                            ("_skip", number_or skip 0)];
                  sent := Js.undefined |}.

(** [listContacts(query, limit = 100, skip = 0)] *)
Definition listContacts (q : string) (limit skip : option Z)
  : list Request * Settled Js.props :=
  if negb hasValidApiKey then ([], Rejected noApiKey)
  else request {| method := GET; path := "/contact/";
                  query := [("query", Js.str q);
                            ("_limit", number_or limit 100);
                            ("_skip", number_or skip 0)];
                  sent := Js.undefined |}.

(** [postContact(data)] *)
Definition postContact (data : Js.value) : list Request * Settled Js.props :=
  if negb hasValidApiKey then ([], Rejected noApiKey)
  else request {| method := POST; path := "/contact/"; query := []; sent := data |}.

(** [putContact(data)] *)
Definition putContact (data : Js.value) : list Request * Settled Js.props :=
  update "contact" data.

(** [error.response.body] on an error without a [response]. *)
Definition noBody (response : Js.value) : Error :=
  TypeError ("Cannot read property 'body' of " ++ Js.to_string response)%string.

(** The [then] and [catch] handlers the two envelope calls put behind the
    promise of the request. *)
Definition enrich (enrichedEnvelope : Js.props) (settled : Settled Js.props)
  : Settled Js.props :=
  match settled with
  | Resolved response =>
      let enrichedEnvelope :=
        Js.set enrichedEnvelope "cioReadContact" (Js.get response "body") in
      let enrichedEnvelope :=
        Js.set enrichedEnvelope "opsResult" (Js.str "success") in
      Resolved enrichedEnvelope
  | Rejected error =>
      let enrichedEnvelope :=
        Js.set enrichedEnvelope "opsResult" (Js.str "error") in
      if Js.isNil (Js.get error "response")
      then RejectedWith (noBody (Js.get error "response"))
      else
        Resolved (Js.set enrichedEnvelope "error"
                         (Js.member (Js.get error "response") "body"))
  | RejectedWith e => RejectedWith (noBody Js.undefined)
  | Thrown e => Thrown e
  end.

(** [postContactEnvelope(envelope)] *)
Definition postContactEnvelope (envelope : Js.props)
  : list Request * Settled Js.props :=
  let enrichedEnvelope := envelope in
  let call := postContact (Js.get envelope "cioWriteContact") in
  (fst call, enrich enrichedEnvelope (snd call)).

(** [updateContactEnvelope(envelope)] *)
Definition updateContactEnvelope (envelope : Js.props)
  : list Request * Settled Js.props :=
  let enrichedEnvelope := envelope in
  let call := putContact (Js.get envelope "cioWriteContact") in
  (fst call, enrich enrichedEnvelope (snd call)).

(** [isAuthenticated()] *)
Definition isAuthenticated : list Request * Settled bool :=
  if Bool.eqb hasValidApiKey false then ([], Resolved false)
  else
    let r := {| method := GET; path := "/me"; query := [];
                sent := Js.undefined |} in
    ([r], match agent r with
          | Fulfilled _ => Resolved true
          | Failed _ => Resolved false
          end).

End Instance_.
End ServiceClient.

(** ** What an outbound rule writes

    The property of the payload the "Customized mapping" loop writes for a
    rule whose source attribute has a value: the array named by the first
    segment of a multi-valued target, the target itself otherwise. *)
Definition written_key (m : CioOutboundMapping) : string :=
  let svcAttribName := closeio_field_name m in
  if startsWith svcAttribName "emails"
     || startsWith svcAttribName "phones"
     || startsWith svcAttribName "urls"
  then nth 0 (Js.split_dot (as_key svcAttribName)) ""
  else as_key svcAttribName.

(** The entry a rule contributes to the array [arrayAttribName] of the
    payload: [{ type: <second segment of the target>, <singular>: value }]
    when the rule is aimed at that array and its source has a value,
    nothing otherwise. *)
Definition contributed (paths : LodashPaths) (hullObject : Js.props)
    (arrayAttribName : string) (m : CioOutboundMapping) : list Js.value :=
  let svcAttribName := closeio_field_name m in
  let hullAttribValue := Lodash.get paths hullObject (as_key (hull_field_name m)) in
  if (startsWith svcAttribName "emails"
      || startsWith svcAttribName "phones"
      || startsWith svcAttribName "urls")
     && (written_key m =? arrayAttribName)
     && negb (Js.isNil hullAttribValue)
  then
    let typeValue :=
      match nth_error (Js.split_dot (as_key svcAttribName)) 1 with
      | Some t => Js.str t
      | None => Js.undefined
      end in
    [Js.object [("type", typeValue);
                (Js.drop_last arrayAttribName, hullAttribValue)]]
  else [].

(** The array property of a payload that holds the entries [acc]: absent
    while there is none. *)
Definition stored (acc : list Js.value) : option Js.value :=
  match acc with
  | [] => None
  | _ :: _ => Some (Js.array acc)
  end.

(** ** Further sample data *)

Module Fixtures.

(** A configuration object that names no segments. *)
Definition bareConfig : FilterUtilConfig :=
  {| config_synchronizedAccountSegments := None;
     config_leadIdentifierHull := None;
     config_cache := Sample.cacheMock |}.

(** An account whose snapshot holds the key of the external id with no
    value behind it. *)
Definition accountBlank : THullAccount :=
  {| id := "5bd329d5e2bcf3eeaf000099";
     indexed_at := "2018-10-26T14:51:01+00:00";
     attributes := [("name", Js.str "Hull Inc"); ("domain", Js.str "hull.io");
                    ("closeio/id", Js.null)] |}.

(** Two messages for one account with the same [indexed_at]. *)
Definition accountFirst : THullAccountUpdateMessage :=
  {| account := {| id := "5bd329d5e2bcf3eeaf000099";
                   indexed_at := "2018-10-26T14:51:01+00:00";
                   attributes := [("name", Js.str "Hull Inc")] |};
     account_segments := [Sample.segment];
     account_events := [] |}.

Definition accountSecond : THullAccountUpdateMessage :=
  {| account := {| id := "5bd329d5e2bcf3eeaf000099";
                   indexed_at := "2018-10-26T14:51:01+00:00";
                   attributes := [("name", Js.str "Hull Incorporated")] |};
     account_segments := [Sample.segment];
     account_events := [] |}.

(** Private settings that name the identifiers and an empty rule list. *)
Definition privateSettings : SyncAgent.CioConnectorSettings :=
  {| SyncAgent.api_key := Js.str "api_1234567890";
     SyncAgent.synchronized_account_segments := Some ["59f09bc7f9c5a94af600076d"];
     SyncAgent.lead_status := None;
     SyncAgent.lead_identifier_hull := Some "external_id";
     SyncAgent.lead_identifier_service := Some "custom.lcf_ext";
     SyncAgent.lead_attributes_outbound := Defined [];
     SyncAgent.lead_attributes_inbound := IsUndefined;
     SyncAgent.contact_attributes_outbound := IsUndefined;
     SyncAgent.contact_attributes_inbound := IsUndefined;
     SyncAgent.last_sync_at := Js.undefined |}.

(** The custom fields of the organization. *)
Definition customFields : list CioLeadCustomField :=
  [{| field_id := "lcf_industry"; field_name := "Industry" |};
   {| field_id := "lcf_plan"; field_name := "Plan" |}].

(** Settings of a mapping util: two rules aimed at the e-mail addresses and
    one at the name of a contact, the custom fields inbound for leads. *)
Definition mappingSettings : Cio.MappingUtilSettings :=
  {| Cio.attributeMappings :=
       Defined
         {| lead_attributes_outbound :=
              Defined [{| hull_field_name := Some "name";
                          closeio_field_name := Some "description" |}];
            lead_attributes_inbound :=
              Defined ["custom.lcf_industry"; "custom.lcf_plan"];
            contact_attributes_outbound :=
              Defined [{| hull_field_name := Some "email";
                          closeio_field_name := Some "emails.office" |};
                       {| hull_field_name := Some "title";
                          closeio_field_name := Some "title" |};
                       {| hull_field_name := Some "private_email";
                          closeio_field_name := Some "emails.home" |}];
            contact_attributes_inbound := Defined ["name"; "title"; "emails"] |};
     Cio.leadCreationStatusId := "stat_1ZdiZqcSIkoGVnNOyxiEY58eTGQmFNG3LPlEVQ4V7Nk";
     Cio.leadStatuses := [];
     Cio.leadCustomFields := customFields;
     Cio.leadIdentifierHull := "domain";
     Cio.leadIdentifierService := "url" |}.

(** A user of the platform with its account. *)
Definition hullUser : Js.props :=
  [("name", Js.str "Ada Lovelace");
   ("email", Js.str "ada@hull.io");
   ("private_email", Js.str "ada@example.org");
   ("account", Js.object [("closeio/id", Js.str "lead_534219tidgshk452t38tajfk")])].

(** A lead and a contact as the service returns them. *)
Definition leadRead : Js.props :=
  [("id", Js.str "lead_534219tidgshk452t38tajfk");
   ("name", Js.str "Hull Inc");
   ("custom.lcf_industry", Js.str "Software");
   ("custom.lcf_plan", Js.str "Enterprise");
   ("date_created", Js.str "2018-07-17T08:21:29.000000+00:00");
   ("date_updated", Js.str "2018-07-18T09:11:02.000000+00:00")].

Definition contactRead : Js.props :=
  [("id", Js.str "cont_y29g2ohnb3u35hy");
   ("lead_id", Js.str "lead_534219tidgshk452t38tajfk");
   ("name", Js.str "Ada Lovelace");
   ("emails", Js.array [Js.object [("type", Js.str "office");
                                   ("email", Js.str "ada@hull.io")]])].

(** The errors of the library, with the properties its constructor sets. *)
Definition errors : ServiceClient.HullErrors :=
  {| ServiceClient.ConfigurationError := fun message extra =>
       [("name", Js.str "ConfigurationError"); ("message", Js.str message);
        ("extra", Js.object extra)] |}.

(** An agent whose service answers every request with the body sent. *)
Definition echo : ServiceClient.Request -> ServiceClient.Answer :=
  fun r => ServiceClient.Fulfilled
             [("status", Js.number 200); ("body", ServiceClient.sent r)].


End Fixtures.

(* ================================================================== *)
(** * Properties *)

Lemma lookup_assign_same {V : Type} (o : Js.dict V) (k : string) (v : V) :
  Js.lookup (Js.assign o k v) k = Some v.
Proof.
  induction o as [|[k' v'] rest IH]; simpl.
  - now rewrite String.eqb_refl.
  - destruct (k' =? k) eqn:E; simpl; rewrite E; auto.
Qed.

Lemma lookup_assign_other {V : Type} (o : Js.dict V) (k k' : string) (v : V) :
  k <> k' -> Js.lookup (Js.assign o k v) k' = Js.lookup o k'.
Proof.
  intros Hne. induction o as [|[k0 v0] rest IH]; simpl.
  - apply String.eqb_neq in Hne. now rewrite Hne.
  - destruct (k0 =? k) eqn:E; simpl.
    + apply String.eqb_eq in E. subst k0.
      apply String.eqb_neq in Hne. now rewrite Hne.
    + destruct (k0 =? k'); auto.
Qed.

Lemma get_set_same (o : Js.props) (k : string) (v : Js.value) :
  Js.get (Js.set o k v) k = v.
Proof. unfold Js.get, Js.set. now rewrite lookup_assign_same. Qed.

Lemma get_set_other (o : Js.props) (k k' : string) (v : Js.value) :
  k <> k' -> Js.get (Js.set o k v) k' = Js.get o k'.
Proof.
  intros Hne. unfold Js.get, Js.set. now rewrite lookup_assign_other.
Qed.

Lemma has_set_same (o : Js.props) (k : string) (v : Js.value) :
  Js.has (Js.set o k v) k = true.
Proof. unfold Js.has, Js.mem, Js.set. now rewrite lookup_assign_same. Qed.

Lemma or_truthy (a b : Js.value) : Js.truthy a = true -> Js.or a b = a.
Proof. unfold Js.or. now intros ->. Qed.

Lemma or_falsy (a b : Js.value) : Js.truthy a = false -> Js.or a b = b.
Proof. unfold Js.or. now intros ->. Qed.

Lemma get_absent (o : Js.props) (k : string) :
  Js.has o k = false -> Js.get o k = Js.undefined.
Proof. unfold Js.has, Js.mem, Js.get. now destruct (Js.lookup o k). Qed.

(** ** lodash list helpers *)

Lemma includes_In (x : string) (l : list string) :
  Lodash.includes x l = true <-> In x l.
Proof.
  unfold Lodash.includes. rewrite existsb_exists. split.
  - intros [y [Hy E]]. apply String.eqb_eq in E. now subst.
  - intros H. exists x. split; [assumption | apply String.eqb_refl].
Qed.

Lemma uniq_In (x : string) (l : list string) :
  In x (Lodash.uniq l) <-> In x l.
Proof.
  induction l as [|y rest IH]; simpl; [tauto|].
  rewrite filter_In, IH. split.
  - intros [H | [H _]]; auto.
  - intros [H | H]; auto.
    destruct (String.eqb_spec y x) as [E | E]; auto.
Qed.

Lemma uniq_NoDup (l : list string) : NoDup (Lodash.uniq l).
Proof.
  induction l as [|y rest IH]; simpl; constructor.
  - rewrite filter_In. intros [_ H]. now rewrite String.eqb_refl in H.
  - now apply NoDup_filter.
Qed.

Lemma intersection_In (x : string) (a b : list string) :
  In x (Lodash.intersection a b) <-> In x a /\ In x b.
Proof.
  unfold Lodash.intersection.
  now rewrite uniq_In, filter_In, includes_In.
Qed.

Lemma intersection_nil_r (a : list string) : Lodash.intersection a [] = [].
Proof.
  unfold Lodash.intersection.
  induction a as [|x rest IH]; simpl; auto.
Qed.

(** ** The segment gate *)

Lemma matches_iff (this : FilterUtilConfiguration)
    (E : Type) (SE : SegmentedEnvelope E) (e : E) (name : string) :
  FilterUtil.matchesSynchronizedAccountSegments this e name = true <->
  exists x, In x (map segment_id (get_segments e name))
            /\ In x (synchronizedAccountSegments this).
Proof.
  unfold FilterUtil.matchesSynchronizedAccountSegments.
  set (i := Lodash.intersection _ _).
  assert (Hi : forall x, In x i <->
            In x (map segment_id (get_segments e name))
            /\ In x (synchronizedAccountSegments this))
    by (intros x; apply intersection_In).
  clearbody i. destruct i as [|y rest]; simpl.
  - split; [discriminate|]. intros [x Hx]. apply Hi in Hx. destruct Hx.
  - split; [|reflexivity]. intros _. exists y. apply Hi. now left.
Qed.

(** ** What the two filters compute *)

Section FilterFacts.

Variable SM : SharedMessages.
Variable this : FilterUtilConfiguration.

Local Abbreviation a_gate e :=
  (FilterUtil.matchesSynchronizedAccountSegments this e "message.account_segments").
Local Abbreviation a_resolves e :=
  (Js.has (attributes (hullAccount e)) "closeio/id"
   || negb (Js.isNil (cache this (id (hullAccount e))))).
Local Abbreviation a_resolved e :=
  (Js.or (Js.get (attributes (hullAccount e)) "closeio/id")
         (cache this (id (hullAccount e)))).
Local Abbreviation u_resolves e :=
  (Js.has (attributes (hullUser e)) "traits_closeio/id"
   || negb (Js.isNil (cache this (id (hullUser e))))).
Local Abbreviation u_resolved e :=
  (Js.or (Js.get (attributes (hullUser e)) "traits_closeio/id")
         (cache this (id (hullUser e)))).

Lemma filterAccounts_snoc (l : list AccountUpdateEnvelope) (e : AccountUpdateEnvelope) :
  FilterUtil.filterAccounts SM this (l ++ [e]) =
  FilterUtil.filterAccounts_each SM this (FilterUtil.filterAccounts SM this l) e.
Proof. unfold FilterUtil.filterAccounts. now rewrite fold_left_app. Qed.

Lemma filterUsers_snoc (l : list UserUpdateEnvelope) (e : UserUpdateEnvelope) :
  FilterUtil.filterUsers SM this (l ++ [e]) =
  FilterUtil.filterUsers_each SM this (FilterUtil.filterUsers SM this l) e.
Proof. unfold FilterUtil.filterUsers. now rewrite fold_left_app. Qed.

(** Each result list is the image of the envelopes that took the
    corresponding branch, in encounter order. *)
Lemma filterAccounts_lists (l : list AccountUpdateEnvelope) :
  let r := FilterUtil.filterAccounts SM this l in
  toSkip r =
    map (fun e => FilterUtil.a_skip e
                    (if a_gate e
                     then OPERATION_SKIP_ACCOUNTDOESNTEXISTINCLOSEIO SM
                     else OPERATION_SKIP_NOMATCHACCOUNTSEGMENTS SM))
        (filter (fun e => negb (a_gate e && a_resolves e)) l)
  /\ toUpdate r =
    map (fun e => FilterUtil.a_write_id e (a_resolved e))
        (filter (fun e => a_gate e && a_resolves e) l)
  /\ toInsert r = [].
Proof.
  induction l as [|e l IH] using rev_ind; [now cbn|].
  cbv zeta in *. rewrite filterAccounts_snoc.
  destruct IH as (Hs & Hu & Hi).
  rewrite !filter_app, !map_app. unfold FilterUtil.filterAccounts_each.
  destruct (a_gate e) eqn:G; cbn [negb andb].
  - destruct (a_resolves e) eqn:R; cbn [negb filter map toSkip toUpdate toInsert];
      rewrite G, ?R; cbn [negb andb map]; unfold FilterUtil.push;
      rewrite ?app_nil_r; rewrite Hs, Hu, Hi, ?G; repeat split; reflexivity.
  - cbn [negb filter map toSkip toUpdate toInsert].
    rewrite G; cbn [negb andb map]; unfold FilterUtil.push;
      rewrite ?app_nil_r; rewrite Hs, Hu, Hi, ?G; repeat split; reflexivity.
Qed.

Lemma filterUsers_lists (l : list UserUpdateEnvelope) :
  let r := FilterUtil.filterUsers SM this l in
  toSkip r =
    map (fun e => FilterUtil.u_skip e
                    (if a_gate e
                     then OPERATION_SKIP_USERDOESNTEXISTINCLOSEIO SM
                     else OPERATION_SKIP_NOMATCHACCOUNTSEGMENTSUSER SM))
        (filter (fun e => negb (a_gate e && u_resolves e)) l)
  /\ toUpdate r =
    map (fun e => FilterUtil.u_write_id e (u_resolved e))
        (filter (fun e => a_gate e && u_resolves e) l)
  /\ toInsert r = [].
Proof.
  induction l as [|e l IH] using rev_ind; [now cbn|].
  cbv zeta in *. rewrite filterUsers_snoc.
  destruct IH as (Hs & Hu & Hi).
  rewrite !filter_app, !map_app. unfold FilterUtil.filterUsers_each.
  destruct (a_gate e) eqn:G; cbn [negb andb].
  - destruct (u_resolves e) eqn:R; cbn [negb filter map toSkip toUpdate toInsert];
      rewrite G, ?R; cbn [negb andb map]; unfold FilterUtil.push;
      rewrite ?app_nil_r; rewrite Hs, Hu, Hi, ?G; repeat split; reflexivity.
  - cbn [negb filter map toSkip toUpdate toInsert].
    rewrite G; cbn [negb andb map]; unfold FilterUtil.push;
      rewrite ?app_nil_r; rewrite Hs, Hu, Hi, ?G; repeat split; reflexivity.
Qed.

End FilterFacts.

(** ** Classification *)

Local Abbreviation gate this e :=
  (FilterUtil.matchesSynchronizedAccountSegments this e "message.account_segments").
Local Abbreviation account_explicit e :=
  (Js.get (attributes (hullAccount e)) "closeio/id").
Local Abbreviation account_cached this e := (cache this (id (hullAccount e))).
Local Abbreviation account_resolves this e :=
  (Js.has (attributes (hullAccount e)) "closeio/id"
   || negb (Js.isNil (account_cached this e))).
Local Abbreviation user_explicit e :=
  (Js.get (attributes (hullUser e)) "traits_closeio/id").
Local Abbreviation user_cached this e := (cache this (id (hullUser e))).
Local Abbreviation user_resolves this e :=
  (Js.has (attributes (hullUser e)) "traits_closeio/id"
   || negb (Js.isNil (user_cached this e))).

Lemma Permutation_filter_split {A : Type} (p : A -> bool) (l : list A) :
  Permutation (filter (fun x => negb (p x)) l ++ filter p l) l.
Proof.
  induction l as [|x l IH]; cbn; [constructor|].
  destruct (p x); cbn.
  - symmetry. apply Permutation_cons_app. now symmetry.
  - now constructor.
Qed.

(** C10. Neither filter ever fills [toInsert]: an envelope that passes the
    segment gate and resolves an explicit or cached external id goes to
    [toUpdate] (with the resolved id stamped on its write payload), every
    other envelope goes to [toSkip]. *)
Theorem C10_filters_never_insert
    (SM : SharedMessages) (this : FilterUtilConfiguration) :
  (forall envelopes : list AccountUpdateEnvelope,
     let r := FilterUtil.filterAccounts SM this envelopes in
     toInsert r = []
     /\ toUpdate r =
          map (fun e => FilterUtil.a_write_id e
                          (Js.or (account_explicit e) (account_cached this e)))
              (filter (fun e => gate this e && account_resolves this e) envelopes)
     /\ toSkip r =
          map (fun e => FilterUtil.a_skip e
                          (if gate this e
                           then OPERATION_SKIP_ACCOUNTDOESNTEXISTINCLOSEIO SM
                           else OPERATION_SKIP_NOMATCHACCOUNTSEGMENTS SM))
              (filter (fun e => negb (gate this e && account_resolves this e))
                      envelopes))
  /\
  (forall envelopes : list UserUpdateEnvelope,
     let r := FilterUtil.filterUsers SM this envelopes in
     toInsert r = []
     /\ toUpdate r =
          map (fun e => FilterUtil.u_write_id e
                          (Js.or (user_explicit e) (user_cached this e)))
              (filter (fun e => gate this e && user_resolves this e) envelopes)
     /\ toSkip r =
          map (fun e => FilterUtil.u_skip e
                          (if gate this e
                           then OPERATION_SKIP_USERDOESNTEXISTINCLOSEIO SM
                           else OPERATION_SKIP_NOMATCHACCOUNTSEGMENTSUSER SM))
              (filter (fun e => negb (gate this e && user_resolves this e))
                      envelopes)).
Proof.
  split; intros envelopes r.
  - destruct (filterAccounts_lists SM this envelopes) as (Hs & Hu & Hi).
    subst r. auto.
  - destruct (filterUsers_lists SM this envelopes) as (Hs & Hu & Hi).
    subst r. auto.
Qed.

(** The filters leave the message and the snapshot of an envelope untouched;
    they identify the envelope across the mutation. *)
Local Abbreviation a_key := (fun e : AccountUpdateEnvelope => (a_message e, hullAccount e)).
Local Abbreviation u_key := (fun e : UserUpdateEnvelope => (u_message e, hullUser e)).



(** The gate reads the message only, identity resolution the snapshot only. *)
Lemma a_key_decides (this : FilterUtilConfiguration) (e e' : AccountUpdateEnvelope) :
  a_key e' = a_key e ->
  gate this e' = gate this e /\ account_resolves this e' = account_resolves this e.
Proof.
  intros H. injection H as Hm Hh.
  unfold FilterUtil.matchesSynchronizedAccountSegments. cbn.
  now rewrite Hm, Hh.
Qed.

Lemma u_key_decides (this : FilterUtilConfiguration) (e e' : UserUpdateEnvelope) :
  u_key e' = u_key e ->
  gate this e' = gate this e /\ user_resolves this e' = user_resolves this e.
Proof.
  intros H. injection H as Hm Hh.
  unfold FilterUtil.matchesSynchronizedAccountSegments. cbn.
  now rewrite Hm, Hh.
Qed.


Lemma in_image_of_filter {A B : Type} (f : A -> B) (p : A -> bool)
    (l : list A) (x : A) :
  In x l -> p x = true -> In (f x) (map f (filter p l)).
Proof. intros Hx Hp. apply in_map, filter_In. now split. Qed.

Lemma in_image_of_filter_inv {A B : Type} (f : A -> B) (p : A -> bool)
    (l : list A) (y : B) :
  In y (map f (filter p l)) -> exists x, f x = y /\ In x l /\ p x = true.
Proof.
  intros Hy. apply in_map_iff in Hy. destruct Hy as (x & Hfx & Hx).
  apply filter_In in Hx. now exists x.
Qed.

Lemma in_image_of_filter_at {A B : Type} (f : A -> B) (p : A -> bool)
    (l : list A) (x : A) (y : B) :
  In x l -> p x = true -> f x = y -> In y (map f (filter p l)).
Proof. intros Hx Hp <-. now apply in_image_of_filter. Qed.

Lemma resolves_bool (has_explicit : bool) (cached : Js.value) :
  has_explicit = true \/ Js.isNil cached = false ->
  has_explicit || negb (Js.isNil cached) = true.
Proof. intros [-> | ->]; auto using orb_true_r. Qed.

(** C4. An envelope that passes the segment gate and carries an explicit
    external id on its snapshot, or whose internal id the cache resolves to a
    non-nil value, is placed in [toUpdate] (never [toInsert], never [toSkip])
    with [explicit || cached] written to the [id] of its write payload: the
    explicit id when the snapshot holds one, the cached id otherwise. *)
Theorem C4_resolved_identity_is_update
    (SM : SharedMessages) (this : FilterUtilConfiguration) :
  (forall (envelopes : list AccountUpdateEnvelope) (e : AccountUpdateEnvelope),
     In e envelopes ->
     gate this e = true ->
     Js.has (attributes (hullAccount e)) "closeio/id" = true
       \/ Js.isNil (account_cached this e) = false ->
     let r := FilterUtil.filterAccounts SM this envelopes in
     let resolved := Js.or (account_explicit e) (account_cached this e) in
     In (FilterUtil.a_write_id e resolved) (toUpdate r)
     /\ Js.get (cioLeadWrite (FilterUtil.a_write_id e resolved)) "id" = resolved
     /\ (Js.truthy (account_explicit e) = true -> resolved = account_explicit e)
     /\ (Js.truthy (account_explicit e) = false -> resolved = account_cached this e)
     /\ toInsert r = []
     /\ (forall e', In e' (toSkip r) -> a_key e' <> a_key e))
  /\
  (forall (envelopes : list UserUpdateEnvelope) (e : UserUpdateEnvelope),
     In e envelopes ->
     gate this e = true ->
     Js.has (attributes (hullUser e)) "traits_closeio/id" = true
       \/ Js.isNil (user_cached this e) = false ->
     let r := FilterUtil.filterUsers SM this envelopes in
     let resolved := Js.or (user_explicit e) (user_cached this e) in
     In (FilterUtil.u_write_id e resolved) (toUpdate r)
     /\ Js.get (cioContactWrite (FilterUtil.u_write_id e resolved)) "id" = resolved
     /\ (Js.truthy (user_explicit e) = true -> resolved = user_explicit e)
     /\ (Js.truthy (user_explicit e) = false -> resolved = user_cached this e)
     /\ toInsert r = []
     /\ (forall e', In e' (toSkip r) -> u_key e' <> u_key e)).
Proof.
  split; intros envelopes e Hin Hgate Hres r resolved;
    apply resolves_bool in Hres.
  - destruct (filterAccounts_lists SM this envelopes) as (Hs & Hu & Hi).
    fold r in Hs, Hu, Hi. repeat split.
    + rewrite Hu.
      apply (in_image_of_filter
               (fun e => FilterUtil.a_write_id e
                           (Js.or (account_explicit e) (account_cached this e))));
        [assumption | now rewrite Hgate, Hres].
    + apply get_set_same.
    + apply or_truthy.
    + apply or_falsy.
    + assumption.
    + intros e' He' Hkey. rewrite Hs in He'.
      apply in_image_of_filter_inv in He'. destruct He' as (e0 & <- & _ & Hp).
      destruct (a_key_decides this e e0 Hkey) as [Hg Hr].
      cbn in Hp, Hg, Hr. rewrite Hg, Hr, Hgate, Hres in Hp. discriminate.
  - destruct (filterUsers_lists SM this envelopes) as (Hs & Hu & Hi).
    fold r in Hs, Hu, Hi. repeat split.
    + rewrite Hu.
      apply (in_image_of_filter
               (fun e => FilterUtil.u_write_id e
                           (Js.or (user_explicit e) (user_cached this e))));
        [assumption | now rewrite Hgate, Hres].
    + apply get_set_same.
    + apply or_truthy.
    + apply or_falsy.
    + assumption.
    + intros e' He' Hkey. rewrite Hs in He'.
      apply in_image_of_filter_inv in He'. destruct He' as (e0 & <- & _ & Hp).
      destruct (u_key_decides this e e0 Hkey) as [Hg Hr].
      cbn in Hp, Hg, Hr. rewrite Hg, Hr, Hgate, Hres in Hp. discriminate.
Qed.

(** C5. The segment gate answers [true] exactly when some segment id of the
    message is on the allow-list, hence never under an empty allow-list; an
    envelope the gate rejects is skipped with the segment-mismatch wording by
    both filters, whatever its explicit or cached external id, and nothing
    the gate rejects reaches [toUpdate] or [toInsert]. *)
Theorem C5_segment_gate_fails_closed
    (SM : SharedMessages) (this : FilterUtilConfiguration) :
  (forall (E : Type) (SE : SegmentedEnvelope E) (e : E) (name : string),
     (FilterUtil.matchesSynchronizedAccountSegments this e name = true <->
      exists x, In x (map segment_id (get_segments e name))
                /\ In x (synchronizedAccountSegments this))
     /\ (synchronizedAccountSegments this = [] ->
         FilterUtil.matchesSynchronizedAccountSegments this e name = false))
  /\
  (forall (envelopes : list AccountUpdateEnvelope) (e : AccountUpdateEnvelope),
     In e envelopes ->
     (forall x, In x (map segment_id (account_segments (a_message e))) ->
                ~ In x (synchronizedAccountSegments this)) ->
     let r := FilterUtil.filterAccounts SM this envelopes in
     In (FilterUtil.a_skip e (OPERATION_SKIP_NOMATCHACCOUNTSEGMENTS SM)) (toSkip r)
     /\ (forall e', In e' (toUpdate r ++ toInsert r) -> a_key e' <> a_key e))
  /\
  (forall (envelopes : list UserUpdateEnvelope) (e : UserUpdateEnvelope),
     In e envelopes ->
     (forall x, In x (map segment_id (user_account_segments (u_message e))) ->
                ~ In x (synchronizedAccountSegments this)) ->
     let r := FilterUtil.filterUsers SM this envelopes in
     In (FilterUtil.u_skip e (OPERATION_SKIP_NOMATCHACCOUNTSEGMENTSUSER SM)) (toSkip r)
     /\ (forall e', In e' (toUpdate r ++ toInsert r) -> u_key e' <> u_key e)).
Proof.
  split; [|split].
  - intros E SE e name. split; [apply matches_iff|].
    intros Hempty.
    destruct (FilterUtil.matchesSynchronizedAccountSegments this e name) eqn:M; auto.
    apply matches_iff in M. destruct M as (x & _ & Hx).
    rewrite Hempty in Hx. destruct Hx.
  - intros envelopes e Hin Hdisj r.
    assert (Hgate : gate this e = false).
    { destruct (gate this e) eqn:M; auto.
      apply matches_iff in M. destruct M as (x & Hx & Hallow).
      cbn in Hx. now apply Hdisj in Hx. }
    destruct (filterAccounts_lists SM this envelopes) as (Hs & Hu & Hi).
    fold r in Hs, Hu, Hi. split.
    + rewrite Hs.
      apply in_image_of_filter_at with (x := e);
        [assumption | now rewrite Hgate | now rewrite Hgate].
    + intros e' He' Hkey. rewrite Hu, Hi, app_nil_r in He'.
      apply in_image_of_filter_inv in He'. destruct He' as (e0 & <- & _ & Hp).
      destruct (a_key_decides this e e0 Hkey) as [Hg _].
      cbn in Hp, Hg. rewrite Hg, Hgate in Hp. discriminate.
  - intros envelopes e Hin Hdisj r.
    assert (Hgate : gate this e = false).
    { destruct (gate this e) eqn:M; auto.
      apply matches_iff in M. destruct M as (x & Hx & Hallow).
      cbn in Hx. now apply Hdisj in Hx. }
    destruct (filterUsers_lists SM this envelopes) as (Hs & Hu & Hi).
    fold r in Hs, Hu, Hi. split.
    + rewrite Hs.
      apply in_image_of_filter_at with (x := e);
        [assumption | now rewrite Hgate | now rewrite Hgate].
    + intros e' He' Hkey. rewrite Hu, Hi, app_nil_r in He'.
      apply in_image_of_filter_inv in He'. destruct He' as (e0 & <- & _ & Hp).
      destruct (u_key_decides this e e0 Hkey) as [Hg _].
      cbn in Hp, Hg. rewrite Hg, Hgate in Hp. discriminate.
Qed.

(** C1 (as the code has it). An envelope that passes the segment gate, carries
    no explicit external id and has no cached id is not placed in [toInsert]:
    both filters skip it, with the wording of the catalogue's
    "does not exist in close.io" entries. *)
Theorem C1_unresolved_identity_is_skipped
    (SM : SharedMessages) (this : FilterUtilConfiguration) :
  (forall (envelopes : list AccountUpdateEnvelope) (e : AccountUpdateEnvelope),
     In e envelopes ->
     gate this e = true ->
     Js.has (attributes (hullAccount e)) "closeio/id" = false ->
     Js.isNil (account_cached this e) = true ->
     let r := FilterUtil.filterAccounts SM this envelopes in
     In (FilterUtil.a_skip e (OPERATION_SKIP_ACCOUNTDOESNTEXISTINCLOSEIO SM)) (toSkip r)
     /\ toInsert r = [])
  /\
  (forall (envelopes : list UserUpdateEnvelope) (e : UserUpdateEnvelope),
     In e envelopes ->
     gate this e = true ->
     Js.has (attributes (hullUser e)) "traits_closeio/id" = false ->
     Js.isNil (user_cached this e) = true ->
     let r := FilterUtil.filterUsers SM this envelopes in
     In (FilterUtil.u_skip e (OPERATION_SKIP_USERDOESNTEXISTINCLOSEIO SM)) (toSkip r)
     /\ toInsert r = []).
Proof.
  split; intros envelopes e Hin Hgate Hhas Hnil r.
  - destruct (filterAccounts_lists SM this envelopes) as (Hs & _ & Hi).
    fold r in Hs, Hi. split; [|assumption]. rewrite Hs.
    apply in_image_of_filter_at with (x := e);
      [assumption | now rewrite Hgate, Hhas, Hnil | now rewrite Hgate].
  - destruct (filterUsers_lists SM this envelopes) as (Hs & _ & Hi).
    fold r in Hs, Hi. split; [|assumption]. rewrite Hs.
    apply in_image_of_filter_at with (x := e);
      [assumption | now rewrite Hgate, Hhas, Hnil | now rewrite Hgate].
Qed.

(** C6 (as the code has it). A user envelope that passes the segment gate,
    has no explicit and no cached external id, and whose parent account has
    no external id either, is skipped and never inserted; the reason it
    carries is the catalogue's "user does not exist in close.io" entry, so
    wherever that entry and the "not linked to an account" entry differ no
    copy of the envelope carries the latter. *)
Theorem C6_unlinked_user_skip_reason
    (SM : SharedMessages) (this : FilterUtilConfiguration)
    (envelopes : list UserUpdateEnvelope) (e : UserUpdateEnvelope) :
  In e envelopes ->
  gate this e = true ->
  Js.has (attributes (hullUser e)) "traits_closeio/id" = false ->
  Js.isNil (user_cached this e) = true ->
  Js.has (attributes (user_account (u_message e))) "closeio/id" = false ->
  Js.has (cioContactWrite e) "lead_id" = false ->
  let r := FilterUtil.filterUsers SM this envelopes in
  In (FilterUtil.u_skip e (OPERATION_SKIP_USERDOESNTEXISTINCLOSEIO SM)) (toSkip r)
  /\ toInsert r = []
  /\ (forall e', In e' (toSkip r ++ toUpdate r ++ toInsert r) ->
                 u_key e' = u_key e ->
                 u_skipReason e' = Some (OPERATION_SKIP_USERDOESNTEXISTINCLOSEIO SM))
  /\ (OPERATION_SKIP_USERDOESNTEXISTINCLOSEIO SM <> OPERATION_SKIP_NOLINKEDACCOUNT SM ->
      forall e', In e' (toSkip r ++ toUpdate r ++ toInsert r) ->
                 u_key e' = u_key e ->
                 u_skipReason e' <> Some (OPERATION_SKIP_NOLINKEDACCOUNT SM)).
Proof.
  intros Hin Hgate Hhas Hnil _ _ r.
  destruct (filterUsers_lists SM this envelopes) as (Hs & Hu & Hi).
  fold r in Hs, Hu, Hi.
  assert (Hreason : forall e', In e' (toSkip r ++ toUpdate r ++ toInsert r) ->
            u_key e' = u_key e ->
            u_skipReason e' = Some (OPERATION_SKIP_USERDOESNTEXISTINCLOSEIO SM)).
  { intros e' He' Hkey. rewrite Hi, app_nil_r in He'.
    apply in_app_or in He'. destruct He' as [He' | He'].
    - rewrite Hs in He'. apply in_image_of_filter_inv in He'.
      destruct He' as (e0 & <- & _ & _).
      destruct (u_key_decides this e e0 Hkey) as [Hg _].
      cbn in Hg |- *. now rewrite Hg, Hgate.
    - rewrite Hu in He'. apply in_image_of_filter_inv in He'.
      destruct He' as (e0 & <- & _ & Hp).
      destruct (u_key_decides this e e0 Hkey) as [Hg Hr].
      cbn in Hp, Hg, Hr. rewrite Hg, Hr, Hgate, Hhas, Hnil in Hp. discriminate. }
  repeat split; auto.
  - rewrite Hs.
    apply in_image_of_filter_at with (x := e);
      [assumption | now rewrite Hgate, Hhas, Hnil | now rewrite Hgate].
  - intros Hdiff e' He' Hkey Habs.
    rewrite (Hreason e' He' Hkey) in Habs. injection Habs as Habs. now apply Hdiff.
Qed.

(** ** Ordering of strings *)

Lemma lt_true_iff (a b : string) :
  Js.lt a b = true <-> OrdersEx.String_as_OT.lt a b.
Proof.
  unfold Js.lt, OrdersEx.String_as_OT.lt.
  destruct (OrdersEx.String_as_OT.compare a b); split; congruence.
Qed.

Lemma lt_irrefl (a : string) : Js.lt a a = false.
Proof.
  destruct (Js.lt a a) eqn:E; auto.
  apply lt_true_iff in E.
  now apply (StrictOrder_Irreflexive (R := OrdersEx.String_as_OT.lt)) in E.
Qed.

Lemma lt_false_cases (a b : string) :
  Js.lt b a = false -> a = b \/ OrdersEx.String_as_OT.lt a b.
Proof.
  intros H.
  destruct (OrdersEx.String_as_OT.compare_spec a b) as [E | L | G]; auto.
  apply lt_true_iff in G. congruence.
Qed.

(** [a <= b] and [b <= c] give [a <= c], with [x <= y] read as [not (y < x)]. *)
Lemma not_lt_trans (a b c : string) :
  Js.lt b a = false -> Js.lt c b = false -> Js.lt c a = false.
Proof.
  intros Hab Hbc.
  destruct (Js.lt c a) eqn:E; auto.
  apply lt_true_iff in E.
  pose proof (StrictOrder_Irreflexive (R := OrdersEx.String_as_OT.lt)) as Irr.
  pose proof (StrictOrder_Transitive (R := OrdersEx.String_as_OT.lt)) as Tr.
  destruct (lt_false_cases _ _ Hab) as [-> | Lab];
    destruct (lt_false_cases _ _ Hbc) as [-> | Lbc].
  - now apply Irr in E.
  - exfalso. apply (Irr c). now apply Tr with b.
  - exfalso. apply (Irr c). now apply Tr with a.
  - exfalso. apply (Irr c). apply Tr with a; auto. now apply Tr with b.
Qed.

(** ** [_.sortBy] and [_.last] *)

Section SortBy.

Context {A : Type}.
Variable key : A -> string.

Local Abbreviation le x y := (Js.lt (key y) (key x) = false).

Lemma sort_insert_perm (x : A) (l : list A) :
  Permutation (Lodash.sort_insert key x l) (x :: l).
Proof.
  induction l as [|y rest IH]; cbn; auto.
  destruct (Js.lt (key y) (key x)); auto.
  rewrite IH. apply perm_swap.
Qed.

Lemma sortBy_perm (l : list A) : Permutation (Lodash.sortBy key l) l.
Proof.
  induction l as [|x rest IH]; cbn; auto.
  rewrite sort_insert_perm. now constructor.
Qed.

Lemma sort_insert_sorted (x : A) (l : list A) :
  StronglySorted (fun a b => le a b) l ->
  StronglySorted (fun a b => le a b) (Lodash.sort_insert key x l).
Proof.
  induction 1 as [|y rest Hsorted IH Hall]; cbn.
  - repeat constructor.
  - destruct (Js.lt (key y) (key x)) eqn:E.
    + constructor; auto.
      rewrite Forall_forall in *. intros z Hz.
      apply (Permutation_in _ (sort_insert_perm x rest)) in Hz.
      destruct Hz as [<- | Hz]; auto.
      destruct (Js.lt (key x) (key y)) eqn:E'; auto.
      apply lt_true_iff in E, E'. exfalso.
      apply (StrictOrder_Irreflexive (R := OrdersEx.String_as_OT.lt) (key x)).
      now apply (StrictOrder_Transitive (R := OrdersEx.String_as_OT.lt)) with (key y).
    + constructor; [now constructor|].
      constructor; auto.
      rewrite Forall_forall in *. intros z Hz.
      apply not_lt_trans with (key y); auto.
Qed.

Lemma sortBy_sorted (l : list A) :
  StronglySorted (fun a b => le a b) (Lodash.sortBy key l).
Proof.
  induction l as [|x rest IH]; cbn; [constructor|].
  now apply sort_insert_sorted.
Qed.

Lemma last_of_sorted (l : list A) :
  StronglySorted (fun a b => le a b) l -> l <> [] ->
  exists rep, Lodash.last l = Some rep /\ In rep l
              /\ forall m, In m l -> le m rep.
Proof.
  induction 1 as [|y rest Hsorted IH Hall]; [congruence|]. intros _.
  destruct rest as [|z rest'].
  - exists y. cbn. repeat split; auto.
    intros m [<- | []]. apply lt_irrefl.
  - destruct IH as (rep & Hlast & Hin & Hmax); [congruence|].
    exists rep. split; [exact Hlast|]. split; [now right|].
    intros m [<- | Hm]; auto.
    rewrite Forall_forall in Hall. now apply Hall.
Qed.

(** [_.last(_.sortBy(group, key))] is an element of the group whose key no
    other element exceeds. *)
Lemma last_sortBy (l : list A) :
  l <> [] ->
  exists rep, Lodash.last (Lodash.sortBy key l) = Some rep /\ In rep l
              /\ forall m, In m l -> le m rep.
Proof.
  intros Hne.
  destruct (last_of_sorted (Lodash.sortBy key l) (sortBy_sorted l))
    as (rep & Hlast & Hin & Hmax).
  - intros Hnil. apply Hne.
    apply Permutation_nil. rewrite <- Hnil. apply sortBy_perm.
  - exists rep. split; [exact Hlast|]. split.
    + now apply (Permutation_in _ (sortBy_perm l)).
    + intros m Hm. apply Hmax.
      apply (Permutation_in _ (Permutation_sym (sortBy_perm l))). exact Hm.
Qed.

End SortBy.

(** ** Dictionaries *)

Section Dict.

Context {V : Type}.

Lemma keys_assign (o : Js.dict V) (k : string) (v : V) :
  forall k', In k' (Js.keys (Js.assign o k v)) <-> k' = k \/ In k' (Js.keys o).
Proof.
  intros k'. induction o as [|[k0 v0] rest IH]; cbn.
  - intuition congruence.
  - destruct (String.eqb_spec k0 k) as [-> | Hne]; cbn.
    + intuition congruence.
    + rewrite IH. intuition congruence.
Qed.

Lemma NoDup_keys_assign (o : Js.dict V) (k : string) (v : V) :
  NoDup (Js.keys o) -> NoDup (Js.keys (Js.assign o k v)).
Proof.
  induction o as [|[k0 v0] rest IH]; cbn; intros Hnd.
  - repeat constructor. auto.
  - inversion_clear Hnd as [|? ? Hnotin Hrest].
    destruct (String.eqb_spec k0 k) as [-> | Hne]; cbn.
    + now constructor.
    + constructor; auto.
      intros Hin. apply keys_assign in Hin. destruct Hin as [-> | Hin]; auto.
Qed.

Lemma lookup_In (o : Js.dict V) (k : string) (v : V) :
  Js.lookup o k = Some v -> In (k, v) o.
Proof.
  induction o as [|[k0 v0] rest IH]; cbn; [discriminate|].
  destruct (String.eqb_spec k0 k) as [-> | Hne].
  - intros [= ->]. now left.
  - intros H. right. auto.
Qed.

Lemma In_lookup (o : Js.dict V) (k : string) (v : V) :
  NoDup (Js.keys o) -> In (k, v) o -> Js.lookup o k = Some v.
Proof.
  induction o as [|[k0 v0] rest IH]; cbn; [tauto|].
  intros Hnd Hin. inversion_clear Hnd as [|? ? Hnotin Hrest].
  destruct Hin as [[= -> ->] | Hin].
  - now rewrite String.eqb_refl.
  - destruct (String.eqb_spec k0 k) as [-> | Hne]; auto.
    exfalso. apply Hnotin. unfold Js.keys. now apply (in_map fst) in Hin.
Qed.

(** *** Enumeration order is a rearrangement of the properties *)

Lemma insert_index_perm (x : N * (string * V)) (l : list (N * (string * V))) :
  Permutation (Js.insert_index x l) (x :: l).
Proof.
  induction l as [|y rest IH]; cbn; auto.
  destruct (fst x <=? fst y)%N; auto.
  rewrite IH. apply perm_swap.
Qed.

Lemma sort_indices_perm (l : list (N * (string * V))) :
  Permutation (Js.sort_indices l) l.
Proof.
  induction l as [|x rest IH]; cbn; auto.
  rewrite insert_index_perm. now constructor.
Qed.

Lemma indexed_entries (o : Js.dict V) :
  map snd (Js.indexed o) =
  filter (fun kv => negb match Js.array_index (fst kv) with
                         | Some _ => false
                         | None => true
                         end) o.
Proof.
  unfold Js.indexed.
  induction o as [|[k v] rest IH]; [reflexivity|].
  cbn [flat_map filter fst]. rewrite map_app, IH.
  now destruct (Js.array_index k).
Qed.

Lemma ownEntries_perm (o : Js.dict V) : Permutation (Js.ownEntries o) o.
Proof.
  unfold Js.ownEntries.
  rewrite (Permutation_map snd (sort_indices_perm (Js.indexed o))).
  rewrite indexed_entries. apply Permutation_filter_split.
Qed.

Lemma values_In (o : Js.dict V) (v : V) :
  In v (Lodash.values o) <-> exists k, In (k, v) o.
Proof.
  unfold Lodash.values. rewrite in_map_iff. split.
  - intros ([k v'] & <- & Hin). exists k.
    now apply (Permutation_in _ (ownEntries_perm o)).
  - intros (k & Hin). exists (k, v). split; auto.
    now apply (Permutation_in _ (Permutation_sym (ownEntries_perm o))).
Qed.

Lemma keys_ownEntries_NoDup (o : Js.dict V) :
  NoDup (Js.keys o) -> NoDup (Js.keys (Js.ownEntries o)).
Proof.
  intros Hnd. unfold Js.keys.
  apply (Permutation_NoDup (l := map fst o)); auto.
  apply Permutation_map. symmetry. apply ownEntries_perm.
Qed.

End Dict.

(** ** [_.groupBy] *)

Section GroupBy.

Context {A : Type}.
Variable key : A -> string.

Local Abbreviation members k l := (filter (fun m => key m =? k) l).

Lemma groupBy_snoc (l : list A) (x : A) :
  Lodash.groupBy key (l ++ [x]) =
  match Js.lookup (Lodash.groupBy key l) (key x) with
  | Some group => Js.assign (Lodash.groupBy key l) (key x) (group ++ [x])
  | None => Js.assign (Lodash.groupBy key l) (key x) [x]
  end.
Proof. unfold Lodash.groupBy. now rewrite fold_left_app. Qed.

(** The group stored under [k] holds the elements with key [k], in
    encounter order; there is no group for a key that does not occur. *)
Lemma groupBy_lookup (l : list A) (k : string) :
  Js.lookup (Lodash.groupBy key l) k =
  match members k l with
  | [] => None
  | g => Some g
  end.
Proof.
  induction l as [|x l IH] using rev_ind; [reflexivity|].
  rewrite groupBy_snoc, filter_app. cbn [filter].
  destruct (String.eqb_spec (key x) k) as [-> | Hne].
  - rewrite IH.
    destruct (members k l) as [|m g]; rewrite lookup_assign_same; reflexivity.
  - rewrite app_nil_r.
    destruct (Js.lookup (Lodash.groupBy key l) (key x));
      rewrite lookup_assign_other; auto.
Qed.

Lemma groupBy_keys_NoDup (l : list A) : NoDup (Js.keys (Lodash.groupBy key l)).
Proof.
  induction l as [|x l IH] using rev_ind; [constructor|].
  rewrite groupBy_snoc.
  destruct (Js.lookup (Lodash.groupBy key l) (key x));
    now apply NoDup_keys_assign.
Qed.

Lemma groupBy_In (l : list A) (k : string) (g : list A) :
  In (k, g) (Lodash.groupBy key l) <-> g = members k l /\ g <> [].
Proof.
  split.
  - intros Hin. apply In_lookup in Hin; [|apply groupBy_keys_NoDup].
    rewrite groupBy_lookup in Hin.
    destruct (members k l) as [|m g'] eqn:E; [discriminate|].
    injection Hin as <-. split; congruence.
  - intros [-> Hne]. apply lookup_In. rewrite groupBy_lookup.
    destruct (members k l); congruence.
Qed.

End GroupBy.

Section GroupEntries.

Context {A : Type}.
Variable key : A -> string.

(** What [_.map] visits after [_.groupBy]: one entry per key that occurs,
    holding the elements with that key. *)
Lemma group_entries (l : list A) :
  let entries := Js.ownEntries (Lodash.groupBy key l) in
  NoDup (map fst entries)
  /\ (forall k, In k (map fst entries) <-> In k (map key l))
  /\ (forall k g, In (k, g) entries ->
        g = filter (fun m => key m =? k) l /\ g <> []).
Proof.
  intros entries.
  assert (Hperm : Permutation entries (Lodash.groupBy key l))
    by apply ownEntries_perm.
  assert (Hentry : forall k g, In (k, g) entries ->
             g = filter (fun m => key m =? k) l /\ g <> []).
  { intros k g Hin. apply groupBy_In.
    now apply (Permutation_in _ Hperm). }
  split; [|split]; auto.
  - apply keys_ownEntries_NoDup, groupBy_keys_NoDup.
  - intros k. rewrite !in_map_iff. split.
    + intros ([k' g] & <- & Hin). cbn.
      destruct (Hentry _ _ Hin) as [-> Hne].
      destruct (filter (fun m => key m =? k') l) as [|m rest] eqn:E; [congruence|].
      assert (Hm : In m (filter (fun m => key m =? k') l)) by (rewrite E; now left).
      apply filter_In in Hm. destruct Hm as [Hm Hk].
      apply String.eqb_eq in Hk. now exists m.
    + intros (m & <- & Hm).
      exists (key m, filter (fun m' => key m' =? key m) l). split; auto.
      apply (Permutation_in _ (Permutation_sym Hperm)).
      apply groupBy_In. split; auto.
      intros Hnil.
      assert (Hin : In m (filter (fun m' => key m' =? key m) l))
        by (apply filter_In; split; [assumption | apply String.eqb_refl]).
      rewrite Hnil in Hin. destruct Hin.
Qed.

End GroupEntries.

(** ** Running a callback over a list *)

Lemma mapM_map {A B C : Type} (f : B -> Result C) (h : A -> B) (l : list A) :
  mapM f (map h l) = mapM (fun x => f (h x)) l.
Proof. induction l as [|x rest IH]; cbn; [reflexivity | now rewrite IH]. Qed.

Lemma mapM_Forall2 {A B : Type} (f : A -> Result B) (P : A -> B -> Prop)
    (l : list A) :
  (forall x, In x l -> exists y, f x = Ok y /\ P x y) ->
  exists ys, mapM f l = Ok ys /\ Forall2 P l ys.
Proof.
  induction l as [|x rest IH]; intros H.
  - exists []. split; [reflexivity | constructor].
  - destruct (H x (or_introl eq_refl)) as (y & Hy & Py).
    destruct IH as (ys & Hys & Pys); [intros z Hz; apply H; now right|].
    exists (y :: ys). cbn. rewrite Hy. cbn. rewrite Hys. cbn.
    split; [reflexivity | now constructor].
Qed.

Lemma Forall2_In_r {A B : Type} (P : A -> B -> Prop) (l : list A) (ys : list B) :
  Forall2 P l ys -> forall y, In y ys -> exists x, In x l /\ P x y.
Proof.
  induction 1 as [|x y l ys Pxy _ IH]; intros z Hz; [destruct Hz|].
  destruct Hz as [<- | Hz].
  - exists x. split; [now left | assumption].
  - destruct (IH z Hz) as (x' & Hx' & Px'). exists x'. split; [now right | assumption].
Qed.

Lemma Forall2_map_eq {A B C : Type} (g : B -> C) (h : A -> C)
    (l : list A) (ys : list B) :
  Forall2 (fun x y => g y = h x) l ys -> map g ys = map h l.
Proof. induction 1; cbn; congruence. Qed.

Lemma Forall2_weaken {A B : Type} (P Q : A -> B -> Prop) (l : list A) (ys : list B) :
  (forall x y, P x y -> Q x y) -> Forall2 P l ys -> Forall2 Q l ys.
Proof. intros H. induction 1; constructor; auto. Qed.

(** ** Merging the events of a group *)

Section EventHash.

Variable paths : LodashPaths.

Local Abbreviation write := (fun (h : Js.dict THullEvent) (e : THullEvent) =>
                               Lodash.set paths h (event_id e) e).
Local Abbreviation assign := (fun (h : Js.dict THullEvent) (e : THullEvent) =>
                                Js.assign h (event_id e) e).

Lemma nested_forEach {M : Type} (events : M -> list THullEvent)
    (group : list M) (h : Js.dict THullEvent) :
  fold_left (fun h m => fold_left write (events m) h) group h =
  fold_left write (flat_map events group) h.
Proof.
  revert h. induction group as [|m rest IH]; intros h; cbn; [reflexivity|].
  now rewrite fold_left_app, IH.
Qed.

Lemma write_own_keys (l : list THullEvent) (h : Js.dict THullEvent) :
  Forall (fun e => Lodash.own_key (event_id e) = true) l ->
  fold_left write l h = fold_left assign l h.
Proof.
  intros Hown. revert h. induction Hown as [|e rest He _ IH]; intros h; cbn.
  - reflexivity.
  - unfold Lodash.set at 2. rewrite He. cbn [orb]. apply IH.
Qed.

(** The event kept under an id is the last one written with that id. *)
Lemma assign_all_lookup (l : list THullEvent) (k : string) :
  Js.lookup (fold_left assign l []) k =
  find (fun e => event_id e =? k) (rev l).
Proof.
  induction l as [|e l IH] using rev_ind; [reflexivity|].
  rewrite fold_left_app, rev_app_distr. cbn.
  destruct (String.eqb_spec (event_id e) k) as [-> | Hne].
  - apply lookup_assign_same.
  - rewrite lookup_assign_other; auto.
Qed.

Lemma assign_all_NoDup (l : list THullEvent) :
  NoDup (Js.keys (fold_left assign l [])).
Proof.
  induction l as [|e l IH] using rev_ind; [constructor|].
  rewrite fold_left_app. cbn. now apply NoDup_keys_assign.
Qed.

Lemma assign_all_In (l : list THullEvent) (k : string) (e : THullEvent) :
  In (k, e) (fold_left assign l []) <->
  find (fun e' => event_id e' =? k) (rev l) = Some e.
Proof.
  rewrite <- assign_all_lookup. split.
  - apply In_lookup, assign_all_NoDup.
  - apply lookup_In.
Qed.

(** [_.values(hashedEvents)] once every event of the group is written. *)
Lemma merged_events (l : list THullEvent) :
  let merged := Lodash.values (fold_left assign l []) in
  NoDup (map event_id merged)
  /\ (forall e, In e merged <->
                find (fun e' => event_id e' =? event_id e) (rev l) = Some e)
  /\ (forall eid, In eid (map event_id merged) <-> In eid (map event_id l)).
Proof.
  intros merged.
  assert (Hkey : forall k e, In (k, e) (Js.ownEntries (fold_left assign l [])) ->
                             event_id e = k).
  { intros k e Hin.
    apply (Permutation_in _ (ownEntries_perm _)) in Hin.
    apply assign_all_In, find_some in Hin. now apply String.eqb_eq. }
  assert (Hmem : forall e, In e merged <->
            find (fun e' => event_id e' =? event_id e) (rev l) = Some e).
  { intros e. unfold merged. rewrite values_In. split.
    - intros (k & Hin).
      assert (Hk : event_id e = k).
      { apply Hkey. now apply (Permutation_in _ (Permutation_sym (ownEntries_perm _))). }
      subst k. now apply assign_all_In.
    - intros Hfind. exists (event_id e). now apply assign_all_In. }
  split; [|split]; auto.
  - unfold merged, Lodash.values. rewrite map_map.
    rewrite (map_ext_in _ fst).
    + apply (keys_ownEntries_NoDup _ (assign_all_NoDup l)).
    + intros [k e] Hin. cbn. now apply Hkey.
  - intros eid. rewrite !in_map_iff. split.
    + intros (e & <- & He). apply Hmem, find_some in He.
      exists e. split; [reflexivity|]. apply in_rev. tauto.
    + intros (e & <- & He).
      destruct (find (fun e' => event_id e' =? event_id e) (rev l)) as [e'|] eqn:F.
      * exists e'. split.
        -- apply find_some in F. now apply String.eqb_eq.
        -- apply Hmem. apply find_some in F as F'.
           destruct F' as [_ Heq]. apply String.eqb_eq in Heq.
           now rewrite Heq.
      * apply in_rev in He. apply (find_none _ _ F) in He.
        cbn in He. now rewrite String.eqb_refl in He.
Qed.

End EventHash.

(** ** Deduplication *)

Local Abbreviation uid := (fun m : THullUserUpdateMessage => id (user m)).
Local Abbreviation aid := (fun m : THullAccountUpdateMessage => id (account m)).

(** What the callback of the user deduplication returns on a group. *)
Lemma dedupeUserGroup_spec (paths : LodashPaths)
    (group : list THullUserUpdateMessage) :
  group <> [] ->
  Forall (fun e => Lodash.own_key (event_id e) = true)
         (flat_map user_events group) ->
  exists rep,
    In rep group
    /\ (forall m, In m group ->
          Js.lt (indexed_at (user rep)) (indexed_at (user m)) = false)
    /\ FilterUtil.dedupeUserGroup paths group =
       Ok (FilterUtil.u_set_events rep
             (Lodash.values
                (fold_left (fun h e => Js.assign h (event_id e) e)
                           (flat_map user_events group) []))).
Proof.
  intros Hne Hown.
  destruct (last_sortBy (fun m => indexed_at (user m)) group Hne)
    as (rep & Hlast & Hin & Hmax).
  exists rep. split; [assumption|]. split; [assumption|].
  unfold FilterUtil.dedupeUserGroup. rewrite Hlast.
  now rewrite nested_forEach, write_own_keys.
Qed.

(** Deduplication returns one message per distinct internal id, built from a
    message of the group whose [indexed_at] no other message of the group
    exceeds.  For users, provided every event id is a key lodash writes as
    one own property, the events of the output carry each event id of the
    group exactly once, each with the last event written under that id.  For
    accounts the output is the chosen message itself. *)
Lemma deduplication_per_entity (paths : LodashPaths) :
  (forall messages : list THullUserUpdateMessage,
     (forall m e, In m messages -> In e (user_events m) ->
                  Lodash.own_key (event_id e) = true) ->
     exists out,
       FilterUtil.deduplicateUserUpdateMessages paths messages = Ok out
       /\ NoDup (map uid out)
       /\ (forall i, In i (map uid out) <-> In i (map uid messages))
       /\ (forall o, In o out ->
             let group := filter (fun m => uid m =? uid o) messages in
             (exists rep,
                 In rep group
                 /\ o = FilterUtil.u_set_events rep (user_events o)
                 /\ forall m, In m group ->
                      Js.lt (indexed_at (user rep)) (indexed_at (user m)) = false)
             /\ NoDup (map event_id (user_events o))
             /\ (forall eid, In eid (map event_id (user_events o)) <->
                             In eid (map event_id (flat_map user_events group)))
             /\ (forall e, In e (user_events o) ->
                   find (fun e' => event_id e' =? event_id e)
                        (rev (flat_map user_events group)) = Some e)))
  /\
  (forall messages : list THullAccountUpdateMessage,
     exists out,
       FilterUtil.deduplicateAccountUpdateMessages messages = map Some out
       /\ NoDup (map aid out)
       /\ (forall i, In i (map aid out) <-> In i (map aid messages))
       /\ (forall o, In o out ->
             let group := filter (fun m => aid m =? aid o) messages in
             In o group
             /\ forall m, In m group ->
                  Js.lt (indexed_at (account o)) (indexed_at (account m)) = false)).
Proof.
  split.
  - intros messages Hown.
    destruct (group_entries uid messages) as (Hnd & Hkeys & Hent).
    set (entries := Js.ownEntries (Lodash.groupBy uid messages)) in *.
    pose (P := fun (kv : string * list THullUserUpdateMessage)
                   (o : THullUserUpdateMessage) =>
                 snd kv = filter (fun m => uid m =? fst kv) messages
                 /\ exists rep,
                      In rep (snd kv)
                      /\ (forall m, In m (snd kv) ->
                            Js.lt (indexed_at (user rep)) (indexed_at (user m)) = false)
                      /\ o = FilterUtil.u_set_events rep
                               (Lodash.values
                                  (fold_left (fun h e => Js.assign h (event_id e) e)
                                             (flat_map user_events (snd kv)) []))).
    destruct (mapM_Forall2 (fun kv => FilterUtil.dedupeUserGroup paths (snd kv))
                P entries) as (out & Hout & HP).
    { intros [k g] Hin. destruct (Hent k g Hin) as [Hg Hne]. cbn [snd fst].
      destruct (dedupeUserGroup_spec paths g Hne) as (rep & Hrep & Hmax & Hres).
      - apply Forall_forall. intros e He. apply in_flat_map in He.
        destruct He as (m & Hm & He). apply (Hown m e); auto.
        rewrite Hg in Hm. apply filter_In in Hm. tauto.
      - exists (FilterUtil.u_set_events rep
                  (Lodash.values
                     (fold_left (fun h e => Js.assign h (event_id e) e)
                                (flat_map user_events g) []))).
        split; [assumption|]. split; [assumption|]. exists rep. auto. }
    assert (Hid : forall kv o, P kv o -> uid o = fst kv).
    { intros [k g] o (Hg & rep & Hrep & _ & ->). cbn in *.
      rewrite Hg in Hrep. apply filter_In in Hrep.
      destruct Hrep as [_ Hk]. now apply String.eqb_eq in Hk. }
    assert (Hids : map uid out = map fst entries).
    { apply Forall2_map_eq. revert HP. apply Forall2_weaken. exact Hid. }
    exists out. split.
    { unfold FilterUtil.deduplicateUserUpdateMessages, Lodash.values.
      rewrite mapM_map. exact Hout. }
    split; [now rewrite Hids|]. split; [intros i; rewrite Hids; apply Hkeys|].
    intros o Ho group.
    destruct (Forall2_In_r _ _ _ HP o Ho) as ([k g] & Hin & HPo).
    pose proof (Hid _ _ HPo) as Hk. cbn in Hk.
    destruct HPo as (Hg & rep & Hrep & Hmax & Ho'). cbn [fst snd] in *.
    assert (Hgroup : g = group) by (unfold group; now rewrite Hk).
    rewrite Hgroup in *. clear Hgroup.
    assert (Hev : user_events o =
                  Lodash.values
                    (fold_left (fun h e => Js.assign h (event_id e) e)
                               (flat_map user_events group) []))
      by (rewrite Ho'; reflexivity).
    destruct (merged_events (flat_map user_events group)) as (Hnd' & Hmem & Hset).
    rewrite <- Hev in Hnd', Hmem, Hset.
    split; [|split; [|split]]; auto.
    + exists rep. split; [assumption|]. split; [|assumption].
      rewrite Ho' at 1. now rewrite Hev.
    + intros e He. now apply Hmem.
  - intros messages.
    destruct (group_entries aid messages) as (Hnd & Hkeys & Hent).
    set (entries := Js.ownEntries (Lodash.groupBy aid messages)) in *.
    pose (P := fun (kv : string * list THullAccountUpdateMessage)
                   (o : THullAccountUpdateMessage) =>
                 snd kv = filter (fun m => aid m =? fst kv) messages
                 /\ In o (snd kv)
                 /\ (forall m, In m (snd kv) ->
                       Js.lt (indexed_at (account o)) (indexed_at (account m)) = false)
                 /\ FilterUtil.dedupeAccountGroup (snd kv) = Some o).
    assert (Hall : forall l, (forall kv, In kv l -> In kv entries) ->
                     exists out, Forall2 P l out).
    { induction l as [|[k g] rest IH]; intros Hsub.
      - exists []. constructor.
      - destruct IH as (out & Hout); [intros kv Hkv; apply Hsub; now right|].
        destruct (Hent k g (Hsub _ (or_introl eq_refl))) as [Hg Hne].
        destruct (last_sortBy (fun m => indexed_at (account m)) g Hne)
          as (rep & Hlast & Hrep & Hmax).
        exists (rep :: out). constructor; auto.
        repeat split; auto. }
    destruct (Hall entries) as (out & HP); [auto|].
    assert (Hid : forall kv o, P kv o -> aid o = fst kv).
    { intros [k g] o (Hg & Hrep & _). cbn in *.
      rewrite Hg in Hrep. apply filter_In in Hrep.
      destruct Hrep as [_ Hk]. now apply String.eqb_eq in Hk. }
    assert (Hids : map aid out = map fst entries).
    { apply Forall2_map_eq. revert HP. apply Forall2_weaken. exact Hid. }
    exists out. split.
    { unfold FilterUtil.deduplicateAccountUpdateMessages, Lodash.values.
      fold entries. rewrite map_map. symmetry.
      apply Forall2_map_eq. revert HP. apply Forall2_weaken.
      intros kv o (_ & _ & _ & H). now rewrite H. }
    split; [now rewrite Hids|]. split; [intros i; rewrite Hids; apply Hkeys|].
    intros o Ho group.
    destruct (Forall2_In_r _ _ _ HP o Ho) as ([k g] & Hin & HPo).
    pose proof (Hid _ _ HPo) as Hk. cbn in Hk.
    destruct HPo as (Hg & Hrep & Hmax & _). cbn [fst snd] in *.
    assert (Hgroup : g = group) by (unfold group; now rewrite Hk).
    rewrite Hgroup in *. auto.
Qed.

(** C3. The account variant merges no events.  Every message it returns is a
    message of the batch as it arrived, one whose [indexed_at] no other
    message of its account exceeds; so an event id is on no output message
    whenever each message of the account that carries it is older than
    another message of the account.  The user variant keeps such an event;
    the account variant drops it. *)
Theorem C3_account_deduplication_drops_events
    (messages : list THullAccountUpdateMessage) (o : THullAccountUpdateMessage) :
  In (Some o) (FilterUtil.deduplicateAccountUpdateMessages messages) ->
  let group := filter (fun m => aid m =? aid o) messages in
  In o group
  /\ (forall m, In m group ->
        Js.lt (indexed_at (account o)) (indexed_at (account m)) = false)
  /\ (forall eid,
        (forall m, In m group -> In eid (map event_id (account_events m)) ->
           exists m', In m' group
                      /\ Js.lt (indexed_at (account m)) (indexed_at (account m'))
                         = true) ->
        ~ In eid (map event_id (account_events o))).
Proof.
  intros Hout group.
  destruct (group_entries aid messages) as (_ & _ & Hent).
  unfold FilterUtil.deduplicateAccountUpdateMessages in Hout.
  apply in_map_iff in Hout. destruct Hout as (g & Hlast & Hg).
  apply values_In in Hg. destruct Hg as (k & Hg).
  assert (Hin : In (k, g) (Js.ownEntries (Lodash.groupBy aid messages)))
    by (apply (Permutation_in _ (Permutation_sym (ownEntries_perm _))); exact Hg).
  destruct (Hent k g Hin) as [Hmembers Hne].
  destruct (last_sortBy (fun m => indexed_at (account m)) g Hne)
    as (rep & Hrep & Hmember & Hmax).
  unfold FilterUtil.dedupeAccountGroup in Hlast.
  rewrite Hrep in Hlast. injection Hlast as ->.
  assert (Hk : aid o = k).
  { rewrite Hmembers in Hmember. apply filter_In in Hmember.
    destruct Hmember as [_ Hk]. now apply String.eqb_eq in Hk. }
  assert (Hgroup : g = group) by (unfold group; now rewrite Hk).
  rewrite Hgroup in *.
  split; [assumption|]. split; [assumption|].
  intros eid Holder Hcarried.
  destruct (Holder o Hmember Hcarried) as (m' & Hm' & Hlt).
  rewrite (Hmax m' Hm') in Hlt. discriminate.
Qed.

(** ** MappingUtil *)

(** C8. [normalizeUrl] never throws: it returns the hostname when the URL
    parser accepts the input and the input itself, unchanged, when the parser
    rejects it.  Both revisions of the utility agree. *)
Theorem C8_normalizeUrl_total (node : Node) (original : string) :
  (exists normalized,
     MappingUtil.normalizeUrl node original = Ok normalized
     /\ (forall closeUrl, URL_parse node original = Some closeUrl ->
                          normalized = hostname closeUrl)
     /\ (URL_parse node original = None -> normalized = original))
  /\ MappingUtilRev.normalizeUrl node original = MappingUtil.normalizeUrl node original.
Proof.
  split; [|reflexivity].
  unfold MappingUtil.normalizeUrl, URL_new.
  destruct (URL_parse node original) as [closeUrl |] eqn:E; cbn.
  - exists (hostname closeUrl). repeat split; congruence.
  - exists original. repeat split; congruence.
Qed.

(** *** The outbound rules leave the [id] of the payload alone *)

Lemma first_segment_not_id (name : option string) :
  startsWith name "emails" || startsWith name "phones" || startsWith name "urls"
    = true ->
  nth 0 (Js.split_dot (as_key name)) "" <> "id".
Proof.
  destruct name as [[|c s]|]; cbn [startsWith as_key String.prefix orb];
    try discriminate.
  intros H.
  assert (Hc : c = "e"%char \/ c = "p"%char \/ c = "u"%char).
  { revert H.
    destruct (ascii_dec "e" c) as [<- | _]; auto.
    destruct (ascii_dec "p" c) as [<- | _]; auto.
    destruct (ascii_dec "u" c) as [<- | _]; auto.
    discriminate. }
  destruct Hc as [-> | [-> | ->]]; cbn;
    destruct (Js.split_dot s); cbn; discriminate.
Qed.

Lemma customizedMapping_each_id (paths : LodashPaths) (hullObject svcObject : Js.props)
    (m : CioOutboundMapping) :
  closeio_field_name m <> Some "id" ->
  Js.get (customizedMapping_each paths hullObject svcObject m) "id"
  = Js.get svcObject "id".
Proof.
  intros Hid. unfold customizedMapping_each.
  destruct (Js.isNil _); cbn [negb]; [reflexivity|].
  destruct (startsWith _ "emails" || startsWith _ "phones" || startsWith _ "urls")
    eqn:Harr.
  - apply first_segment_not_id in Harr.
    rewrite get_set_other by assumption.
    destruct (Lodash.has paths svcObject _); cbn [negb]; [reflexivity|].
    now rewrite get_set_other.
  - apply get_set_other.
    destruct (closeio_field_name m) as [k|]; cbn; [congruence | discriminate].
Qed.

Lemma customizedMapping_id (paths : LodashPaths) (hullObject : Js.props)
    (mappings : list CioOutboundMapping) (svcObject : Js.props) :
  Forall (fun m => closeio_field_name m <> Some "id") mappings ->
  Js.get (fold_left (customizedMapping_each paths hullObject) mappings svcObject) "id"
  = Js.get svcObject "id".
Proof.
  intros Hall. revert svcObject.
  induction Hall as [|m rest Hm _ IH]; intros svcObject; cbn; [reflexivity|].
  rewrite IH. now apply customizedMapping_each_id.
Qed.

(** *** [applyMapping] returns on well-shaped records *)

Lemma applyMapping_each_returns (paths : LodashPaths) (this : Cio.MappingUtilSettings)
    (serviceObject hullAttrs : Js.props) (m : string) :
  CioRead_shaped serviceObject ->
  exists hullAttrs',
    MappingUtilRev.applyMapping_each paths this serviceObject hullAttrs m
    = Ok hullAttrs'.
Proof.
  intros (Hphones & Hemails & Hurls & Haddr).
  unfold MappingUtilRev.applyMapping_each.
  destruct ((m =? "phones") || (m =? "emails") || (m =? "urls")) eqn:Hmulti.
  - assert (Hlist : is_list (Js.get serviceObject m) = true).
    { apply orb_true_iff in Hmulti. destruct Hmulti as [Hmulti | Hu].
      - apply orb_true_iff in Hmulti. destruct Hmulti as [Hp | He].
        + apply String.eqb_eq in Hp. now subst.
        + apply String.eqb_eq in He. now subst.
      - apply String.eqb_eq in Hu. now subst. }
    destruct (Js.get serviceObject m); try discriminate; eauto.
  - destruct (m =? "status_id").
    { destruct (Js.get serviceObject "status_id"); eauto.
      destruct (find _ _); eauto. }
    destruct (String.eqb_spec m "addresses") as [-> | _].
    { destruct (Js.has serviceObject "addresses"); eauto.
      destruct (Js.get serviceObject "addresses") as [| | | | |[|[]]|];
        try discriminate; eauto. }
    destruct (m =? "opportunities"); eauto.
    destruct (Js.isNil _); cbn [negb]; eauto.
Qed.

Lemma applyMapping_returns (paths : LodashPaths) (this : Cio.MappingUtilSettings)
    (mapping : list string) (serviceObject : Js.props) :
  CioRead_shaped serviceObject ->
  exists hullAttrs,
    MappingUtilRev.applyMapping paths this mapping serviceObject = Ok hullAttrs.
Proof.
  intros Hshape. unfold MappingUtilRev.applyMapping.
  generalize (@nil (string * Js.value)) as start.
  induction mapping as [|m rest IH]; intros start; cbn; [eauto|].
  destruct (applyMapping_each_returns paths this serviceObject start m Hshape)
    as (next & ->).
  apply IH.
Qed.

(** C7 (amended). In mapping-util.js, [mapToServiceObject] throws the
    "no outbound fields" [LogicError], carrying the object type and the hull
    record, whenever the attribute mappings are [null] or missing, or the
    rule list of the object type is missing, empty, or holds only an empty
    rule object.  The later revision makes no such check: it drops the rules
    that lack a source or a target and, when none is left, answers what the
    default properties give. *)
Theorem C7_no_usable_outbound_rules
    (SM : SharedMessages) (paths : LodashPaths) (this : Cio.MappingUtilSettings)
    (objType : string) (hullObject : Js.props) :
  (Cio.attributeMappings this = IsNull
   \/ Cio.attributeMappings this = IsUndefined
   \/ (exists mappings,
         Cio.attributeMappings this = Defined mappings
         /\ (outbound_rules mappings objType = IsUndefined
             \/ outbound_rules mappings objType = Defined []
             \/ outbound_rules mappings objType =
                Defined [{| hull_field_name := None; closeio_field_name := None |}])) ->
   MappingUtil.mapToServiceObject SM paths this objType hullObject =
   Throw (LogicError (MAPPING_NOOUTBOUNDFIELDS SM)
                     "MappingUtil.mapToServiceObject" objType hullObject))
  /\
  (forall mappings,
     Cio.attributeMappings this = Defined mappings ->
     (forall rules, outbound_rules mappings objType = Defined rules ->
        Forall (fun entry => some_text (hull_field_name entry)
                             && some_text (closeio_field_name entry) = false)
               rules) ->
     MappingUtilRev.mapToServiceObject SM paths this objType hullObject =
     MappingUtilRev.defaultProperties SM this objType hullObject).
Proof.
  split.
  - unfold MappingUtil.mapToServiceObject, MappingUtil.configuredRules,
      MappingUtil.noOutboundFields.
    intros [-> | [-> | (mappings & -> & [-> | [-> | ->]])]]; reflexivity.
  - intros mappings Hm Hnone.
    unfold MappingUtilRev.mapToServiceObject, MappingUtilRev.usableRules.
    rewrite Hm.
    destruct (MappingUtilRev.defaultProperties SM this objType hullObject)
      as [svcObject | e |]; cbn [bind]; try reflexivity.
    assert (Hempty :
      filter (fun entry => some_text (hull_field_name entry)
                           && some_text (closeio_field_name entry))
             match outbound_rules mappings objType with
             | Defined rules => rules
             | _ => []
             end = []).
    { destruct (outbound_rules mappings objType) as [| | rules] eqn:E; auto.
      specialize (Hnone rules eq_refl). clear E.
      induction Hnone as [|entry rest He _ IH]; cbn; [reflexivity|].
      now rewrite He. }
    now rewrite Hempty.
Qed.

(** C9 (amended). The external id survives the round trip as long as no
    outbound rule is aimed at it.  Mapping a lead that carries an id inbound
    yields attributes whose ["closeio/id"] trait holds that id with the
    overwriting write policy; mapping an account that carries the id under
    ["closeio/id"] outbound as a ["Lead"] puts that id in the [id] of the
    default properties, and the payload returned still has it provided no
    outbound rule of leads names [id] as its target (none does, when the
    rules are chosen from the fields [getLeadFields] offers).  The lead is
    shaped as the service's records are and the attribute mappings are
    configured. *)
Theorem C9_external_id_round_trip
    (SM : SharedMessages) (paths : LodashPaths) (this : Cio.MappingUtilSettings)
    (mappings : CioAttributesMapping) (lead : Js.props) (leadId : Js.value) :
  Cio.attributeMappings this = Defined mappings ->
  CioRead_shaped lead ->
  Js.has lead "id" = true ->
  Js.get lead "id" = leadId ->
  Js.isNil leadId = false ->
  (exists hullAttributes,
     MappingUtilRev.mapLeadToHullAccountAttributes paths this lead
     = Ok hullAttributes
     /\ Js.get hullAttributes "closeio/id" = MappingUtilRev.trait leadId "set"
     /\ Js.member (Js.get hullAttributes "closeio/id") "value" = leadId)
  /\
  (forall hullAccount : Js.props,
     Js.get hullAccount "closeio/id" = leadId ->
     (exists svcObject,
        MappingUtilRev.defaultProperties SM this "Lead" hullAccount = Ok svcObject
        /\ Js.get svcObject "id" = leadId)
     /\
     ((forall rules, lead_attributes_outbound mappings = Defined rules ->
         Forall (fun m => closeio_field_name m <> Some "id") rules) ->
      exists cioLeadWrite,
        MappingUtilRev.mapToServiceObject SM paths this "Lead" hullAccount
        = Ok cioLeadWrite
        /\ Js.get cioLeadWrite "id" = leadId)).
Proof.
  intros Hm Hshape Hhas Hid Hnil. split.
  - unfold MappingUtilRev.mapLeadToHullAccountAttributes. rewrite Hm.
    destruct (applyMapping_returns paths this
                match lead_attributes_inbound mappings with
                | Defined l => l
                | _ => []
                end lead Hshape) as (hObject & ->).
    cbn [bind]. rewrite Hhas, Hid.
    eexists. split; [reflexivity|].
    assert (Hattr :
      Js.get
        (Js.set
           (Js.set
              match MappingUtilRev.mappedName
                      (Js.set hObject "closeio/id"
                              (MappingUtilRev.trait leadId "set")) with
              | Some name =>
                  Js.set (Js.set hObject "closeio/id"
                                 (MappingUtilRev.trait leadId "set"))
                         "name" (MappingUtilRev.trait (Js.str name) "setIfNull")
              | None => Js.set hObject "closeio/id"
                               (MappingUtilRev.trait leadId "set")
              end
              "closeio/created_at"
              (MappingUtilRev.trait (Js.get lead "date_created") "setIfNull"))
           "closeio/updated_at"
           (MappingUtilRev.trait (Js.get lead "date_updated") "set"))
        "closeio/id"
      = MappingUtilRev.trait leadId "set").
    { rewrite !get_set_other by discriminate.
      destruct (MappingUtilRev.mappedName _).
      - rewrite get_set_other by discriminate. apply get_set_same.
      - apply get_set_same. }
    split; [exact Hattr|]. now rewrite Hattr.
  - intros hullAccount Hacc.
    assert (Hdefault :
      MappingUtilRev.defaultProperties SM this "Lead" hullAccount =
      Ok (Js.set (Js.set (Js.set [] "name" (Js.get hullAccount "name"))
                         "url" (Js.get hullAccount "domain"))
                 "id" leadId)).
    { unfold MappingUtilRev.defaultProperties.
      cbn [String.eqb Ascii.eqb Bool.eqb]. now rewrite Hacc, Hnil. }
    split.
    + eexists. split; [exact Hdefault | apply get_set_same].
    + intros Hrules.
      unfold MappingUtilRev.mapToServiceObject, MappingUtilRev.usableRules.
      rewrite Hdefault, Hm. cbn [bind].
      eexists. split; [reflexivity|].
      rewrite customizedMapping_id; [apply get_set_same|].
      change (outbound_rules mappings "Lead")
        with (lead_attributes_outbound mappings).
      destruct (lead_attributes_outbound mappings) as [| | rules] eqn:E;
        try constructor.
      specialize (Hrules rules eq_refl).
      apply Forall_forall. intros m Hin. apply filter_In in Hin.
      rewrite Forall_forall in Hrules. now apply Hrules.
Qed.

(** Rules whose close.io field was chosen from the list the connector offers
    are not aimed at [id]. *)
Lemma offered_fields_spare_id (type : string)
    (customFields : list CioLeadCustomField) (rules : list CioOutboundMapping) :
  Forall (fun m => exists field, closeio_field_name m = Some field
                                 /\ In field (leadFieldValues type customFields))
         rules ->
  Forall (fun m => closeio_field_name m <> Some "id") rules.
Proof.
  apply Forall_impl. intros m (field & -> & Hin) [= ->].
  unfold leadFieldValues in Hin. apply in_app_or in Hin.
  destruct Hin as [Hdefault | Hcustom].
  - destruct (type =? "inbound"); cbn in Hdefault;
      repeat (destruct Hdefault as [Hdefault | Hdefault]; try discriminate);
      destruct Hdefault.
  - apply in_map_iff in Hcustom. destruct Hcustom as (f & Hf & _).
    discriminate.
Qed.

(** A rule list that is itself [null] does not reach the check on its
    emptiness in mapping-util.js: reading its length throws. *)
Example null_rule_list_throws_TypeError :
  MappingUtil.mapToServiceObject Sample.messages Sample.paths
    (Sample.settingsWith IsNull) "Lead" (attributes Sample.account0)
  = Throw (TypeError "Cannot read property 'length' of null").
Proof. reflexivity. Qed.

(** A rule aimed at [id] overwrites the external id the defaults put there:
    the account carries the id of its lead under ["closeio/id"], and the
    payload goes out with the account's [external_id] as its [id]. *)
Lemma C9_rule_aimed_at_id_overwrites :
  Js.get (attributes Sample.accountLinked) "closeio/id"
  = Js.str "lead_534219tidgshk452t38tajfk"
  /\ MappingUtilRev.mapToServiceObject Sample.messages Sample.paths
       (Sample.settingsWith
          (Defined [{| hull_field_name := Some "external_id";
                       closeio_field_name := Some "id" |}]))
       "Lead" (attributes Sample.accountLinked)
     = Ok [("name", Js.str "Hull Inc"); ("url", Js.str "hull.io");
           ("id", Js.str "hull-1234")].
Proof. split; reflexivity. Qed.

(** ** The statements at the sample data *)



Lemma C4_resolved_identity_is_update_witness :
  (let e := Sample.accountEnvelope Sample.accountLinked in
   let r := FilterUtil.filterAccounts Sample.messages Sample.configLinked
              Sample.accountBatch in
   In (FilterUtil.a_write_id e (Js.str "lead_534219tidgshk452t38tajfk")) (toUpdate r)
   /\ toInsert r = [])
  /\
  (let e := Sample.accountEnvelope Sample.account0 in
   let r := FilterUtil.filterAccounts Sample.messages Sample.configLinked
              Sample.accountBatch in
   In (FilterUtil.a_write_id e (Js.str "lead_cached0000000000000000")) (toUpdate r))
  /\
  (let e := Sample.userEnvelope Sample.userLinked Sample.account0
              (Some "lead_534219tidgshk452t38tajfk") in
   let r := FilterUtil.filterUsers Sample.messages Sample.config Sample.userBatch in
   In (FilterUtil.u_write_id e (Js.str "cont_y29g2ohnb3u35hy")) (toUpdate r)
   /\ toInsert r = []).
Proof.
  destruct (C4_resolved_identity_is_update Sample.messages Sample.configLinked)
    as [Haccounts _].
  destruct (C4_resolved_identity_is_update Sample.messages Sample.config)
    as [_ Husers].
  split; [|split].
  - destruct (Haccounts Sample.accountBatch
                (Sample.accountEnvelope Sample.accountLinked))
      as (Hin & _ & _ & _ & Hins & _);
      [right; left; reflexivity | reflexivity | left; reflexivity |].
    split; [exact Hin | exact Hins].
  - destruct (Haccounts Sample.accountBatch
                (Sample.accountEnvelope Sample.account0))
      as (Hin & _);
      [left; reflexivity | reflexivity | right; reflexivity |].
    exact Hin.
  - destruct (Husers Sample.userBatch
                (Sample.userEnvelope Sample.userLinked Sample.account0
                   (Some "lead_534219tidgshk452t38tajfk")))
      as (Hin & _ & _ & _ & Hins & _);
      [right; left; reflexivity | reflexivity | left; reflexivity |].
    split; [exact Hin | exact Hins].
Defined.

Lemma C5_segment_gate_fails_closed_witness :
  FilterUtil.matchesSynchronizedAccountSegments Sample.configNoMatch
    (Sample.accountEnvelope Sample.accountLinked) "message.account_segments" = false
  /\ (let e := Sample.accountEnvelope Sample.accountLinked in
      let r := FilterUtil.filterAccounts Sample.messages Sample.configNoMatch
                 Sample.accountBatch in
      In (FilterUtil.a_skip e "Account is not in a synchronized segment.") (toSkip r))
  /\ (let e := Sample.userEnvelope Sample.userLinked Sample.account0
                 (Some "lead_534219tidgshk452t38tajfk") in
      let r := FilterUtil.filterUsers Sample.messages Sample.configNoMatch
                 Sample.userBatch in
      In (FilterUtil.u_skip e
            "User is linked to an account which is not in a synchronized segment.")
         (toSkip r)).
Proof.
  destruct (C5_segment_gate_fails_closed Sample.messages Sample.configNoMatch)
    as (Hgate & Haccounts & Husers).
  split; [reflexivity|]. split.
  - destruct (Haccounts Sample.accountBatch
                (Sample.accountEnvelope Sample.accountLinked)) as [Hin _];
      [right; left; reflexivity | | exact Hin].
    intros x [<- | []] [Habs | []]. discriminate.
  - destruct (Husers Sample.userBatch
                (Sample.userEnvelope Sample.userLinked Sample.account0
                   (Some "lead_534219tidgshk452t38tajfk"))) as [Hin _];
      [right; left; reflexivity | | exact Hin].
    intros x [<- | []] [Habs | []]. discriminate.
Defined.

Lemma C1_unresolved_identity_is_skipped_witness :
  (let r := FilterUtil.filterAccounts Sample.messages Sample.config
              [Sample.accountEnvelope Sample.account0] in
   In (FilterUtil.a_skip (Sample.accountEnvelope Sample.account0)
         "Account does not exist in close.io.") (toSkip r)
   /\ toInsert r = [])
  /\
  (let e := Sample.userEnvelope Sample.user0 Sample.account0
              (Some "lead_534219tidgshk452t38tajfk") in
   let r := FilterUtil.filterUsers Sample.messages Sample.config [e] in
   In (FilterUtil.u_skip e "User does not exist in close.io.") (toSkip r)
   /\ toInsert r = []).
Proof.
  destruct (C1_unresolved_identity_is_skipped Sample.messages Sample.config)
    as [Haccounts Husers].
  split.
  - apply (Haccounts [Sample.accountEnvelope Sample.account0]
             (Sample.accountEnvelope Sample.account0));
      [left; reflexivity | reflexivity | reflexivity | reflexivity].
  - apply (Husers [Sample.userEnvelope Sample.user0 Sample.account0
                     (Some "lead_534219tidgshk452t38tajfk")]
             (Sample.userEnvelope Sample.user0 Sample.account0
                (Some "lead_534219tidgshk452t38tajfk")));
      [left; reflexivity | reflexivity | reflexivity | reflexivity].
Defined.

Lemma C6_unlinked_user_skip_reason_witness :
  let e := Sample.userEnvelope Sample.user0 Sample.account0 None in
  let r := FilterUtil.filterUsers Sample.messages Sample.config [e] in
  In (FilterUtil.u_skip e "User does not exist in close.io.") (toSkip r)
  /\ toInsert r = []
  /\ (forall e', In e' (toSkip r ++ toUpdate r ++ toInsert r) ->
                 u_key e' = u_key e ->
                 u_skipReason e' <> Some "User is not linked to an account.").
Proof.
  intros e r.
  destruct (C6_unlinked_user_skip_reason Sample.messages Sample.config [e] e)
    as (Hin & Hins & _ & Hreason);
    [left; reflexivity | reflexivity | reflexivity | reflexivity
     | reflexivity | reflexivity |].
  split; [exact Hin|]. split; [exact Hins|].
  apply Hreason. discriminate.
Defined.

Lemma C3_account_deduplication_drops_events_witness :
  FilterUtil.deduplicateAccountUpdateMessages
    [Sample.accountOlder; Sample.accountYounger] = [Some Sample.accountYounger]
  /\ In "evt-1"
        (map event_id
             (flat_map account_events [Sample.accountOlder; Sample.accountYounger]))
  /\ ~ In "evt-1" (map event_id (account_events Sample.accountYounger)).
Proof.
  split; [reflexivity|]. split; [left; reflexivity|].
  apply (C3_account_deduplication_drops_events
           [Sample.accountOlder; Sample.accountYounger] Sample.accountYounger).
  - left. reflexivity.
  - intros m [<- | [<- | []]] Hcarried.
    + exists Sample.accountYounger. split; [right; left; reflexivity | reflexivity].
    + destruct Hcarried.
Defined.

(** The later revision of [mapToServiceObject] answers a payload made of the
    default fields when no outbound rule is configured. *)
Lemma C7_later_revision_returns_defaults :
  MappingUtilRev.mapToServiceObject Sample.messages Sample.paths
    (Sample.settingsWith (Defined [])) "Lead" (attributes Sample.account0)
  = Ok [("name", Js.str "Hull Inc"); ("url", Js.str "hull.io")]
  /\ forall e,
       MappingUtilRev.mapToServiceObject Sample.messages Sample.paths
         (Sample.settingsWith (Defined [])) "Lead" (attributes Sample.account0)
       <> Throw e.
Proof. split; [reflexivity | discriminate]. Qed.

Lemma C7_no_usable_outbound_rules_witness :
  MappingUtil.mapToServiceObject Sample.messages Sample.paths
    (Sample.settingsWith (Defined [Sample.emptyRule])) "Lead"
    (attributes Sample.account0)
  = Throw (LogicError "No outbound fields are configured."
                      "MappingUtil.mapToServiceObject" "Lead"
                      (attributes Sample.account0))
  /\ MappingUtilRev.mapToServiceObject Sample.messages Sample.paths
       (Sample.settingsWith (Defined [Sample.emptyRule])) "Lead"
       (attributes Sample.account0)
     = MappingUtilRev.defaultProperties Sample.messages
         (Sample.settingsWith (Defined [Sample.emptyRule])) "Lead"
         (attributes Sample.account0).
Proof.
  destruct (C7_no_usable_outbound_rules Sample.messages Sample.paths
              (Sample.settingsWith (Defined [Sample.emptyRule])) "Lead"
              (attributes Sample.account0)) as [Hguard Hrev].
  split.
  - apply Hguard. right. right. eexists. split; [reflexivity|].
    right. right. reflexivity.
  - eapply Hrev; [reflexivity|].
    intros rules [= <-]. repeat constructor.
Defined.

Lemma C8_normalizeUrl_total_witness :
  MappingUtil.normalizeUrl Sample.node "https://www.hull.io/about" = Ok "www.hull.io"
  /\ MappingUtil.normalizeUrl Sample.node "hull.io" = Ok "hull.io".
Proof.
  split.
  - destruct (C8_normalizeUrl_total Sample.node "https://www.hull.io/about")
      as [(normalized & -> & Hparsed & _) _].
    f_equal. apply (Hparsed {| hostname := "www.hull.io" |}). reflexivity.
  - destruct (C8_normalizeUrl_total Sample.node "hull.io")
      as [(normalized & -> & _ & Hrejected) _].
    f_equal. apply Hrejected. reflexivity.
Defined.

Lemma C9_external_id_round_trip_witness :
  (exists hullAttributes,
     MappingUtilRev.mapLeadToHullAccountAttributes Sample.paths
       (Sample.settingsWith (Defined [Sample.nameRule])) Sample.lead
     = Ok hullAttributes
     /\ Js.member (Js.get hullAttributes "closeio/id") "value"
        = Js.str "lead_534219tidgshk452t38tajfk")
  /\ (exists cioLeadWrite,
        MappingUtilRev.mapToServiceObject Sample.messages Sample.paths
          (Sample.settingsWith (Defined [Sample.nameRule])) "Lead"
          (attributes Sample.accountLinked) = Ok cioLeadWrite
        /\ Js.get cioLeadWrite "id" = Js.str "lead_534219tidgshk452t38tajfk").
Proof.
  destruct (C9_external_id_round_trip Sample.messages Sample.paths
              (Sample.settingsWith (Defined [Sample.nameRule]))
              {| lead_attributes_outbound := Defined [Sample.nameRule];
                 lead_attributes_inbound := Defined ["name"; "url"; "addresses"];
                 contact_attributes_outbound := Defined [];
                 contact_attributes_inbound := Defined ["name"; "emails"] |}
              Sample.lead (Js.str "lead_534219tidgshk452t38tajfk"))
    as [(hullAttributes & Hin & _ & Hvalue) Hout];
    [reflexivity | repeat split | reflexivity | reflexivity | reflexivity |].
  split.
  - exists hullAttributes. split; [exact Hin | exact Hvalue].
  - destruct (Hout (attributes Sample.accountLinked) eq_refl) as [_ Hpayload].
    apply Hpayload.
    intros rules [= <-]. repeat constructor. discriminate.
Defined.

(* ================================================================== *)
(** * Further properties of the utilities *)

(** ** FilterUtil *)

Lemma assign_assign_same {V : Type} (o : Js.dict V) (k : string) (v w : V) :
  Js.assign (Js.assign o k v) k w = Js.assign o k w.
Proof.
  induction o as [|[k' v'] rest IH]; cbn.
  - now rewrite String.eqb_refl.
  - destruct (k' =? k) eqn:E; cbn; rewrite E; [reflexivity | now rewrite IH].
Qed.

Lemma gate_without_segments (this : FilterUtilConfiguration)
    (E : Type) (SE : SegmentedEnvelope E) (e : E) (name : string) :
  synchronizedAccountSegments this = [] ->
  FilterUtil.matchesSynchronizedAccountSegments this e name = false.
Proof.
  intros Hnone. unfold FilterUtil.matchesSynchronizedAccountSegments.
  now rewrite Hnone, intersection_nil_r.
Qed.

Lemma filter_all {A : Type} (p : A -> bool) (l : list A) :
  (forall x, In x l -> p x = true) -> filter p l = l.
Proof.
  induction l as [|x rest IH]; cbn; intros H; [reflexivity|].
  rewrite (H x) by now left. f_equal. apply IH. intros y Hy. apply H. now right.
Qed.

Lemma filter_none {A : Type} (p : A -> bool) (l : list A) :
  (forall x, In x l -> p x = false) -> filter p l = [].
Proof.
  induction l as [|x rest IH]; cbn; intros H; [reflexivity|].
  rewrite (H x) by now left. apply IH. intros y Hy. apply H. now right.
Qed.

(** X1. A filter util constructed from a configuration that names no
    synchronized account segment, or an empty list of them, lets nothing
    through: of every batch, every envelope is skipped with the
    segment-mismatch wording, in the order of the batch, and nothing is
    updated or inserted. *)
Theorem X1_constructor_without_segments_skips_all
    (SM : SharedMessages) (config : FilterUtilConfig) :
  config_synchronizedAccountSegments config = None
    \/ config_synchronizedAccountSegments config = Some [] ->
  let this := FilterUtil_constructor config in
  (forall envelopes : list AccountUpdateEnvelope,
     let r := FilterUtil.filterAccounts SM this envelopes in
     toSkip r = map (fun e => FilterUtil.a_skip e
                                (OPERATION_SKIP_NOMATCHACCOUNTSEGMENTS SM))
                    envelopes
     /\ toUpdate r = [] /\ toInsert r = [])
  /\
  (forall envelopes : list UserUpdateEnvelope,
     let r := FilterUtil.filterUsers SM this envelopes in
     toSkip r = map (fun e => FilterUtil.u_skip e
                                (OPERATION_SKIP_NOMATCHACCOUNTSEGMENTSUSER SM))
                    envelopes
     /\ toUpdate r = [] /\ toInsert r = []).
Proof.
  intros Hnone this.
  assert (Hempty : synchronizedAccountSegments this = []).
  { unfold this, FilterUtil_constructor. cbn.
    now destruct Hnone as [-> | ->]. }
  split; intros envelopes r.
  - destruct (filterAccounts_lists SM this envelopes) as (Hs & Hu & Hi).
    fold r in Hs, Hu, Hi. rewrite Hs, Hu, Hi.
    rewrite filter_all, filter_none;
      try (intros e _; now rewrite gate_without_segments).
    repeat split. apply map_ext. intros e.
    now rewrite gate_without_segments.
  - destruct (filterUsers_lists SM this envelopes) as (Hs & Hu & Hi).
    fold r in Hs, Hu, Hi. rewrite Hs, Hu, Hi.
    rewrite filter_all, filter_none;
      try (intros e _; now rewrite gate_without_segments).
    repeat split. apply map_ext. intros e.
    now rewrite gate_without_segments.
Qed.

(** X2. The class of an envelope does not depend on the rest of its batch:
    filtering two batches in a row gives, list by list, what filtering each
    of them gives, the first batch first. *)
Theorem X2_filters_classify_each_envelope_alone
    (SM : SharedMessages) (this : FilterUtilConfiguration) :
  (forall first second : list AccountUpdateEnvelope,
     let r := FilterUtil.filterAccounts SM this (first ++ second) in
     let r1 := FilterUtil.filterAccounts SM this first in
     let r2 := FilterUtil.filterAccounts SM this second in
     toSkip r = toSkip r1 ++ toSkip r2
     /\ toUpdate r = toUpdate r1 ++ toUpdate r2
     /\ toInsert r = toInsert r1 ++ toInsert r2)
  /\
  (forall first second : list UserUpdateEnvelope,
     let r := FilterUtil.filterUsers SM this (first ++ second) in
     let r1 := FilterUtil.filterUsers SM this first in
     let r2 := FilterUtil.filterUsers SM this second in
     toSkip r = toSkip r1 ++ toSkip r2
     /\ toUpdate r = toUpdate r1 ++ toUpdate r2
     /\ toInsert r = toInsert r1 ++ toInsert r2).
Proof.
  split; intros l1 l2 r r1 r2; subst r r1 r2.
  - destruct (filterAccounts_lists SM this (l1 ++ l2)) as (-> & -> & ->).
    destruct (filterAccounts_lists SM this l1) as (-> & -> & ->).
    destruct (filterAccounts_lists SM this l2) as (-> & -> & ->).
    now rewrite !filter_app, !map_app.
  - destruct (filterUsers_lists SM this (l1 ++ l2)) as (-> & -> & ->).
    destruct (filterUsers_lists SM this l1) as (-> & -> & ->).
    destruct (filterUsers_lists SM this l2) as (-> & -> & ->).
    now rewrite !filter_app, !map_app.
Qed.

Lemma map_fixed {A : Type} (f : A -> A) (l : list A) :
  (forall x, In x l -> f x = x) -> map f l = l.
Proof.
  intros H. rewrite <- (map_id l) at 2. now apply map_ext_in.
Qed.

Lemma FilterResults_eta {E : Type} (r : FilterResults E) :
  r = {| toSkip := toSkip r; toInsert := toInsert r; toUpdate := toUpdate r |}.
Proof. now destruct r. Qed.

Section Resubmission.

Variable SM : SharedMessages.
Variable this : FilterUtilConfiguration.

Lemma filterAccounts_all_update (l : list AccountUpdateEnvelope) :
  (forall e, In e l ->
     gate this e && account_resolves this e = true
     /\ FilterUtil.a_write_id e (Js.or (account_explicit e) (account_cached this e))
        = e) ->
  FilterUtil.filterAccounts SM this l
  = {| toSkip := []; toInsert := []; toUpdate := l |}.
Proof.
  intros H. rewrite (FilterResults_eta (FilterUtil.filterAccounts SM this l)).
  destruct (filterAccounts_lists SM this l) as (-> & -> & ->).
  rewrite (filter_none _ l), (filter_all _ l).
  - f_equal. apply map_fixed. intros e He. now apply H.
  - intros e He. now apply H.
  - intros e He. destruct (H e He) as [-> _]. reflexivity.
Qed.

Lemma filterAccounts_all_skip (l : list AccountUpdateEnvelope) :
  (forall e, In e l ->
     gate this e && account_resolves this e = false
     /\ FilterUtil.a_skip e
          (if gate this e
           then OPERATION_SKIP_ACCOUNTDOESNTEXISTINCLOSEIO SM
           else OPERATION_SKIP_NOMATCHACCOUNTSEGMENTS SM) = e) ->
  FilterUtil.filterAccounts SM this l
  = {| toSkip := l; toInsert := []; toUpdate := [] |}.
Proof.
  intros H. rewrite (FilterResults_eta (FilterUtil.filterAccounts SM this l)).
  destruct (filterAccounts_lists SM this l) as (-> & -> & ->).
  rewrite (filter_all _ l), (filter_none _ l).
  - f_equal. apply map_fixed. intros e He. now apply H.
  - intros e He. now apply H.
  - intros e He. destruct (H e He) as [-> _]. reflexivity.
Qed.

Lemma filterUsers_all_update (l : list UserUpdateEnvelope) :
  (forall e, In e l ->
     gate this e && user_resolves this e = true
     /\ FilterUtil.u_write_id e (Js.or (user_explicit e) (user_cached this e))
        = e) ->
  FilterUtil.filterUsers SM this l
  = {| toSkip := []; toInsert := []; toUpdate := l |}.
Proof.
  intros H. rewrite (FilterResults_eta (FilterUtil.filterUsers SM this l)).
  destruct (filterUsers_lists SM this l) as (-> & -> & ->).
  rewrite (filter_none _ l), (filter_all _ l).
  - f_equal. apply map_fixed. intros e He. now apply H.
  - intros e He. now apply H.
  - intros e He. destruct (H e He) as [-> _]. reflexivity.
Qed.

Lemma filterUsers_all_skip (l : list UserUpdateEnvelope) :
  (forall e, In e l ->
     gate this e && user_resolves this e = false
     /\ FilterUtil.u_skip e
          (if gate this e
           then OPERATION_SKIP_USERDOESNTEXISTINCLOSEIO SM
           else OPERATION_SKIP_NOMATCHACCOUNTSEGMENTSUSER SM) = e) ->
  FilterUtil.filterUsers SM this l
  = {| toSkip := l; toInsert := []; toUpdate := [] |}.
Proof.
  intros H. rewrite (FilterResults_eta (FilterUtil.filterUsers SM this l)).
  destruct (filterUsers_lists SM this l) as (-> & -> & ->).
  rewrite (filter_all _ l), (filter_none _ l).
  - f_equal. apply map_fixed. intros e He. now apply H.
  - intros e He. now apply H.
  - intros e He. destruct (H e He) as [-> _]. reflexivity.
Qed.

End Resubmission.

(** X3. Classification is stable when its result is submitted again: filtering
    the envelopes a filter chose for update chooses all of them for update
    once more and leaves them as they are, and filtering the envelopes it
    skipped skips all of them again, with the reason they carry. *)
Theorem X3_filters_stable_on_resubmission
    (SM : SharedMessages) (this : FilterUtilConfiguration) :
  (forall envelopes : list AccountUpdateEnvelope,
     let r := FilterUtil.filterAccounts SM this envelopes in
     FilterUtil.filterAccounts SM this (toUpdate r)
       = {| toSkip := []; toInsert := []; toUpdate := toUpdate r |}
     /\ FilterUtil.filterAccounts SM this (toSkip r)
       = {| toSkip := toSkip r; toInsert := []; toUpdate := [] |})
  /\
  (forall envelopes : list UserUpdateEnvelope,
     let r := FilterUtil.filterUsers SM this envelopes in
     FilterUtil.filterUsers SM this (toUpdate r)
       = {| toSkip := []; toInsert := []; toUpdate := toUpdate r |}
     /\ FilterUtil.filterUsers SM this (toSkip r)
       = {| toSkip := toSkip r; toInsert := []; toUpdate := [] |}).
Proof.
  split; intros envelopes r; subst r.
  - destruct (filterAccounts_lists SM this envelopes) as (-> & -> & _).
    split.
    + apply filterAccounts_all_update. intros e' He'.
      apply in_map_iff in He'. destruct He' as (e & <- & He).
      apply filter_In in He. destruct He as [_ He].
      destruct (a_key_decides this e
                  (FilterUtil.a_write_id e
                     (Js.or (account_explicit e) (account_cached this e)))
                  eq_refl) as [-> ->].
      split; [exact He|].
      unfold FilterUtil.a_write_id. cbn. unfold Js.set.
      now rewrite assign_assign_same.
    + apply filterAccounts_all_skip. intros e' He'.
      apply in_map_iff in He'. destruct He' as (e & <- & He).
      apply filter_In in He. destruct He as [_ He].
      apply negb_true_iff in He.
      match goal with
      | |- context [FilterUtil.a_skip e ?m] =>
          destruct (a_key_decides this e (FilterUtil.a_skip e m) eq_refl)
            as [-> ->]
      end.
      split; [exact He | reflexivity].
  - destruct (filterUsers_lists SM this envelopes) as (-> & -> & _).
    split.
    + apply filterUsers_all_update. intros e' He'.
      apply in_map_iff in He'. destruct He' as (e & <- & He).
      apply filter_In in He. destruct He as [_ He].
      destruct (u_key_decides this e
                  (FilterUtil.u_write_id e
                     (Js.or (user_explicit e) (user_cached this e)))
                  eq_refl) as [-> ->].
      split; [exact He|].
      unfold FilterUtil.u_write_id. cbn. unfold Js.set.
      now rewrite assign_assign_same.
    + apply filterUsers_all_skip. intros e' He'.
      apply in_map_iff in He'. destruct He' as (e & <- & He).
      apply filter_In in He. destruct He as [_ He].
      apply negb_true_iff in He.
      match goal with
      | |- context [FilterUtil.u_skip e ?m] =>
          destruct (u_key_decides this e (FilterUtil.u_skip e m) eq_refl)
            as [-> ->]
      end.
      split; [exact He | reflexivity].
Qed.

Lemma truthy_not_nil (v : Js.value) : Js.truthy v = true -> Js.isNil v = false.
Proof. now destruct v. Qed.

(** X4. What a filter writes to the [id] of an envelope it chooses for update is
    [explicit || cached].  It is a usable id whenever the snapshot holds a
    truthy id or the cache holds any value; it is nil in one case only: the
    snapshot has the key of the external id with a falsy value behind it and
    the cache holds nothing for the entity. *)
Theorem X4_update_carries_no_id_only_for_blank_key
    (SM : SharedMessages) (this : FilterUtilConfiguration) :
  (forall (envelopes : list AccountUpdateEnvelope) (e' : AccountUpdateEnvelope),
     In e' (toUpdate (FilterUtil.filterAccounts SM this envelopes)) ->
     let written := Js.get (cioLeadWrite e') "id" in
     written = Js.or (account_explicit e') (account_cached this e')
     /\ (Js.truthy (account_explicit e') = true
           \/ Js.isNil (account_cached this e') = false ->
         Js.isNil written = false)
     /\ (Js.isNil written = true ->
         Js.has (attributes (hullAccount e')) "closeio/id" = true
         /\ Js.truthy (account_explicit e') = false
         /\ Js.isNil (account_cached this e') = true))
  /\
  (forall (envelopes : list UserUpdateEnvelope) (e' : UserUpdateEnvelope),
     In e' (toUpdate (FilterUtil.filterUsers SM this envelopes)) ->
     let written := Js.get (cioContactWrite e') "id" in
     written = Js.or (user_explicit e') (user_cached this e')
     /\ (Js.truthy (user_explicit e') = true
           \/ Js.isNil (user_cached this e') = false ->
         Js.isNil written = false)
     /\ (Js.isNil written = true ->
         Js.has (attributes (hullUser e')) "traits_closeio/id" = true
         /\ Js.truthy (user_explicit e') = false
         /\ Js.isNil (user_cached this e') = true)).
Proof.
  split; intros envelopes e' Hin written.
  - destruct (filterAccounts_lists SM this envelopes) as (_ & Hu & _).
    rewrite Hu in Hin. apply in_map_iff in Hin. destruct Hin as (e & <- & He).
    apply filter_In in He. destruct He as [_ He].
    apply andb_true_iff in He. destruct He as [_ Hres].
    subst written. cbn [FilterUtil.a_write_id cioLeadWrite hullAccount].
    rewrite get_set_same.
    split; [reflexivity|].
    destruct (Js.truthy (account_explicit e)) eqn:T.
    + rewrite (or_truthy _ _ T). split.
      * intros _. now apply truthy_not_nil.
      * intros Hnil. now rewrite (truthy_not_nil _ T) in Hnil.
    + rewrite (or_falsy _ _ T). split.
      * intros [Habs | Hc]; [discriminate | exact Hc].
      * intros Hnil. rewrite Hnil in Hres. cbn in Hres.
        rewrite orb_false_r in Hres. auto.
  - destruct (filterUsers_lists SM this envelopes) as (_ & Hu & _).
    rewrite Hu in Hin. apply in_map_iff in Hin. destruct Hin as (e & <- & He).
    apply filter_In in He. destruct He as [_ He].
    apply andb_true_iff in He. destruct He as [_ Hres].
    subst written. cbn [FilterUtil.u_write_id cioContactWrite hullUser].
    rewrite get_set_same.
    split; [reflexivity|].
    destruct (Js.truthy (user_explicit e)) eqn:T.
    + rewrite (or_truthy _ _ T). split.
      * intros _. now apply truthy_not_nil.
      * intros Hnil. now rewrite (truthy_not_nil _ T) in Hnil.
    + rewrite (or_falsy _ _ T). split.
      * intros [Habs | Hc]; [discriminate | exact Hc].
      * intros Hnil. rewrite Hnil in Hres. cbn in Hres.
        rewrite orb_false_r in Hres. auto.
Qed.

Lemma X4_update_carries_no_id_only_for_blank_key_witness :
  let e' := FilterUtil.a_write_id (Sample.accountEnvelope Fixtures.accountBlank)
              Js.undefined in
  In e' (toUpdate (FilterUtil.filterAccounts Sample.messages Sample.config
                     [Sample.accountEnvelope Fixtures.accountBlank]))
  /\ Js.get (cioLeadWrite e') "id" = Js.undefined
  /\ Js.has (attributes (hullAccount e')) "closeio/id" = true.
Proof.
  intros e'.
  assert (Hin : In e' (toUpdate (FilterUtil.filterAccounts Sample.messages
                                   Sample.config
                                   [Sample.accountEnvelope Fixtures.accountBlank])))
    by (left; reflexivity).
  split; [exact Hin|].
  destruct (proj1 (X4_update_carries_no_id_only_for_blank_key Sample.messages
                     Sample.config)
              [Sample.accountEnvelope Fixtures.accountBlank] e' Hin)
    as (Hw & _ & Hblank).
  split; [exact Hw|].
  apply Hblank. reflexivity.
Defined.

(** ** Deduplication: equal timestamps *)

Section TieBreak.

Context {A : Type}.
Variable key : A -> string.

Lemma last_sort_insert (y z : A) (s : list A) :
  Lodash.last s = Some z ->
  Js.lt (key z) (key y) = false ->
  Lodash.last (Lodash.sort_insert key y s) = Some z.
Proof.
  intros Hlast Hle. induction s as [|a rest IH]; [discriminate|].
  cbn [Lodash.sort_insert].
  destruct (Js.lt (key a) (key y)) eqn:E.
  - destruct rest as [|b rest'].
    + cbn in Hlast. injection Hlast as ->. congruence.
    + specialize (IH Hlast).
      change (Lodash.last (a :: Lodash.sort_insert key y (b :: rest')))
        with (match Lodash.sort_insert key y (b :: rest') with
              | [] => Some a
              | _ :: _ => Lodash.last (Lodash.sort_insert key y (b :: rest'))
              end).
      destruct (Lodash.sort_insert key y (b :: rest')); [discriminate | exact IH].
  - exact Hlast.
Qed.

(** [_.sortBy] is stable and [_.last] takes the end: an element that stands
    last and that no other element exceeds is the one chosen. *)
Lemma last_sortBy_snoc (l : list A) (z : A) :
  (forall y, In y l -> Js.lt (key z) (key y) = false) ->
  Lodash.last (Lodash.sortBy key (l ++ [z])) = Some z.
Proof.
  intros H. unfold Lodash.sortBy. rewrite fold_right_app. cbn [fold_right].
  induction l as [|y rest IH]; [reflexivity|].
  cbn [fold_right]. apply last_sort_insert.
  - apply IH. intros x Hx. apply H. now right.
  - apply H. now left.
Qed.

Lemma members_last (before after : list A) (z : A) :
  (forall m, In m after -> key m <> key z) ->
  filter (fun m => key m =? key z) (before ++ z :: after)
  = filter (fun m => key m =? key z) before ++ [z].
Proof.
  intros Hafter. rewrite filter_app. cbn [filter]. rewrite String.eqb_refl.
  rewrite (filter_none _ after); [reflexivity|].
  intros m Hm. apply String.eqb_neq. now apply Hafter.
Qed.

End TieBreak.

Lemma Forall2_In_l {A B : Type} (P : A -> B -> Prop) (l : list A) (ys : list B) :
  Forall2 P l ys -> forall x, In x l -> exists y, In y ys /\ P x y.
Proof.
  induction 1 as [|x y l ys Pxy _ IH]; intros z Hz; [destruct Hz|].
  destruct Hz as [<- | Hz].
  - exists y. split; [now left | assumption].
  - destruct (IH z Hz) as (y' & Hy' & Py'). exists y'. split; [now right | assumption].
Qed.

(** X5. Among the messages of one entity, the one received last is the one kept
    whenever no other message of the entity has a later [indexed_at]: with
    equal timestamps the last message wins.  For an account the output is
    that message.  For a user it is that message with the merged events in
    place of its own: the values of the hash that the events of all the
    entity's messages were written to, in the order of the batch.  When the
    event ids are keys lodash writes as one own property, these are the
    event ids of the entity's messages, each once, each with the last event
    written under it. *)
Theorem X5_deduplication_keeps_last_received_of_latest (paths : LodashPaths) :
  (forall (before after : list THullAccountUpdateMessage)
          (z : THullAccountUpdateMessage),
     (forall m, In m after -> aid m <> aid z) ->
     (forall m, In m before -> aid m = aid z ->
        Js.lt (indexed_at (account z)) (indexed_at (account m)) = false) ->
     In (Some z) (FilterUtil.deduplicateAccountUpdateMessages (before ++ z :: after)))
  /\
  (forall (before after : list THullUserUpdateMessage)
          (z : THullUserUpdateMessage),
     (forall m, In m after -> uid m <> uid z) ->
     (forall m, In m before -> uid m = uid z ->
        Js.lt (indexed_at (user z)) (indexed_at (user m)) = false) ->
     let group := filter (fun m => uid m =? uid z) (before ++ z :: after) in
     exists out events,
       FilterUtil.deduplicateUserUpdateMessages paths (before ++ z :: after) = Ok out
       /\ In (FilterUtil.u_set_events z events) out
       /\ events
          = Lodash.values
              (fold_left (fun h e => Lodash.set paths h (event_id e) e)
                         (flat_map user_events group) [])
       /\ ((forall m e, In m group -> In e (user_events m) ->
                        Lodash.own_key (event_id e) = true) ->
           NoDup (map event_id events)
           /\ (forall eid, In eid (map event_id events) <->
                           In eid (map event_id (flat_map user_events group)))
           /\ (forall e, In e events <->
                         find (fun e' => event_id e' =? event_id e)
                              (rev (flat_map user_events group)) = Some e))).
Proof.
  split.
  - intros before after z Hafter Hlatest.
    unfold FilterUtil.deduplicateAccountUpdateMessages.
    apply in_map_iff.
    exists (filter (fun m => aid m =? aid z) (before ++ z :: after)). split.
    + unfold FilterUtil.dedupeAccountGroup.
      rewrite (members_last aid) by assumption.
      apply last_sortBy_snoc. intros y Hy. apply filter_In in Hy.
      destruct Hy as [Hy Hk]. apply String.eqb_eq in Hk. now apply Hlatest.
    + apply values_In. exists (aid z). apply groupBy_In. split; [reflexivity|].
      rewrite (members_last aid) by assumption. now destruct (filter _ before).
  - intros before after z Hafter Hlatest group.
    unfold FilterUtil.deduplicateUserUpdateMessages.
    set (groups := Lodash.values (Lodash.groupBy uid (before ++ z :: after))).
    pose (P := fun (g : list THullUserUpdateMessage) (o : THullUserUpdateMessage) =>
                 forall rep, Lodash.last (Lodash.sortBy
                                            (fun m => indexed_at (user m)) g) = Some rep ->
                   o = FilterUtil.u_set_events rep
                         (Lodash.values
                            (fold_left
                               (fun h e => Lodash.set paths h (event_id e) e)
                               (flat_map user_events g) []))).
    destruct (mapM_Forall2 (FilterUtil.dedupeUserGroup paths) P groups)
      as (out & Hout & Hall).
    { intros g Hg. apply values_In in Hg. destruct Hg as (k & Hg).
      apply groupBy_In in Hg. destruct Hg as [_ Hne].
      destruct (last_sortBy (fun m => indexed_at (user m)) g Hne)
        as (rep & Hlast & _).
      unfold FilterUtil.dedupeUserGroup. rewrite Hlast.
      eexists. split; [reflexivity|].
      intros rep' Hrep'. rewrite Hlast in Hrep'. injection Hrep' as <-.
      now rewrite nested_forEach. }
    assert (Hgroup : In group groups).
    { apply values_In. exists (uid z). apply groupBy_In. split; [reflexivity|].
      unfold group. rewrite (members_last uid) by assumption.
      now destruct (filter _ before). }
    destruct (Forall2_In_l _ _ _ Hall _ Hgroup) as (o & Ho & Prep).
    assert (Ho' : o = FilterUtil.u_set_events z
                        (Lodash.values
                           (fold_left (fun h e => Lodash.set paths h (event_id e) e)
                                      (flat_map user_events group) []))).
    { apply Prep. unfold group. rewrite (members_last uid) by assumption.
      apply last_sortBy_snoc. intros y Hy. apply filter_In in Hy.
      destruct Hy as [Hy Hk]. apply String.eqb_eq in Hk. now apply Hlatest. }
    exists out. eexists. split; [exact Hout|].
    split; [rewrite <- Ho'; exact Ho|]. split; [reflexivity|].
    intros Hown. rewrite (write_own_keys paths).
    + destruct (merged_events (flat_map user_events group)) as (Hnd & Hmem & Hids).
      split; [exact Hnd|]. split; [exact Hids | exact Hmem].
    + apply Forall_forall. intros e He. apply in_flat_map in He.
      destruct He as (m & Hm & He). now apply (Hown m e).
Qed.

(** ** Enumeration order, once reached, is kept *)

Section EnumerationOrder.

Context {V : Type}.

Local Abbreviation index_le :=
  (fun a b : N * (string * V) => (fst a <= fst b)%N).
Local Abbreviation is_index :=
  (fun x : N * (string * V) => Js.array_index (fst (snd x)) = Some (fst x)).
Local Abbreviation is_named :=
  (fun kv : string * V => Js.array_index (fst kv) = None).

Lemma insert_index_sorted (x : N * (string * V)) (l : list (N * (string * V))) :
  StronglySorted index_le l -> StronglySorted index_le (Js.insert_index x l).
Proof.
  induction 1 as [|y rest Hsorted IH Hall]; cbn.
  - repeat constructor.
  - destruct (N.leb_spec (fst x) (fst y)) as [Hle | Hgt].
    + constructor; [now constructor|].
      constructor; [assumption|].
      rewrite Forall_forall in *. intros z Hz. specialize (Hall z Hz).
      cbn in *. lia.
    + constructor; [assumption|].
      rewrite Forall_forall in *. intros z Hz.
      apply (Permutation_in _ (insert_index_perm x rest)) in Hz.
      destruct Hz as [<- | Hz]; [cbn; lia | now apply Hall].
Qed.

Lemma sort_indices_sorted (l : list (N * (string * V))) :
  StronglySorted index_le (Js.sort_indices l).
Proof.
  induction l as [|x rest IH]; cbn; [constructor|].
  now apply insert_index_sorted.
Qed.

Lemma sort_indices_fixed (l : list (N * (string * V))) :
  StronglySorted index_le l -> Js.sort_indices l = l.
Proof.
  induction 1 as [|x rest Hsorted IH Hall]; [reflexivity|].
  change (Js.sort_indices (x :: rest))
    with (Js.insert_index x (Js.sort_indices rest)).
  rewrite IH. destruct rest as [|y rest']; [reflexivity|].
  cbn [Js.insert_index]. rewrite Forall_forall in Hall.
  assert (Hle : (fst x <= fst y)%N) by (apply Hall; now left).
  apply N.leb_le in Hle. now rewrite Hle.
Qed.

Lemma indexed_In (o : Js.dict V) (x : N * (string * V)) :
  In x (Js.indexed o) -> is_index x.
Proof.
  unfold Js.indexed. rewrite in_flat_map. intros (kv & _ & Hx).
  destruct (Js.array_index (fst kv)) eqn:E; [|destruct Hx].
  destruct Hx as [<- | []]. exact E.
Qed.

Lemma named_In (o : Js.dict V) (kv : string * V) :
  In kv (Js.named o) -> is_named kv.
Proof.
  unfold Js.named. rewrite filter_In. intros [_ H].
  now destruct (Js.array_index (fst kv)).
Qed.

(** A dictionary that lists its array indices first, in ascending order,
    and its other keys behind them is enumerated as it stands. *)
Lemma ownEntries_fixed (ix : list (N * (string * V))) (nm : Js.dict V) :
  Forall is_index ix -> StronglySorted index_le ix -> Forall is_named nm ->
  Js.ownEntries (map snd ix ++ nm) = map snd ix ++ nm.
Proof.
  intros Hix Hsorted Hnm. unfold Js.ownEntries.
  assert (Hindexed : Js.indexed (map snd ix ++ nm) = ix).
  { unfold Js.indexed. rewrite flat_map_app.
    replace (flat_map _ nm) with (@nil (N * (string * V))).
    - rewrite app_nil_r. clear Hsorted.
      induction Hix as [|[n kv] rest Hx _ IH]; [reflexivity|].
      cbn in *. rewrite Hx. cbn. now rewrite IH.
    - induction Hnm as [|kv rest Hkv _ IH]; [reflexivity|].
      cbn. rewrite Hkv. exact IH. }
  assert (Hnamed : Js.named (map snd ix ++ nm) = nm).
  { unfold Js.named. rewrite filter_app.
    rewrite filter_none, filter_all; [reflexivity | |].
    - intros kv Hkv. rewrite Forall_forall in Hnm. now rewrite (Hnm kv Hkv).
    - intros kv Hkv. apply in_map_iff in Hkv. destruct Hkv as (x & <- & Hx).
      rewrite Forall_forall in Hix. now rewrite (Hix x Hx). }
  rewrite Hindexed, Hnamed. now rewrite sort_indices_fixed.
Qed.

End EnumerationOrder.

(** Replacing the values of a dictionary in enumeration order, key by key,
    gives a dictionary that is again in enumeration order. *)
Lemma ownEntries_same_keys {V W : Type} (o : Js.dict V) (f : string * V -> W) :
  Js.ownEntries (map (fun kv => (fst kv, f kv)) (Js.ownEntries o))
  = map (fun kv => (fst kv, f kv)) (Js.ownEntries o).
Proof.
  unfold Js.ownEntries at 2 3.
  set (g := fun kv : string * V => (fst kv, f kv)).
  set (ix := Js.sort_indices (Js.indexed o)).
  rewrite map_app, map_map.
  replace (map (fun x => g (snd x)) ix)
    with (map snd (map (fun x : N * (string * V) => (fst x, g (snd x))) ix))
    by (rewrite map_map; reflexivity).
  apply ownEntries_fixed.
  - apply Forall_forall. intros x Hx. apply in_map_iff in Hx.
    destruct Hx as ([n kv] & <- & Hin). cbn.
    apply (Permutation_in _ (sort_indices_perm _)) in Hin.
    now apply indexed_In in Hin.
  - assert (Hsorted := sort_indices_sorted (Js.indexed o)). fold ix in Hsorted.
    clearbody ix. induction Hsorted as [|x rest _ IH Hall]; cbn; constructor; auto.
    rewrite Forall_forall in *. intros y Hy. apply in_map_iff in Hy.
    destruct Hy as (y' & <- & Hy'). cbn. now apply Hall.
  - apply Forall_forall. intros kv Hkv. apply in_map_iff in Hkv.
    destruct Hkv as (kv' & <- & Hin). cbn. now apply named_In in Hin.
Qed.

(** ** Deduplication: a second pass *)

Lemma assign_absent {V : Type} (o : Js.dict V) (k : string) (v : V) :
  Js.lookup o k = None -> Js.assign o k v = o ++ [(k, v)].
Proof.
  induction o as [|[k' v'] rest IH]; cbn; [reflexivity|].
  destruct (k' =? k); [discriminate|]. intros H. now rewrite IH.
Qed.

Lemma lookup_absent {V : Type} (o : Js.dict V) (k : string) :
  ~ In k (map fst o) -> Js.lookup o k = None.
Proof.
  induction o as [|[k' v'] rest IH]; cbn; [reflexivity|].
  intros H. destruct (String.eqb_spec k' k) as [-> | _].
  - exfalso. apply H. now left.
  - apply IH. intros Hin. apply H. now right.
Qed.

(** Grouping elements with distinct keys gives one group per element, in
    the order of the elements. *)
Lemma groupBy_distinct {A : Type} (key : A -> string) (l : list A) :
  NoDup (map key l) ->
  Lodash.groupBy key l = map (fun x => (key x, [x])) l.
Proof.
  induction l as [|x l IH] using rev_ind; [reflexivity|].
  rewrite map_app. cbn [map]. intros Hnd.
  apply NoDup_remove in Hnd. rewrite app_nil_r in Hnd. destruct Hnd as [Hnd Hx].
  specialize (IH Hnd).
  rewrite groupBy_snoc, IH, map_app.
  rewrite lookup_absent.
  - apply assign_absent, lookup_absent.
    now rewrite map_map.
  - now rewrite map_map.
Qed.

Lemma map_Some_Forall2 {A B : Type} (h : A -> option B) (P : A -> B -> Prop)
    (l : list A) :
  (forall x, In x l -> exists y, h x = Some y /\ P x y) ->
  exists ys, map h l = map Some ys /\ Forall2 P l ys.
Proof.
  induction l as [|x rest IH]; intros H.
  - exists []. split; [reflexivity | constructor].
  - destruct (H x (or_introl eq_refl)) as (y & Hy & Py).
    destruct IH as (ys & Hys & Pys); [intros z Hz; apply H; now right|].
    exists (y :: ys). cbn. rewrite Hy, Hys.
    split; [reflexivity | now constructor].
Qed.

(** A second pass over deduplicated account messages returns them as they
    are, in the same order. *)
Lemma dedupe_accounts_twice (messages : list THullAccountUpdateMessage) :
  exists out,
    FilterUtil.deduplicateAccountUpdateMessages messages = map Some out
    /\ FilterUtil.deduplicateAccountUpdateMessages out = map Some out.
Proof.
  destruct (group_entries aid messages) as (Hnd & _ & Hent).
  set (entries := Js.ownEntries (Lodash.groupBy aid messages)) in *.
  pose (P := fun (kv : string * list THullAccountUpdateMessage)
                 (o : THullAccountUpdateMessage) =>
               FilterUtil.dedupeAccountGroup (snd kv) = Some o /\ aid o = fst kv).
  destruct (map_Some_Forall2
              (fun kv => FilterUtil.dedupeAccountGroup (snd kv)) P entries)
    as (out & Hout & Hall).
  { intros [k g] Hin. destruct (Hent k g Hin) as [Hg Hne].
    destruct (last_sortBy (fun m => indexed_at (account m)) g Hne)
      as (rep & Hlast & Hrep & _).
    exists rep. split; [exact Hlast|]. split; [exact Hlast|].
    cbn. rewrite Hg in Hrep. apply filter_In in Hrep.
    destruct Hrep as [_ Hk]. now apply String.eqb_eq in Hk. }
  exists out. split.
  - unfold FilterUtil.deduplicateAccountUpdateMessages, Lodash.values.
    fold entries. now rewrite map_map.
  - assert (Hkeys : map aid out = map fst entries).
    { clear - Hall. induction Hall as [|kv o l ys [_ Hk] _ IH]; cbn in *;
        congruence. }
    assert (Hdict : map (fun o => (aid o, [o])) out
                    = map (fun kv => (fst kv,
                                      match FilterUtil.dedupeAccountGroup (snd kv) with
                                      | Some o => [o]
                                      | None => []
                                      end)) entries).
    { clear - Hall. induction Hall as [|kv o l ys [Hd Hk] _ IH]; cbn;
        [reflexivity|]. now rewrite Hd, Hk, IH. }
    unfold FilterUtil.deduplicateAccountUpdateMessages, Lodash.values.
    rewrite groupBy_distinct by (rewrite Hkeys; exact Hnd).
    rewrite Hdict. unfold entries. rewrite ownEntries_same_keys.
    fold entries. rewrite <- Hdict, !map_map. reflexivity.
Qed.

Lemma ownEntries_idempotent {V : Type} (o : Js.dict V) :
  Js.ownEntries (Js.ownEntries o) = Js.ownEntries o.
Proof.
  rewrite <- (map_id (Js.ownEntries o)) at 1 2.
  rewrite (map_ext (fun kv : string * V => kv) (fun kv => (fst kv, snd kv)))
    by (now intros []).
  apply ownEntries_same_keys.
Qed.

(** Writing the events of a hash back, in its own order, rebuilds it. *)
Lemma assign_all_rebuilds (entries : Js.dict THullEvent) :
  NoDup (map fst entries) ->
  (forall k e, In (k, e) entries -> event_id e = k) ->
  fold_left (fun h e => Js.assign h (event_id e) e) (map snd entries) []
  = entries.
Proof.
  induction entries as [|[k e] rest IH] using rev_ind; [reflexivity|].
  intros Hnd Hkey. rewrite map_app in Hnd. cbn in Hnd.
  apply NoDup_remove in Hnd. rewrite app_nil_r in Hnd. destruct Hnd as [Hnd Hk].
  rewrite map_app, fold_left_app. cbn.
  rewrite IH; auto.
  - rewrite (Hkey k e) by (apply in_or_app; right; now left).
    now apply assign_absent, lookup_absent.
  - intros k' e' Hin. apply Hkey. apply in_or_app. now left.
Qed.

Lemma mapM_singletons {A : Type} (f : list A -> Result A) (l : list A) :
  (forall x, In x l -> f [x] = Ok x) ->
  mapM f (map (fun x => [x]) l) = Ok l.
Proof.
  induction l as [|x rest IH]; intros H; [reflexivity|].
  cbn. rewrite (H x) by now left. cbn.
  rewrite IH by (intros y Hy; apply H; now right). reflexivity.
Qed.

(** What the user deduplication returns for a group is a fixed point of
    the callback: deduplicating it alone returns it, events included. *)
Lemma dedupeUserGroup_fixed (paths : LodashPaths)
    (group : list THullUserUpdateMessage) :
  group <> [] ->
  Forall (fun e => Lodash.own_key (event_id e) = true)
         (flat_map user_events group) ->
  exists o rep,
    FilterUtil.dedupeUserGroup paths group = Ok o
    /\ In rep group /\ uid o = uid rep
    /\ FilterUtil.dedupeUserGroup paths [o] = Ok o.
Proof.
  intros Hne Hown.
  destruct (dedupeUserGroup_spec paths group Hne Hown) as (rep & Hrep & _ & Hd).
  set (events := flat_map user_events group) in *.
  set (hash := fold_left (fun h e => Js.assign h (event_id e) e) events []) in *.
  exists (FilterUtil.u_set_events rep (Lodash.values hash)), rep.
  split; [exact Hd|]. split; [exact Hrep|]. split; [reflexivity|].
  assert (Hkey : forall k e, In (k, e) (Js.ownEntries hash) -> event_id e = k).
  { intros k e Hin. apply (Permutation_in _ (ownEntries_perm _)) in Hin.
    apply assign_all_In, find_some in Hin. now apply String.eqb_eq. }
  assert (Hsub : Forall (fun e => Lodash.own_key (event_id e) = true)
                        (Lodash.values hash)).
  { apply Forall_forall. intros e He. apply values_In in He.
    destruct He as (k & He). apply assign_all_In, find_some in He.
    destruct He as [He _]. apply in_rev in He.
    rewrite Forall_forall in Hown. now apply Hown. }
  unfold FilterUtil.dedupeUserGroup.
  cbn [Lodash.sortBy fold_right Lodash.sort_insert Lodash.last fold_left
       FilterUtil.u_set_events user_events].
  rewrite write_own_keys by exact Hsub.
  change (Lodash.values hash) with (map snd (Js.ownEntries hash)).
  rewrite assign_all_rebuilds.
  - unfold Lodash.values. now rewrite ownEntries_idempotent.
  - apply keys_ownEntries_NoDup, assign_all_NoDup.
  - exact Hkey.
Qed.

(** A second pass over deduplicated user messages returns them as they
    are, merged events included. *)
Lemma dedupe_users_twice (paths : LodashPaths)
    (messages : list THullUserUpdateMessage) :
  (forall m e, In m messages -> In e (user_events m) ->
               Lodash.own_key (event_id e) = true) ->
  exists out,
    FilterUtil.deduplicateUserUpdateMessages paths messages = Ok out
    /\ FilterUtil.deduplicateUserUpdateMessages paths out = Ok out.
Proof.
  intros Hown.
  destruct (group_entries uid messages) as (Hnd & _ & Hent).
  set (entries := Js.ownEntries (Lodash.groupBy uid messages)) in *.
  pose (P := fun (kv : string * list THullUserUpdateMessage)
                 (o : THullUserUpdateMessage) =>
               FilterUtil.dedupeUserGroup paths (snd kv) = Ok o
               /\ uid o = fst kv
               /\ FilterUtil.dedupeUserGroup paths [o] = Ok o).
  destruct (mapM_Forall2
              (fun kv => FilterUtil.dedupeUserGroup paths (snd kv)) P entries)
    as (out & Hout & Hall).
  { intros [k g] Hin. destruct (Hent k g Hin) as [Hg Hne].
    destruct (dedupeUserGroup_fixed paths g Hne) as (o & rep & Hd & Hrep & Hid & Hfix).
    - apply Forall_forall. intros e He. apply in_flat_map in He.
      destruct He as (m & Hm & He). rewrite Hg in Hm. apply filter_In in Hm.
      now apply (Hown m e).
    - exists o. split; [exact Hd|]. split; [exact Hd|]. split; [|exact Hfix].
      cbn. rewrite Hid. rewrite Hg in Hrep. apply filter_In in Hrep.
      destruct Hrep as [_ Hk]. now apply String.eqb_eq in Hk. }
  exists out. split.
  - unfold FilterUtil.deduplicateUserUpdateMessages, Lodash.values.
    fold entries. now rewrite mapM_map.
  - assert (Hkeys : map uid out = map fst entries).
    { clear - Hall. induction Hall as [|kv o l ys (_ & Hk & _) _ IH]; cbn in *;
        congruence. }
    assert (Hdict : map (fun o => (uid o, [o])) out
                    = map (fun kv => (fst kv,
                                      match FilterUtil.dedupeUserGroup paths (snd kv) with
                                      | Ok o => [o]
                                      | _ => []
                                      end)) entries).
    { clear - Hall. induction Hall as [|kv o l ys (Hd & Hk & _) _ IH]; cbn;
        [reflexivity|]. now rewrite Hd, Hk, IH. }
    unfold FilterUtil.deduplicateUserUpdateMessages, Lodash.values.
    rewrite groupBy_distinct by (rewrite Hkeys; exact Hnd).
    rewrite Hdict. unfold entries. rewrite ownEntries_same_keys.
    fold entries. rewrite <- Hdict, map_map. cbn [snd].
    apply mapM_singletons. intros o Ho.
    destruct (Forall2_In_r _ _ _ Hall o Ho) as (kv & _ & _ & _ & Hfix).
    exact Hfix.
Qed.

(** X6. Deduplication is idempotent.  Deduplicating a batch that is already
    deduplicated changes nothing: the second pass returns the messages of
    the first, in the same order, and for users with the same merged events
    (provided every event id is a key lodash writes as one own property). *)
Theorem X6_deduplication_is_idempotent (paths : LodashPaths) :
  (forall messages : list THullAccountUpdateMessage,
     exists out,
       FilterUtil.deduplicateAccountUpdateMessages messages = map Some out
       /\ FilterUtil.deduplicateAccountUpdateMessages out = map Some out)
  /\
  (forall messages : list THullUserUpdateMessage,
     (forall m e, In m messages -> In e (user_events m) ->
                  Lodash.own_key (event_id e) = true) ->
     exists out,
       FilterUtil.deduplicateUserUpdateMessages paths messages = Ok out
       /\ FilterUtil.deduplicateUserUpdateMessages paths out = Ok out).
Proof.
  split.
  - apply dedupe_accounts_twice.
  - apply dedupe_users_twice.
Qed.


(** ** SyncAgent: the settings *)

Lemma indexOf_from_found (array : list string) (value : string) (from : Z) :
  (0 <= from)%Z ->
  (indexOf_from array value from = -1)%Z <-> ~ In value array.
Proof.
  revert from. induction array as [|x rest IH]; intros from Hfrom; cbn.
  - tauto.
  - destruct (String.eqb_spec x value) as [-> | Hne].
    + split; [lia | intros H; exfalso; apply H; now left].
    + rewrite IH by lia. split.
      * intros H [Hx | Hin]; auto.
      * intros H Hin. apply H. now right.
Qed.

Lemma indexOf_absent (array : list string) (value : string) :
  (indexOf array value =? -1)%Z = negb (Lodash.includes value array).
Proof.
  destruct (Lodash.includes value array) eqn:E; cbn.
  - apply Z.eqb_neq. intros H. apply indexOf_from_found in H; [|lia].
    apply H. now apply includes_In.
  - apply Z.eqb_eq. apply indexOf_from_found; [lia|].
    intros H. apply includes_In in H. congruence.
Qed.

Lemma find_matches_snoc (hullId svcId : string) (rules : list CioOutboundMapping) :
  exists m,
    find (SyncAgent.matches hullId svcId)
         (rules ++ [{| hull_field_name := Some hullId;
                       closeio_field_name := Some svcId |}]) = Some m.
Proof.
  induction rules as [|r rest IH]; cbn.
  - unfold SyncAgent.matches. cbn. rewrite !String.eqb_refl. cbn. eauto.
  - destruct (SyncAgent.matches hullId svcId r); eauto.
Qed.

Lemma matches_names (hullId svcId : string) (m : CioOutboundMapping) :
  SyncAgent.matches hullId svcId m = true <->
  hull_field_name m = Some hullId /\ closeio_field_name m = Some svcId.
Proof.
  unfold SyncAgent.matches, is_name.
  destruct m as [[h|] [c|]]; cbn; rewrite ?andb_true_iff, ?String.eqb_eq;
    split; intros H; try (destruct H; congruence); try discriminate.
  - destruct H. split; congruence.
  - destruct H as [[= ->] [= ->]]. auto.
Qed.

Lemma ensured_rules_hold_identifier (hullId svcId : string)
    (rules : list CioOutboundMapping) :
  In {| hull_field_name := Some hullId; closeio_field_name := Some svcId |}
     match find (SyncAgent.matches hullId svcId) rules with
     | None => rules ++ [{| hull_field_name := Some hullId;
                            closeio_field_name := Some svcId |}]
     | Some _ => rules
     end.
Proof.
  destruct (find _ _) as [m|] eqn:F.
  - apply find_some in F. destruct F as [Hm Hmatch].
    apply matches_names in Hmatch. destruct Hmatch as [Hh Hc].
    destruct m as [h c]. cbn in Hh, Hc. subst h c. exact Hm.
  - apply in_or_app. right. now left.
Qed.

(** What [normalizeSettings] computes when neither list is [null]:
    the two lists with the identifier added where it is missing. *)
Lemma normalizeSettings_lists (settings : SyncAgent.CioConnectorSettings) :
  SyncAgent.lead_attributes_outbound settings <> IsNull ->
  SyncAgent.lead_attributes_inbound settings <> IsNull ->
  let hullId := get_or (SyncAgent.lead_identifier_hull settings) "domain" in
  let svcId := get_or (SyncAgent.lead_identifier_service settings) "url" in
  let givenOut := match SyncAgent.lead_attributes_outbound settings with
                  | Defined l => l
                  | _ => []
                  end in
  let givenIn := match SyncAgent.lead_attributes_inbound settings with
                 | Defined l => l
                 | _ => []
                 end in
  let rules := match find (SyncAgent.matches hullId svcId) givenOut with
               | None => givenOut ++ [{| hull_field_name := Some hullId;
                                         closeio_field_name := Some svcId |}]
               | Some _ => givenOut
               end in
  let fields := if Lodash.includes svcId givenIn then givenIn
                else givenIn ++ [svcId] in
  exists finalSettings,
    snd (SyncAgent.normalizeSettings settings) = Ok finalSettings
    /\ SyncAgent.lead_attributes_outbound finalSettings = Defined rules
    /\ SyncAgent.lead_attributes_inbound finalSettings = Defined fields
    /\ SyncAgent.lead_identifier_hull finalSettings = Some hullId
    /\ SyncAgent.lead_identifier_service finalSettings = Some svcId
    /\ SyncAgent.lead_status finalSettings
       = Some (get_or (SyncAgent.lead_status settings) "N/A")
    /\ SyncAgent.api_key finalSettings = SyncAgent.api_key settings
    /\ SyncAgent.synchronized_account_segments finalSettings
       = SyncAgent.synchronized_account_segments settings
    /\ SyncAgent.contact_attributes_outbound finalSettings
       = SyncAgent.contact_attributes_outbound settings
    /\ SyncAgent.contact_attributes_inbound finalSettings
       = SyncAgent.contact_attributes_inbound settings
    /\ SyncAgent.last_sync_at finalSettings = SyncAgent.last_sync_at settings.
Proof.
  intros Hout Hin hullId svcId givenOut givenIn rules fields.
  unfold SyncAgent.normalizeSettings.
  fold hullId svcId.
  destruct settings as [key segments status hull svc out inb cout cin sync].
  cbn -[indexOf find app Lodash.includes] in *.
  destruct out as [| | out]; [| congruence |];
    destruct inb as [| | inb]; try congruence;
    cbn -[indexOf find app Lodash.includes];
    rewrite indexOf_absent;
    (eexists; split; [reflexivity|]);
    cbn -[indexOf find app Lodash.includes];
    subst fields givenIn; cbn -[indexOf find app Lodash.includes];
    destruct (Lodash.includes svcId _); cbn -[indexOf find app Lodash.includes];
    repeat split; reflexivity.
Qed.

(** X7. [normalizeSettings] makes the identifier of leads part of both
    directions.  Whenever neither rule list is [null] it returns settings
    whose outbound rules hold a rule from the hull identifier to the service
    identifier and whose inbound fields hold the service identifier, with
    the defaults (["domain"], ["url"], ["N/A"]) standing in for what the
    settings lack.  The lists it was given are kept as they are, in order;
    at most the identifier is added behind them. *)
Theorem X7_normalizeSettings_ensures_lead_identifier
    (settings : SyncAgent.CioConnectorSettings) :
  SyncAgent.lead_attributes_outbound settings <> IsNull ->
  SyncAgent.lead_attributes_inbound settings <> IsNull ->
  let hullId := get_or (SyncAgent.lead_identifier_hull settings) "domain" in
  let svcId := get_or (SyncAgent.lead_identifier_service settings) "url" in
  let identifier := {| hull_field_name := Some hullId;
                       closeio_field_name := Some svcId |} in
  exists finalSettings rules fields,
    snd (SyncAgent.normalizeSettings settings) = Ok finalSettings
    /\ SyncAgent.lead_identifier_hull finalSettings = Some hullId
    /\ SyncAgent.lead_identifier_service finalSettings = Some svcId
    /\ SyncAgent.lead_status finalSettings
       = Some (get_or (SyncAgent.lead_status settings) "N/A")
    /\ SyncAgent.lead_attributes_outbound finalSettings = Defined rules
    /\ In identifier rules
    /\ SyncAgent.lead_attributes_inbound finalSettings = Defined fields
    /\ In svcId fields
    /\ (forall given, SyncAgent.lead_attributes_outbound settings = Defined given ->
          rules = given \/ rules = given ++ [identifier])
    /\ (forall given, SyncAgent.lead_attributes_inbound settings = Defined given ->
          fields = given \/ fields = given ++ [svcId])
    /\ (SyncAgent.lead_attributes_outbound settings = IsUndefined ->
          rules = [identifier])
    /\ (SyncAgent.lead_attributes_inbound settings = IsUndefined ->
          fields = [svcId]).
Proof.
  intros Hout Hin hullId svcId identifier.
  destruct (normalizeSettings_lists settings Hout Hin)
    as (final & Hfinal & Hrules & Hfields & Hhull & Hsvc & Hstatus & _).
  fold hullId svcId in Hrules, Hfields, Hhull, Hsvc.
  eexists final, _, _.
  split; [exact Hfinal|]. split; [exact Hhull|]. split; [exact Hsvc|].
  split; [exact Hstatus|]. split; [exact Hrules|]. split.
  { apply ensured_rules_hold_identifier. }
  split; [exact Hfields|]. split.
  { destruct (Lodash.includes svcId _) eqn:I.
    - now apply includes_In.
    - apply in_or_app. right. now left. }
  split.
  { intros given ->. destruct (find (SyncAgent.matches hullId svcId) given); auto. }
  split.
  { intros given ->. destruct (Lodash.includes svcId given); auto. }
  split.
  { intros ->. reflexivity. }
  intros ->. reflexivity.
Qed.

Lemma includes_ensured (x : string) (l : list string) :
  Lodash.includes x (if negb (Lodash.includes x l) then l ++ [x] else l) = true.
Proof.
  destruct (Lodash.includes x l) eqn:E; [exact E|].
  apply includes_In, in_or_app. right. now left.
Qed.

Lemma find_matches_ensured (hullId svcId : string)
    (rules : list CioOutboundMapping) :
  exists m,
    find (SyncAgent.matches hullId svcId)
         match find (SyncAgent.matches hullId svcId) rules with
         | None => rules ++ [{| hull_field_name := Some hullId;
                                closeio_field_name := Some svcId |}]
         | Some _ => rules
         end = Some m.
Proof.
  destruct (find (SyncAgent.matches hullId svcId) rules) as [m|] eqn:F.
  - exists m. exact F.
  - apply find_matches_snoc.
Qed.

(** X8. Normalizing settings that are normalized changes nothing: the call
    returns them as they are and leaves its argument as it is. *)
Theorem X8_normalizeSettings_is_idempotent
    (settings finalSettings : SyncAgent.CioConnectorSettings) :
  snd (SyncAgent.normalizeSettings settings) = Ok finalSettings ->
  SyncAgent.normalizeSettings finalSettings = (finalSettings, Ok finalSettings).
Proof.
  destruct settings as [key segments status hull svc out inb cout cin sync].
  unfold SyncAgent.normalizeSettings at 1.
  cbn -[indexOf find app Lodash.includes].
  set (hullId := get_or hull "domain"). set (svcId := get_or svc "url").
  assert (Hone : find (SyncAgent.matches hullId svcId)
                      [{| hull_field_name := Some hullId;
                          closeio_field_name := Some svcId |}]
                 = Some {| hull_field_name := Some hullId;
                           closeio_field_name := Some svcId |}).
  { cbn. unfold SyncAgent.matches. cbn. now rewrite !String.eqb_refl. }
  destruct out as [| | out]; [| discriminate |];
    (destruct inb as [| | inb]; [| discriminate |]);
    cbn -[indexOf find app Lodash.includes];
    rewrite indexOf_absent; intros [= <-];
    unfold SyncAgent.normalizeSettings;
    cbn -[indexOf find app Lodash.includes];
    rewrite indexOf_absent.
  - rewrite Hone. cbn. now rewrite String.eqb_refl.
  - rewrite Hone. rewrite (includes_ensured svcId inb). reflexivity.
  - destruct (find_matches_ensured hullId svcId out) as (m & ->).
    cbn. now rewrite String.eqb_refl.
  - destruct (find_matches_ensured hullId svcId out) as (m & ->).
    rewrite (includes_ensured svcId inb). reflexivity.
Qed.

(** X9. [normalizeSettings] writes into the settings it is given.  A rule list
    or field list the settings hold is, after the call, the normalized list
    itself (the result shares the array with its argument); a list the
    settings lack stays missing, and nothing else of the argument changes:
    the defaults of the three scalars go to the result only. *)
Theorem X9_normalizeSettings_writes_into_its_argument
    (settings : SyncAgent.CioConnectorSettings) :
  let after := fst (SyncAgent.normalizeSettings settings) in
  (SyncAgent.api_key after = SyncAgent.api_key settings
   /\ SyncAgent.synchronized_account_segments after
      = SyncAgent.synchronized_account_segments settings
   /\ SyncAgent.lead_status after = SyncAgent.lead_status settings
   /\ SyncAgent.lead_identifier_hull after = SyncAgent.lead_identifier_hull settings
   /\ SyncAgent.lead_identifier_service after
      = SyncAgent.lead_identifier_service settings
   /\ SyncAgent.contact_attributes_outbound after
      = SyncAgent.contact_attributes_outbound settings
   /\ SyncAgent.contact_attributes_inbound after
      = SyncAgent.contact_attributes_inbound settings
   /\ SyncAgent.last_sync_at after = SyncAgent.last_sync_at settings)
  /\
  (forall finalSettings,
     snd (SyncAgent.normalizeSettings settings) = Ok finalSettings ->
     (forall given,
        SyncAgent.lead_attributes_outbound settings = Defined given ->
        SyncAgent.lead_attributes_outbound after
        = SyncAgent.lead_attributes_outbound finalSettings)
     /\ (SyncAgent.lead_attributes_outbound settings = IsUndefined ->
         SyncAgent.lead_attributes_outbound after = IsUndefined)
     /\ (forall given,
           SyncAgent.lead_attributes_inbound settings = Defined given ->
           SyncAgent.lead_attributes_inbound after
           = SyncAgent.lead_attributes_inbound finalSettings)
     /\ (SyncAgent.lead_attributes_inbound settings = IsUndefined ->
         SyncAgent.lead_attributes_inbound after = IsUndefined)).
Proof.
  destruct settings as [key segments status hull svc out inb cout cin sync].
  unfold SyncAgent.normalizeSettings.
  cbn -[indexOf find app Lodash.includes].
  destruct out as [| | out]; destruct inb as [| | inb];
    cbn -[indexOf find app Lodash.includes];
    (split; [repeat split; reflexivity|]);
    intros final Hfinal; try discriminate;
    injection Hfinal as <-;
    cbn -[indexOf find app Lodash.includes];
    repeat split; intros; try discriminate; reflexivity.
Qed.

(** The settings of a lead rule list that is [null] cannot be normalized:
    the call throws a [TypeError].  When it is the inbound list that is
    [null], the outbound list of the argument has been written by then. *)
Lemma normalizeSettings_null_list (settings : SyncAgent.CioConnectorSettings) :
  SyncAgent.lead_attributes_outbound settings = IsNull
    \/ SyncAgent.lead_attributes_inbound settings = IsNull ->
  snd (SyncAgent.normalizeSettings settings) = Throw SyncAgent.nullPush.
Proof.
  destruct settings as [key segments status hull svc out inb cout cin sync].
  unfold SyncAgent.normalizeSettings.
  cbn -[indexOf find app Lodash.includes].
  intros [-> | ->]; [reflexivity|].
  destruct out; reflexivity.
Qed.

Lemma defaultProperties_Lead_returns (SM : SharedMessages)
    (this : Cio.MappingUtilSettings) (hullObject : Js.props) :
  (exists svcObject,
     MappingUtil.defaultProperties SM this "Lead" hullObject = Ok svcObject)
  /\ (exists svcObject,
        MappingUtilRev.defaultProperties SM this "Lead" hullObject = Ok svcObject).
Proof.
  unfold MappingUtil.defaultProperties, MappingUtilRev.defaultProperties.
  cbn [String.eqb Ascii.eqb Bool.eqb].
  destruct (negb (Js.isNil (Js.get hullObject "closeio/id"))); [eauto|].
  destruct (negb (Cio.leadCreationStatusId this =? "N/A")
            && negb (Cio.leadCreationStatusId this =? "hull-default")); eauto.
Qed.

(** X10. An agent whose settings went through [normalizeSettings] can always map
    an account to a lead.  For private settings whose lead lists are not
    [null], the mapping util the agent configures returns a payload for
    every account, in both revisions: the check on missing outbound rules
    of mapping-util.js cannot fire for leads, since the identifier rule is
    among them. *)
Theorem X10_normalized_settings_always_map_leads
    (SM : SharedMessages) (paths : LodashPaths)
    (loadedSettings : SyncAgent.CioConnectorSettings)
    (leadStatuses : list CioLeadStatus)
    (leadCustomFields : list CioLeadCustomField) :
  SyncAgent.lead_attributes_outbound loadedSettings <> IsNull ->
  SyncAgent.lead_attributes_inbound loadedSettings <> IsNull ->
  exists this,
    SyncAgent.mappingUtilSettings loadedSettings leadStatuses leadCustomFields
    = Ok this
    /\ forall hullAccount : Js.props,
         (exists cioLeadWrite,
            MappingUtil.mapToServiceObject SM paths this "Lead" hullAccount
            = Ok cioLeadWrite)
         /\ (exists cioLeadWrite,
               MappingUtilRev.mapToServiceObject SM paths this "Lead" hullAccount
               = Ok cioLeadWrite).
Proof.
  intros Hout Hin.
  destruct (normalizeSettings_lists loadedSettings Hout Hin)
    as (final & Hfinal & Hrules & Hfields & Hhull & Hsvc & Hstatus & _).
  match type of Hrules with
  | _ = Defined ?r =>
      assert (Hident : In {| hull_field_name :=
                               Some (get_or (SyncAgent.lead_identifier_hull
                                               loadedSettings) "domain");
                             closeio_field_name :=
                               Some (get_or (SyncAgent.lead_identifier_service
                                               loadedSettings) "url") |} r)
        by apply ensured_rules_hold_identifier;
      set (rules := r) in *; clearbody rules
  end.
  unfold SyncAgent.mappingUtilSettings. rewrite Hfinal. cbn [bind].
  unfold SyncAgent.configMappingUtil. rewrite Hstatus, Hhull, Hsvc, Hrules.
  eexists. split; [reflexivity|].
  intros hullAccount. split.
  - unfold MappingUtil.mapToServiceObject, MappingUtil.configuredRules.
    cbn [Cio.attributeMappings].
    change (outbound_rules ?m "Lead") with (lead_attributes_outbound m).
    cbn [lead_attributes_outbound].
    destruct rules as [|first rest]; [destruct Hident|].
    assert (Hguard : (List.length (first :: rest) =? 1)%nat
                     && (rule_keys first =? 0)%nat = false).
    { destruct rest as [|second rest'].
      - destruct Hident as [-> | []]. reflexivity.
      - reflexivity. }
    rewrite Hguard.
    destruct (proj1 (defaultProperties_Lead_returns SM
                       {| Cio.attributeMappings :=
                            Defined
                              (Build_CioAttributesMapping
                                 (Defined (first :: rest))
                                 (SyncAgent.lead_attributes_inbound final)
                                 (SyncAgent.contact_attributes_outbound final)
                                 (SyncAgent.contact_attributes_inbound final));
                          Cio.leadCreationStatusId :=
                            get_or (SyncAgent.lead_status loadedSettings) "N/A";
                          Cio.leadStatuses := leadStatuses;
                          Cio.leadCustomFields := leadCustomFields;
                          Cio.leadIdentifierHull :=
                            get_or (SyncAgent.lead_identifier_hull loadedSettings)
                                   "domain";
                          Cio.leadIdentifierService :=
                            get_or (SyncAgent.lead_identifier_service loadedSettings)
                                   "url" |}
                       hullAccount)) as (svcObject & ->).
    cbn [bind]. eauto.
  - unfold MappingUtilRev.mapToServiceObject, MappingUtilRev.usableRules.
    cbn [Cio.attributeMappings].
    match goal with
    | |- context [MappingUtilRev.defaultProperties SM ?t "Lead" hullAccount] =>
        destruct (proj2 (defaultProperties_Lead_returns SM t hullAccount))
          as (svcObject & ->)
    end.
    cbn [bind]. eauto.
Qed.

(** ** MappingUtil: what the outbound rules write *)

Lemma customizedMapping_each_other (paths : LodashPaths)
    (hullObject svcObject : Js.props) (m : CioOutboundMapping) (k : string) :
  written_key m <> k ->
  Js.lookup (customizedMapping_each paths hullObject svcObject m) k
  = Js.lookup svcObject k.
Proof.
  unfold written_key, customizedMapping_each. intros Hk.
  destruct (Js.isNil _); cbn [negb]; [reflexivity|].
  destruct (startsWith _ "emails" || startsWith _ "phones" || startsWith _ "urls").
  - unfold Js.set. rewrite lookup_assign_other by assumption.
    destruct (Lodash.has paths svcObject _); cbn [negb]; [reflexivity|].
    now rewrite lookup_assign_other.
  - unfold Js.set. now rewrite lookup_assign_other.
Qed.

Lemma customizedMapping_other (paths : LodashPaths) (hullObject : Js.props)
    (mappings : list CioOutboundMapping) (svcObject : Js.props) (k : string) :
  Forall (fun m => written_key m <> k) mappings ->
  Js.lookup (fold_left (customizedMapping_each paths hullObject) mappings svcObject) k
  = Js.lookup svcObject k.
Proof.
  intros Hall. revert svcObject.
  induction Hall as [|m rest Hm _ IH]; intros svcObject; cbn; [reflexivity|].
  rewrite IH. now apply customizedMapping_each_other.
Qed.

(** A rule that writes, writes a value that is not nil. *)
Lemma customizedMapping_each_written (paths : LodashPaths)
    (hullObject svcObject : Js.props) (m : CioOutboundMapping) :
  customizedMapping_each paths hullObject svcObject m = svcObject
  \/ exists v, Js.lookup (customizedMapping_each paths hullObject svcObject m)
                         (written_key m) = Some v
               /\ Js.isNil v = false.
Proof.
  unfold written_key, customizedMapping_each.
  destruct (Js.isNil _) eqn:N; cbn [negb]; [now left|]. right.
  destruct (startsWith _ "emails" || startsWith _ "phones" || startsWith _ "urls").
  - eexists. unfold Js.set. rewrite lookup_assign_same. split; reflexivity.
  - eexists. unfold Js.set. rewrite lookup_assign_same. split; [reflexivity|].
    exact N.
Qed.

Lemma customizedMapping_no_nil (paths : LodashPaths) (hullObject : Js.props)
    (mappings : list CioOutboundMapping) (svcObject : Js.props)
    (k : string) (v : Js.value) :
  Js.lookup (fold_left (customizedMapping_each paths hullObject) mappings svcObject) k
    = Some v ->
  Js.isNil v = true ->
  Js.lookup svcObject k = Some v.
Proof.
  revert svcObject. induction mappings as [|m rest IH]; intros svcObject; cbn;
    [auto|].
  intros Hk Hnil. specialize (IH _ Hk Hnil).
  destruct (customizedMapping_each_written paths hullObject svcObject m)
    as [Hsame | (w & Hw & Hwnil)].
  - now rewrite Hsame in IH.
  - destruct (String.eqb_spec (written_key m) k) as [<- | Hne].
    + rewrite Hw in IH. injection IH as ->. congruence.
    + now rewrite customizedMapping_each_other in IH.
Qed.

(** The properties the payload starts with stay in it. *)
Lemma customizedMapping_each_keeps (paths : LodashPaths)
    (hullObject svcObject : Js.props) (m : CioOutboundMapping) (k : string) :
  Js.has svcObject k = true ->
  Js.has (customizedMapping_each paths hullObject svcObject m) k = true.
Proof.
  intros Hk. unfold Js.has, Js.mem in *.
  destruct (customizedMapping_each_written paths hullObject svcObject m)
    as [-> | (w & Hw & _)]; [exact Hk|].
  destruct (String.eqb_spec (written_key m) k) as [<- | Hne].
  - now rewrite Hw.
  - now rewrite customizedMapping_each_other.
Qed.

Lemma mapToServiceObject_payload (SM : SharedMessages) (paths : LodashPaths)
    (this : Cio.MappingUtilSettings) (objType : string)
    (hullObject payload : Js.props) :
  MappingUtil.mapToServiceObject SM paths this objType hullObject = Ok payload ->
  exists svcObject rules,
    MappingUtil.defaultProperties SM this objType hullObject = Ok svcObject
    /\ MappingUtil.configuredRules this objType = Defined rules
    /\ payload = fold_left (customizedMapping_each paths hullObject) rules svcObject.
Proof.
  unfold MappingUtil.mapToServiceObject.
  destruct (Cio.attributeMappings this) eqn:A; [| discriminate |];
    (destruct (MappingUtil.configuredRules this objType) as [| | [|first rest]];
       try discriminate;
     destruct ((List.length (first :: rest) =? 1)%nat && (rule_keys first =? 0)%nat);
       [discriminate|];
     destruct (MappingUtil.defaultProperties SM this objType hullObject)
       as [svcObject | |]; try discriminate;
     cbn [bind]; intros [= <-]; eauto).
Qed.

Lemma later_mapToServiceObject_payload (SM : SharedMessages) (paths : LodashPaths)
    (this : Cio.MappingUtilSettings) (objType : string)
    (hullObject payload : Js.props) :
  MappingUtilRev.mapToServiceObject SM paths this objType hullObject = Ok payload ->
  exists svcObject rules,
    MappingUtilRev.defaultProperties SM this objType hullObject = Ok svcObject
    /\ MappingUtilRev.usableRules this objType = Ok rules
    /\ payload = fold_left (customizedMapping_each paths hullObject) rules svcObject.
Proof.
  unfold MappingUtilRev.mapToServiceObject.
  destruct (MappingUtilRev.defaultProperties SM this objType hullObject)
    as [svcObject | |]; try discriminate.
  destruct (MappingUtilRev.usableRules this objType) as [rules | |];
    try discriminate.
  cbn [bind]. intros [= <-]. eauto.
Qed.

(** A rule aimed at one of the fields the connector offers writes that
    field, as one property. *)
Lemma offered_field_written_key (type : string)
    (customFields : list CioLeadCustomField) (m : CioOutboundMapping)
    (field : string) :
  closeio_field_name m = Some field ->
  In field (leadFieldValues type customFields) ->
  written_key m = field.
Proof.
  intros Hm Hin. unfold written_key. rewrite Hm.
  unfold leadFieldValues in Hin. apply in_app_or in Hin.
  destruct Hin as [Hdefault | Hcustom].
  - destruct (type =? "inbound"); cbn in Hdefault;
      repeat (destruct Hdefault as [<- | Hdefault]; [reflexivity|]);
      destruct Hdefault.
  - apply in_map_iff in Hcustom. destruct Hcustom as (f & <- & _).
    reflexivity.
Qed.

Lemma offered_outbound_fields_spare (customFields : list CioLeadCustomField)
    (rules : list CioOutboundMapping) (k : string) :
  k = "status_id" \/ k = "id" ->
  Forall (fun m => exists field, closeio_field_name m = Some field
                                 /\ In field (leadFieldValues "outbound" customFields))
         rules ->
  Forall (fun m => written_key m <> k) rules.
Proof.
  intros Hk. apply Forall_impl. intros m (field & Hm & Hin).
  rewrite (offered_field_written_key _ _ _ _ Hm Hin).
  unfold leadFieldValues in Hin. apply in_app_or in Hin.
  destruct Hin as [Hdefault | Hcustom].
  - cbn in Hdefault.
    repeat (destruct Hdefault as [<- | Hdefault];
            [destruct Hk as [-> | ->]; discriminate|]).
    destruct Hdefault.
  - apply in_map_iff in Hcustom. destruct Hcustom as (f & <- & _).
    destruct Hk as [-> | ->]; discriminate.
Qed.

(** The status the default properties of a lead carry. *)
Lemma defaultProperties_Lead_status (SM : SharedMessages)
    (this : Cio.MappingUtilSettings) (hullObject : Js.props) :
  let status := Cio.leadCreationStatusId this in
  let expected :=
    if Js.isNil (Js.get hullObject "closeio/id")
    then if (status =? "N/A") || (status =? "hull-default")
         then None
         else Some (Js.str status)
    else None in
  (exists svcObject,
     MappingUtil.defaultProperties SM this "Lead" hullObject = Ok svcObject
     /\ Js.lookup svcObject "status_id" = expected)
  /\ (exists svcObject,
        MappingUtilRev.defaultProperties SM this "Lead" hullObject = Ok svcObject
        /\ Js.lookup svcObject "status_id" = expected).
Proof.
  intros status expected. subst expected status.
  unfold MappingUtil.defaultProperties, MappingUtilRev.defaultProperties.
  cbn [String.eqb Ascii.eqb Bool.eqb].
  destruct (Js.isNil (Js.get hullObject "closeio/id")); cbn [negb].
  - destruct (Cio.leadCreationStatusId this =? "N/A"); cbn [negb andb orb].
    + split; eexists; split; reflexivity.
    + destruct (Cio.leadCreationStatusId this =? "hull-default"); cbn [negb];
        split; eexists; split; reflexivity.
  - split; eexists; split; reflexivity.
Qed.

Lemma Forall_filter {A : Type} (P : A -> Prop) (p : A -> bool) (l : list A) :
  Forall P l -> Forall P (filter p l).
Proof.
  intros H. apply Forall_forall. intros x Hx. apply filter_In in Hx.
  rewrite Forall_forall in H. now apply H.
Qed.

(** X11. A lead gets its status when it is created and never when it is
    updated.  With outbound rules aimed at fields the connector offers, the
    payload of an account that carries an external id has no [status_id];
    the payload of an account without one has the configured status, unless
    that is the entry "(Use default)" that heads either status list of the
    settings (["N/A"], ["hull-default"]), in which case it has none.  Both
    revisions of the mapping agree on it. *)
Theorem X11_lead_status_is_sent_on_creation_only
    (SM : SharedMessages) (paths : LodashPaths) (this : Cio.MappingUtilSettings)
    (mappings : CioAttributesMapping) (rules : list CioOutboundMapping)
    (customFields : list CioLeadCustomField) (hullAccount : Js.props) :
  Cio.attributeMappings this = Defined mappings ->
  lead_attributes_outbound mappings = Defined rules ->
  Forall (fun m => exists field, closeio_field_name m = Some field
                                 /\ In field (leadFieldValues "outbound" customFields))
         rules ->
  let status := Cio.leadCreationStatusId this in
  exists cioLeadWrite,
    MappingUtilRev.mapToServiceObject SM paths this "Lead" hullAccount
    = Ok cioLeadWrite
    /\ (forall payload,
          MappingUtil.mapToServiceObject SM paths this "Lead" hullAccount
          = Ok payload ->
          Js.lookup payload "status_id" = Js.lookup cioLeadWrite "status_id")
    /\ (Js.isNil (Js.get hullAccount "closeio/id") = false ->
        Js.has cioLeadWrite "status_id" = false)
    /\ (forall item,
          (exists data, hd_error (SyncAgent.leadStatusOptions data) = Some item)
          \/ (exists ls, hd_error (body_options
                                     (leadStatusListAction true (Fetched ls)))
                         = Some item) ->
          status = item_value item ->
          Js.has cioLeadWrite "status_id" = false)
    /\ (Js.isNil (Js.get hullAccount "closeio/id") = true ->
        status <> "N/A" -> status <> "hull-default" ->
        Js.lookup cioLeadWrite "status_id" = Some (Js.str status)).
Proof.
  intros Hm Hrules Hoffered status.
  assert (Hspare : Forall (fun m => written_key m <> "status_id") rules)
    by (apply (offered_outbound_fields_spare customFields); auto).
  destruct (defaultProperties_Lead_status SM this hullAccount)
    as ((svc1 & Hd1 & Hs1) & (svc2 & Hd2 & Hs2)).
  fold status in Hs1, Hs2.
  unfold MappingUtilRev.mapToServiceObject, MappingUtilRev.usableRules.
  rewrite Hd2, Hm. cbn [bind].
  change (outbound_rules mappings "Lead") with (lead_attributes_outbound mappings).
  rewrite Hrules.
  eexists. split; [reflexivity|].
  rewrite (customizedMapping_other paths hullAccount _ svc2 "status_id")
    by now apply Forall_filter.
  unfold Js.has, Js.mem.
  rewrite (customizedMapping_other paths hullAccount _ svc2 "status_id")
    by now apply Forall_filter.
  rewrite Hs2.
  split; [|split; [|split]].
  - intros payload Hp.
    destruct (mapToServiceObject_payload _ _ _ _ _ _ Hp)
      as (svc & rules' & Hd & Hc & ->).
    rewrite Hd1 in Hd. injection Hd as <-.
    unfold MappingUtil.configuredRules in Hc. rewrite Hm in Hc.
    change (outbound_rules mappings "Lead")
      with (lead_attributes_outbound mappings) in Hc.
    rewrite Hrules in Hc. injection Hc as <-.
    now rewrite customizedMapping_other, Hs1.
  - intros ->. reflexivity.
  - intros item Hitem Hstatus.
    assert (Hdefault : status = "N/A" \/ status = "hull-default").
    { rewrite Hstatus. destruct Hitem as [(data & H) | (ls & H)];
        cbn in H; injection H as <-; auto. }
    destruct (Js.isNil _); [|reflexivity].
    destruct Hdefault as [-> | ->]; reflexivity.
  - intros -> Hna Hdef.
    apply String.eqb_neq in Hna, Hdef. now rewrite Hna, Hdef.
Qed.

Lemma customizedMapping_keeps (paths : LodashPaths) (hullObject : Js.props)
    (mappings : list CioOutboundMapping) (svcObject : Js.props) (k : string) :
  Js.has svcObject k = true ->
  Js.has (fold_left (customizedMapping_each paths hullObject) mappings svcObject) k
  = true.
Proof.
  revert svcObject. induction mappings as [|m rest IH]; intros svcObject Hk; cbn;
    [exact Hk|].
  apply IH. now apply customizedMapping_each_keeps.
Qed.

(** X12. The outbound rules never blank a field of the service.  In the payload
    either revision returns, every property the default properties put
    there is still there, and a property whose value is [undefined] or
    [null] is one of the default properties, with the value it had there:
    a rule whose hull attribute has no value sends nothing. *)
Theorem X12_outbound_rules_never_send_nil
    (SM : SharedMessages) (paths : LodashPaths) (this : Cio.MappingUtilSettings)
    (objType : string) (hullObject payload : Js.props) :
  MappingUtil.mapToServiceObject SM paths this objType hullObject = Ok payload
    \/ MappingUtilRev.mapToServiceObject SM paths this objType hullObject
       = Ok payload ->
  exists svcObject,
    (MappingUtil.defaultProperties SM this objType hullObject = Ok svcObject
     \/ MappingUtilRev.defaultProperties SM this objType hullObject = Ok svcObject)
    /\ (forall k, Js.has svcObject k = true -> Js.has payload k = true)
    /\ (forall k v, Js.lookup payload k = Some v -> Js.isNil v = true ->
                    Js.lookup svcObject k = Some v).
Proof.
  intros [Hp | Hp].
  - destruct (mapToServiceObject_payload _ _ _ _ _ _ Hp)
      as (svc & rules & Hd & _ & ->).
    exists svc. split; [now left|]. split.
    + intros k. apply customizedMapping_keeps.
    + intros k v. apply customizedMapping_no_nil.
  - destruct (later_mapToServiceObject_payload _ _ _ _ _ _ Hp)
      as (svc & rules & Hd & _ & ->).
    exists svc. split; [now right|]. split.
    + intros k. apply customizedMapping_keeps.
    + intros k v. apply customizedMapping_no_nil.
Qed.

(** ** MappingUtil: the two revisions on leads *)

Lemma filter_usable_all (rules : list CioOutboundMapping) :
  Forall (fun m => some_text (hull_field_name m) = true
                   /\ some_text (closeio_field_name m) = true) rules ->
  filter (fun entry => some_text (hull_field_name entry)
                       && some_text (closeio_field_name entry)) rules
  = rules.
Proof.
  intros H. apply filter_all. intros m Hm.
  rewrite Forall_forall in H. destruct (H m Hm) as [-> ->]. reflexivity.
Qed.

(** X13. The later revision maps accounts to leads as mapping-util.js does.
    When at least one outbound rule is configured for leads and every rule
    names a hull attribute and a field of the service, both revisions
    return the same payload for every account. *)
Theorem X13_revisions_agree_on_leads
    (SM : SharedMessages) (paths : LodashPaths) (this : Cio.MappingUtilSettings)
    (mappings : CioAttributesMapping) (rules : list CioOutboundMapping)
    (hullAccount : Js.props) :
  Cio.attributeMappings this = Defined mappings ->
  lead_attributes_outbound mappings = Defined rules ->
  rules <> [] ->
  Forall (fun m => some_text (hull_field_name m) = true
                   /\ some_text (closeio_field_name m) = true) rules ->
  exists cioLeadWrite,
    MappingUtil.mapToServiceObject SM paths this "Lead" hullAccount
    = Ok cioLeadWrite
    /\ MappingUtilRev.mapToServiceObject SM paths this "Lead" hullAccount
       = Ok cioLeadWrite.
Proof.
  intros Hm Hrules Hne Husable.
  destruct (defaultProperties_Lead_returns SM this hullAccount)
    as ((svc & Hd) & _).
  assert (Hd' : MappingUtilRev.defaultProperties SM this "Lead" hullAccount
                = Ok svc) by exact Hd.
  unfold MappingUtil.mapToServiceObject, MappingUtil.configuredRules,
    MappingUtilRev.mapToServiceObject, MappingUtilRev.usableRules.
  rewrite Hm, Hd, Hd'.
  change (outbound_rules mappings "Lead") with (lead_attributes_outbound mappings).
  rewrite Hrules. cbn [bind].
  rewrite (filter_usable_all rules Husable).
  destruct rules as [|first rest]; [congruence|].
  assert (Hguard : (List.length (first :: rest) =? 1)%nat
                   && (rule_keys first =? 0)%nat = false).
  { apply Forall_inv in Husable. destruct Husable as [Hh Hc].
    unfold rule_keys.
    destruct (hull_field_name first); [|discriminate].
    destruct (closeio_field_name first); [|discriminate].
    apply andb_false_r. }
  rewrite Hguard. eauto.
Qed.

(** ** MappingUtil: when the later revision returns *)

Lemma later_defaultProperties_returns (SM : SharedMessages)
    (this : Cio.MappingUtilSettings) (objType : string) (hullObject : Js.props) :
  match MappingUtilRev.defaultProperties SM this objType hullObject with
  | Ok _ =>
      objType = "Lead"
      \/ (objType = "Contact" /\ Js.isNil (Js.get hullObject "account") = false)
  | Throw e =>
      (objType = "Contact" /\ Js.isNil (Js.get hullObject "account") = true
       /\ e = MappingUtilRev.undefinedProperty "closeio/id")
      \/ (objType <> "Lead" /\ objType <> "Contact"
          /\ e = MappingUtilRev.unsupportedType SM objType hullObject)
  | Untyped => False
  end.
Proof.
  unfold MappingUtilRev.defaultProperties.
  destruct (String.eqb_spec objType "Lead") as [-> | Hlead].
  - destruct (negb (Js.isNil _)); [now left|].
    destruct (negb _ && negb _); now left.
  - destruct (String.eqb_spec objType "Contact") as [-> | Hcontact].
    + destruct (Js.isNil (Js.get hullObject "account")) eqn:N.
      * left. auto.
      * destruct (Js.has hullObject "traits_closeio/id"); right; auto.
    + right. auto.
Qed.

(** X14. The later revision of [mapToServiceObject] returns a payload exactly
    when the object type is ["Lead"], or ["Contact"] for a user that carries
    its account, and the attribute mappings are configured.  For any other
    object type it throws the "unsupported type" [LogicError], which carries
    the type and the hull record; for a user without account, and for
    missing attribute mappings, a [TypeError]. *)
Theorem X14_later_mapToServiceObject_returns_iff
    (SM : SharedMessages) (paths : LodashPaths) (this : Cio.MappingUtilSettings)
    (objType : string) (hullObject : Js.props) :
  ((exists payload,
      MappingUtilRev.mapToServiceObject SM paths this objType hullObject
      = Ok payload)
   <->
   (objType = "Lead"
    \/ (objType = "Contact" /\ Js.isNil (Js.get hullObject "account") = false))
   /\ exists mappings, Cio.attributeMappings this = Defined mappings)
  /\ (objType <> "Lead" -> objType <> "Contact" ->
      MappingUtilRev.mapToServiceObject SM paths this objType hullObject
      = Throw (LogicError (MAPPING_UNSUPPORTEDTYPEOUTBOUND SM objType)
                          "MappingUtil.mapToServiceObject" objType hullObject))
  /\ (objType = "Contact" -> Js.isNil (Js.get hullObject "account") = true ->
      exists message,
        MappingUtilRev.mapToServiceObject SM paths this objType hullObject
        = Throw (TypeError message))
  /\ (objType = "Lead"
      \/ (objType = "Contact" /\ Js.isNil (Js.get hullObject "account") = false) ->
      (forall mappings, Cio.attributeMappings this <> Defined mappings) ->
      exists message,
        MappingUtilRev.mapToServiceObject SM paths this objType hullObject
        = Throw (TypeError message))
  /\ MappingUtilRev.mapToServiceObject SM paths this objType hullObject <> Untyped.
Proof.
  pose proof (later_defaultProperties_returns SM this objType hullObject) as Hd.
  unfold MappingUtilRev.mapToServiceObject, MappingUtilRev.usableRules.
  destruct (MappingUtilRev.defaultProperties SM this objType hullObject)
    as [svc | e |]; cbn [bind]; [| |destruct Hd].
  - split; [|split; [|split; [|split]]].
    + destruct (Cio.attributeMappings this) as [| | mappings]; cbn [bind].
      * split; [intros (p & Hp); discriminate | intros (_ & m & Hm); discriminate].
      * split; [intros (p & Hp); discriminate | intros (_ & m & Hm); discriminate].
      * split; [intros _; split; eauto | intros _; eauto].
    + intros Hl Hc. destruct Hd as [-> | [-> _]]; congruence.
    + intros -> Hnil. destruct Hd as [Habs | [_ Hacc]]; congruence.
    + intros _ Hmissing.
      destruct (Cio.attributeMappings this) as [| | mappings]; cbn [bind].
      * eexists. reflexivity.
      * eexists. reflexivity.
      * now destruct (Hmissing mappings).
    + destruct (Cio.attributeMappings this); cbn [bind]; discriminate.
  - split; [|split; [|split; [|split]]].
    + split; [intros (p & Hp); discriminate|].
      intros ([-> | [-> Hacc]] & _);
        destruct Hd as [(H1 & H2 & _) | (H1 & H2 & _)]; congruence.
    + intros Hl Hc. destruct Hd as [(-> & _) | (_ & _ & ->)]; [congruence|].
      reflexivity.
    + intros -> Hnil. destruct Hd as [(_ & _ & ->) | (_ & Habs & _)];
        [|congruence].
      eexists. reflexivity.
    + intros [-> | [-> Hacc]] _;
        destruct Hd as [(H1 & H2 & _) | (H1 & H2 & _)]; congruence.
    + discriminate.
Qed.

(** ** MappingUtil: rules aimed at a multi-valued field *)

Section Accumulation.

Variable paths : LodashPaths.
Variable hullObject : Js.props.
Variable arr : string.
Hypothesis Harr : arr = "emails" \/ arr = "phones" \/ arr = "urls".

Lemma arr_own_key : Lodash.own_key arr = true /\ Lodash.own_key (Js.drop_last arr) = true
                    /\ Js.drop_last arr <> "type".
Proof. destruct Harr as [-> | [-> | ->]]; repeat split; discriminate. Qed.

Lemma regular_rule_spares_array (m : CioOutboundMapping) :
  startsWith (closeio_field_name m) "emails"
    || startsWith (closeio_field_name m) "phones"
    || startsWith (closeio_field_name m) "urls" = false ->
  written_key m <> arr.
Proof.
  intros Hreg. unfold written_key. rewrite Hreg. intros Habs.
  destruct (closeio_field_name m) as [name|]; cbn [as_key] in Habs.
  - subst name. destruct Harr as [-> | [-> | ->]]; discriminate.
  - destruct Harr as [H | [H | H]]; rewrite H in Habs; discriminate.
Qed.

Lemma contributed_step (svcObject : Js.props) (m : CioOutboundMapping)
    (acc : list Js.value) :
  Js.lookup svcObject arr = stored acc ->
  Js.lookup (customizedMapping_each paths hullObject svcObject m) arr
  = stored (acc ++ contributed paths hullObject arr m).
Proof.
  intros Hacc. unfold contributed, customizedMapping_each.
  set (v := Lodash.get paths hullObject (as_key (hull_field_name m))).
  set (typeValue := match nth_error (Js.split_dot (as_key (closeio_field_name m))) 1
                    with
                    | Some t => Js.str t
                    | None => Js.undefined
                    end).
  destruct (Js.isNil v) eqn:N; cbn [negb].
  { rewrite andb_false_r, app_nil_r. exact Hacc. }
  rewrite andb_true_r.
  destruct (startsWith _ "emails" || startsWith _ "phones" || startsWith _ "urls")
    eqn:Hmulti; cbn [andb].
  - assert (Hwk : written_key m
                  = nth 0 (Js.split_dot (as_key (closeio_field_name m))) "")
      by (unfold written_key; now rewrite Hmulti).
    rewrite <- Hwk.
    destruct (String.eqb_spec (written_key m) arr) as [Hkey | Hkey].
    + rewrite Hkey.
      destruct arr_own_key as (Hown & Hsingular & Htype).
      unfold Lodash.has, Lodash.get, Lodash.set. rewrite Hown, Hsingular.
      cbn [orb]. unfold Js.set. rewrite lookup_assign_same.
      unfold Js.has, Js.mem, Js.get.
      assert (Hnew : Js.assign [("type", typeValue)] (Js.drop_last arr) v
                     = [("type", typeValue); (Js.drop_last arr, v)]).
      { cbn [Js.assign]. apply not_eq_sym, String.eqb_neq in Htype.
        now rewrite Htype. }
      rewrite Hnew.
      destruct acc as [|a acc']; cbn [stored] in Hacc; rewrite Hacc; cbn [negb].
      * rewrite lookup_assign_same. reflexivity.
      * rewrite Hacc. reflexivity.
    + rewrite app_nil_r.
      unfold Js.set. rewrite lookup_assign_other by assumption.
      destruct (Lodash.has paths svcObject (written_key m)); cbn [negb];
        [exact Hacc|].
      now rewrite lookup_assign_other.
  - rewrite app_nil_r. unfold Js.set. rewrite lookup_assign_other; [exact Hacc|].
    assert (Hwk : written_key m = as_key (closeio_field_name m))
      by (unfold written_key; now rewrite Hmulti).
    rewrite <- Hwk. now apply regular_rule_spares_array.
Qed.

Lemma contributed_all (mappings : list CioOutboundMapping)
    (svcObject : Js.props) (acc : list Js.value) :
  Js.lookup svcObject arr = stored acc ->
  Js.lookup (fold_left (customizedMapping_each paths hullObject) mappings svcObject)
            arr
  = stored (acc ++ flat_map (contributed paths hullObject arr) mappings).
Proof.
  revert svcObject acc.
  induction mappings as [|m rest IH]; intros svcObject acc Hacc;
    cbn [fold_left flat_map].
  - now rewrite app_nil_r.
  - rewrite app_assoc. apply IH. now apply contributed_step.
Qed.

End Accumulation.

Lemma defaultProperties_no_array (SM : SharedMessages)
    (this : Cio.MappingUtilSettings) (objType : string)
    (hullObject svcObject : Js.props) (arr : string) :
  arr = "emails" \/ arr = "phones" \/ arr = "urls" ->
  MappingUtil.defaultProperties SM this objType hullObject = Ok svcObject
    \/ MappingUtilRev.defaultProperties SM this objType hullObject = Ok svcObject ->
  Js.lookup svcObject arr = None.
Proof.
  intros Harr.
  unfold MappingUtil.defaultProperties, MappingUtilRev.defaultProperties.
  destruct (objType =? "Lead").
  - destruct (negb (Js.isNil _));
      [|destruct (negb _ && negb _)];
      intros [[= <-] | [= <-]];
      destruct Harr as [-> | [-> | ->]]; reflexivity.
  - destruct (objType =? "Contact"); [|intros [H | H]; discriminate].
    destruct (Js.isNil (Js.get hullObject "account"));
      destruct (Js.has hullObject "traits_closeio/id");
      intros [[= <-] | H]; try discriminate; try injection H as <-;
      destruct Harr as [-> | [-> | ->]]; reflexivity.
Qed.

(** X15. Rules aimed at a multi-valued field accumulate.  In the payload either
    revision returns, the array under [emails], [phones] or [urls] holds one
    entry [{ type, <singular>: value }] for each rule that is aimed at it
    and whose hull attribute has a value, in the order of the rules; no
    rule overwrites the entry of another, and the property is absent when
    no rule contributes. *)
Theorem X15_multi_valued_rules_accumulate
    (SM : SharedMessages) (paths : LodashPaths) (this : Cio.MappingUtilSettings)
    (objType : string) (hullObject payload : Js.props)
    (rules : list CioOutboundMapping) (arr : string) :
  arr = "emails" \/ arr = "phones" \/ arr = "urls" ->
  (MappingUtil.mapToServiceObject SM paths this objType hullObject = Ok payload
   /\ MappingUtil.configuredRules this objType = Defined rules)
  \/ (MappingUtilRev.mapToServiceObject SM paths this objType hullObject = Ok payload
      /\ MappingUtilRev.usableRules this objType = Ok rules) ->
  Js.lookup payload arr = stored (flat_map (contributed paths hullObject arr) rules).
Proof.
  intros Harr [[Hp Hr] | [Hp Hr]].
  - destruct (mapToServiceObject_payload _ _ _ _ _ _ Hp)
      as (svc & rules' & Hd & Hc & ->).
    rewrite Hr in Hc. injection Hc as <-.
    apply (contributed_all paths hullObject arr Harr rules svc []).
    apply (defaultProperties_no_array SM this objType hullObject svc arr Harr).
    now left.
  - destruct (later_mapToServiceObject_payload _ _ _ _ _ _ Hp)
      as (svc & rules' & Hd & Hc & ->).
    rewrite Hr in Hc. injection Hc as <-.
    apply (contributed_all paths hullObject arr Harr rules svc []).
    apply (defaultProperties_no_array SM this objType hullObject svc arr Harr).
    now right.
Qed.

(** ** MappingUtil: the attributes sent to the platform *)

Local Abbreviation namespaced := (fun k : string => String.prefix "closeio/" k = true).

Lemma set_keys_Forall (Q : string -> Prop) (o : Js.props) (k : string)
    (v : Js.value) :
  Q k -> Forall Q (Js.keys o) -> Forall Q (Js.keys (Js.set o k v)).
Proof.
  intros Hk Ho. apply Forall_forall. intros k' Hk'.
  apply keys_assign in Hk'. destruct Hk' as [-> | Hin]; [exact Hk|].
  rewrite Forall_forall in Ho. now apply Ho.
Qed.

Lemma lookup_key {V : Type} (o : Js.dict V) (k : string) (v : V) :
  Js.lookup o k = Some v -> In k (Js.keys o).
Proof.
  intros H. apply lookup_In in H. unfold Js.keys.
  apply in_map_iff. now exists (k, v).
Qed.

Lemma namespaced_closeio (suffix : string) :
  namespaced ("closeio/" ++ suffix)%string.
Proof.
  cbn. repeat (destruct (ascii_dec _ _) as [_ | Hne]; [|now destruct Hne]).
  now destruct suffix.
Qed.

Lemma fold_set_namespaced {A : Type} (key : A -> string) (val : A -> Js.value)
    (keep : A -> bool) (l : list A) (hullAttrs : Js.props) :
  (forall x, namespaced (key x)) ->
  Forall namespaced (Js.keys hullAttrs) ->
  Forall namespaced
    (Js.keys (fold_left (fun h x => if keep x then Js.set h (key x) (val x) else h)
                        l hullAttrs)).
Proof.
  intros Hkey. revert hullAttrs.
  induction l as [|x rest IH]; intros hullAttrs Hns; cbn; [exact Hns|].
  apply IH. destruct (keep x); [|exact Hns]. now apply set_keys_Forall.
Qed.

Lemma fold_set_all_namespaced {A : Type} (key : A -> string)
    (val : A -> Js.value) (l : list A) (hullAttrs : Js.props) :
  (forall x, namespaced (key x)) ->
  Forall namespaced (Js.keys hullAttrs) ->
  Forall namespaced
    (Js.keys (fold_left (fun h x => Js.set h (key x) (val x)) l hullAttrs)).
Proof.
  intros Hkey. revert hullAttrs.
  induction l as [|x rest IH]; intros hullAttrs Hns; cbn; [exact Hns|].
  apply IH. now apply set_keys_Forall.
Qed.

Lemma applyMapping_each_namespaced (paths : LodashPaths)
    (customFields : option (list CioLeadCustomField))
    (serviceObject hullAttrs hullAttrs' : Js.props) (m : string) :
  Forall namespaced (Js.keys hullAttrs) ->
  MappingUtilInbound.applyMapping_each paths customFields serviceObject hullAttrs m
    = Ok hullAttrs' ->
  Forall namespaced (Js.keys hullAttrs').
Proof.
  intros Hns. unfold MappingUtilInbound.applyMapping_each.
  destruct ((m =? "phones") || (m =? "emails") || (m =? "urls")).
  { destruct (Js.get serviceObject m) as [| | | | |arrayVal|];
      intros H; try discriminate; injection H as <-; try exact Hns.
    apply fold_set_all_namespaced; [|exact Hns].
    intros v. apply namespaced_closeio. }
  destruct (m =? "addresses").
  { destruct (Js.has serviceObject m); [|intros [= <-]; exact Hns].
    destruct (Js.get serviceObject m)
      as [| | | | |[|[| | | | | |addressData] rest]|];
      intros H; try discriminate; injection H as <-; try exact Hns.
    apply fold_set_namespaced; [|exact Hns].
    intros kv. apply (namespaced_closeio _). }
  destruct (negb (m =? "opportunities")); [|intros [= <-]; exact Hns].
  destruct (negb (Js.isNil _)); intros [= <-]; [|exact Hns].
  apply set_keys_Forall; [apply namespaced_closeio | exact Hns].
Qed.

Lemma later_applyMapping_each_namespaced (paths : LodashPaths)
    (this : Cio.MappingUtilSettings)
    (serviceObject hullAttrs hullAttrs' : Js.props) (m : string) :
  Forall namespaced (Js.keys hullAttrs) ->
  MappingUtilRev.applyMapping_each paths this serviceObject hullAttrs m
    = Ok hullAttrs' ->
  Forall namespaced (Js.keys hullAttrs').
Proof.
  intros Hns. unfold MappingUtilRev.applyMapping_each.
  destruct ((m =? "phones") || (m =? "emails") || (m =? "urls")).
  { destruct (Js.get serviceObject m) as [| | | | |arrayVal|];
      intros H; try discriminate; injection H as <-; try exact Hns.
    apply fold_set_all_namespaced; [|exact Hns].
    intros v. apply namespaced_closeio. }
  destruct (m =? "status_id").
  { destruct (Js.get serviceObject "status_id");
      try (intros [= <-]; exact Hns).
    destruct (find _ _); intros [= <-]; [|exact Hns].
    apply set_keys_Forall; [reflexivity | exact Hns]. }
  destruct (m =? "addresses").
  { destruct (Js.has serviceObject m); [|intros [= <-]; exact Hns].
    destruct (Js.get serviceObject m)
      as [| | | | |[|[| | | | | |addressData] rest]|];
      intros H; try discriminate; injection H as <-; try exact Hns.
    apply fold_set_namespaced; [|exact Hns].
    intros kv. apply (namespaced_closeio _). }
  destruct (m =? "opportunities"); [intros [= <-]; exact Hns|].
  destruct (negb (Js.isNil _)); intros [= <-]; [|exact Hns].
  apply set_keys_Forall; [apply namespaced_closeio | exact Hns].
Qed.

Lemma reduce_invariant (step : Js.props -> string -> Result Js.props)
    (Q : Js.props -> Prop) :
  (forall h m h', Q h -> step h m = Ok h' -> Q h') ->
  forall (mapping : list string) (acc : Result Js.props) (h' : Js.props),
    (forall h, acc = Ok h -> Q h) ->
    fold_left (fun acc m => bind acc (fun h => step h m)) mapping acc = Ok h' ->
    Q h'.
Proof.
  intros Hstep. induction mapping as [|m rest IH]; intros acc h' Hacc; cbn.
  - apply Hacc.
  - apply IH. intros h Hh. destruct acc as [a | |]; try discriminate.
    cbn in Hh. apply (Hstep a m h); auto.
Qed.

Lemma applyMapping_namespaced (paths : LodashPaths)
    (this : Cio.MappingUtilSettings)
    (customFields : option (list CioLeadCustomField))
    (mapping : list string) (serviceObject hullAttrs : Js.props) :
  MappingUtilInbound.applyMapping paths customFields mapping serviceObject
    = Ok hullAttrs
  \/ MappingUtilRev.applyMapping paths this mapping serviceObject = Ok hullAttrs ->
  Forall namespaced (Js.keys hullAttrs).
Proof.
  intros [H | H].
  - apply (reduce_invariant
             (fun h m => MappingUtilInbound.applyMapping_each paths customFields
                           serviceObject h m)
             (fun h => Forall namespaced (Js.keys h))) with (3 := H).
    + intros h m h' Hh. now apply applyMapping_each_namespaced.
    + intros h [= <-]. constructor.
  - apply (reduce_invariant
             (fun h m => MappingUtilRev.applyMapping_each paths this
                           serviceObject h m)
             (fun h => Forall namespaced (Js.keys h))) with (3 := H).
    + intros h m h' Hh. now apply later_applyMapping_each_namespaced.
    + intros h [= <-]. constructor.
Qed.

Lemma mappedName_text (hObject : Js.props) (name : string) :
  MappingUtilRev.mappedName hObject = Some name ->
  name <> ""
  /\ Js.member (Js.get hObject "closeio/name") "value" = Js.str name.
Proof.
  unfold MappingUtilRev.mappedName.
  destruct (Js.get hObject "closeio/name") as [| | | | | |fields]; try discriminate.
  cbn [Js.member].
  destruct (Js.get fields "value") as [| | | |s| |]; try discriminate.
  destruct (String.eqb_spec s "") as [-> | Hne]; [discriminate|].
  intros [= <-]. auto.
Qed.

(** What the later revision adds behind the mapped attributes: the [name],
    written only if missing, when the mapping gave a [closeio/name]. *)
Lemma named_keys (hObject : Js.props) (k : string) (v : Js.value) :
  Forall namespaced (Js.keys hObject) ->
  Js.lookup match MappingUtilRev.mappedName hObject with
            | Some name =>
                Js.set hObject "name" (MappingUtilRev.trait (Js.str name) "setIfNull")
            | None => hObject
            end k = Some v ->
  namespaced k
  \/ (k = "name"
      /\ exists name,
           name <> ""
           /\ Js.member (Js.get hObject "closeio/name") "value" = Js.str name
           /\ v = MappingUtilRev.trait (Js.str name) "setIfNull").
Proof.
  intros Hns.
  destruct (MappingUtilRev.mappedName hObject) as [name|] eqn:E.
  - destruct (String.eqb_spec "name" k) as [<- | Hne].
    + unfold Js.set. rewrite lookup_assign_same. intros [= <-].
      right. split; [reflexivity|]. exists name.
      destruct (mappedName_text _ _ E). auto.
    + unfold Js.set. rewrite lookup_assign_other by assumption.
      intros H. left. apply lookup_key in H.
      rewrite Forall_forall in Hns. now apply Hns.
  - intros H. left. apply lookup_key in H.
    rewrite Forall_forall in Hns. now apply Hns.
Qed.

Lemma lookup_set_cases (o : Js.props) (k k' : string) (v v' : Js.value) :
  Js.lookup (Js.set o k v) k' = Some v' ->
  (k' = k /\ v' = v) \/ (k' <> k /\ Js.lookup o k' = Some v').
Proof.
  unfold Js.set. destruct (String.eqb_spec k k') as [<- | Hne].
  - rewrite lookup_assign_same. intros [= <-]. now left.
  - rewrite lookup_assign_other by assumption. intros H. right. auto.
Qed.

Lemma id_set_namespaced (record hObject : Js.props) (t : Js.value) :
  Forall namespaced (Js.keys hObject) ->
  Forall namespaced
    (Js.keys (if Js.has record "id" then Js.set hObject "closeio/id" t
              else hObject)).
Proof.
  intros Hns. destruct (Js.has record "id"); [|exact Hns].
  now apply set_keys_Forall.
Qed.

(** X16. The attributes sent to the platform stay in the connector's namespace.
    Whatever the inbound mapping is, every attribute that
    [mapLeadToHullAccountAttributes] and [mapContactToHullUserAttributes]
    return is named [closeio/...], with one exception in the later
    revision: [name], which is written with the policy [setIfNull] and the
    text of the [closeio/name] attribute beside it.  No other attribute of
    the platform is written. *)
Theorem X16_inbound_attributes_stay_in_namespace
    (paths : LodashPaths) (this : Cio.MappingUtilSettings)
    (customFields : option (list CioLeadCustomField))
    (record hObject : Js.props) (k : string) (v : Js.value) :
  MappingUtilInbound.mapLeadToHullAccountAttributes paths this customFields record
    = Ok hObject
  \/ MappingUtilInbound.mapContactToHullUserAttributes paths this customFields record
     = Ok hObject
  \/ MappingUtilRev.mapLeadToHullAccountAttributes paths this record = Ok hObject
  \/ MappingUtilRevInbound.mapContactToHullUserAttributes paths this record
     = Ok hObject ->
  Js.lookup hObject k = Some v ->
  String.prefix "closeio/" k = true
  \/ (k = "name"
      /\ (MappingUtilRev.mapLeadToHullAccountAttributes paths this record
            = Ok hObject
          \/ MappingUtilRevInbound.mapContactToHullUserAttributes paths this record
             = Ok hObject)
      /\ exists name,
           name <> ""
           /\ Js.member (Js.get hObject "closeio/name") "value" = Js.str name
           /\ v = MappingUtilRev.trait (Js.str name) "setIfNull").
Proof.
  intros [H | [H | [H | H]]] Hk.
  - left. revert H. unfold MappingUtilInbound.mapLeadToHullAccountAttributes.
    destruct (Cio.attributeMappings this) as [| | mappings]; try discriminate.
    unfold MappingUtilInbound.reduceMapping.
    destruct (lead_attributes_inbound mappings) as [| | mapping]; try discriminate.
    destruct (MappingUtilInbound.applyMapping paths customFields mapping record)
      as [h0 | |] eqn:E; try discriminate.
    cbn [bind]. intros [= <-].
    assert (Hns : Forall namespaced (Js.keys h0))
      by (apply (applyMapping_namespaced paths this customFields mapping record);
          now left).
    apply lookup_key in Hk. revert k Hk. apply Forall_forall.
    repeat apply set_keys_Forall; try reflexivity.
    now apply id_set_namespaced.
  - left. revert H. unfold MappingUtilInbound.mapContactToHullUserAttributes.
    destruct (Cio.attributeMappings this) as [| | mappings]; try discriminate.
    unfold MappingUtilInbound.reduceMapping.
    destruct (contact_attributes_inbound mappings) as [| | mapping]; try discriminate.
    destruct (MappingUtilInbound.applyMapping paths customFields mapping record)
      as [h0 | |] eqn:E; try discriminate.
    cbn [bind]. intros [= <-].
    assert (Hns : Forall namespaced (Js.keys h0))
      by (apply (applyMapping_namespaced paths this customFields mapping record);
          now left).
    apply lookup_key in Hk. revert k Hk. apply Forall_forall.
    repeat apply set_keys_Forall; try reflexivity.
    now apply id_set_namespaced.
  - pose proof H as Hrev. revert H.
    unfold MappingUtilRev.mapLeadToHullAccountAttributes.
    destruct (Cio.attributeMappings this) as [| | mappings]; try discriminate.
    set (mapping := match lead_attributes_inbound mappings with
                    | Defined l => l
                    | _ => []
                    end).
    destruct (MappingUtilRev.applyMapping paths this mapping record)
      as [h0 | |] eqn:E; try discriminate.
    cbn [bind]. intros [= <-].
    assert (Hns : Forall namespaced (Js.keys h0))
      by (apply (applyMapping_namespaced paths this customFields mapping record);
          now right).
    apply (id_set_namespaced record h0
             (MappingUtilRev.trait (Js.get record "id") "set")) in Hns.
    apply lookup_set_cases in Hk. destruct Hk as [[-> _] | [Hk1 Hk]]; [now left|].
    apply lookup_set_cases in Hk. destruct Hk as [[-> _] | [Hk2 Hk]]; [now left|].
    destruct (named_keys _ k v Hns Hk) as [Hl | (-> & name & Hne & Hval & ->)];
      [now left|].
    right. split; [reflexivity|]. split; [now left|].
    exists name. split; [exact Hne|]. split; [|reflexivity].
    rewrite !get_set_other by discriminate.
    destruct (MappingUtilRev.mappedName _); [|exact Hval].
    now rewrite get_set_other by discriminate.
  - pose proof H as Hrev. revert H.
    unfold MappingUtilRevInbound.mapContactToHullUserAttributes.
    destruct (Cio.attributeMappings this) as [| | mappings]; try discriminate.
    set (mapping := match contact_attributes_inbound mappings with
                    | Defined l => l
                    | _ => []
                    end).
    destruct (MappingUtilRev.applyMapping paths this mapping record)
      as [h0 | |] eqn:E; try discriminate.
    cbn [bind]. intros [= <-].
    assert (Hns : Forall namespaced (Js.keys h0))
      by (apply (applyMapping_namespaced paths this customFields mapping record);
          now right).
    apply (id_set_namespaced record h0
             (MappingUtilRev.trait (Js.get record "id") "set")) in Hns.
    apply lookup_set_cases in Hk. destruct Hk as [[-> _] | [Hk1 Hk]]; [now left|].
    destruct (named_keys _ k v Hns Hk) as [Hl | (-> & name & Hne & Hval & ->)];
      [now left|].
    right. split; [reflexivity|]. split; [now right|].
    exists name. split; [exact Hne|]. split; [|reflexivity].
    rewrite !get_set_other by discriminate.
    destruct (MappingUtilRev.mappedName _); [|exact Hval].
    now rewrite get_set_other by discriminate.
Qed.

(** ** MappingUtil: the names of custom fields *)

Lemma find_none_all {A : Type} (p : A -> bool) (l : list A) :
  (forall x, In x l -> p x = false) -> find p l = None.
Proof.
  induction l as [|x rest IH]; intros H; cbn; [reflexivity|].
  rewrite (H x) by now left. apply IH. intros y Hy. apply H. now right.
Qed.

(** The later revision looks a custom field up under the name the settings
    offer it with, [custom.<id>], and then searches the registry for a field
    whose [id] is that whole name: unless the registry holds such an id the
    search finds nothing, and the human name is that of no name at all. *)
Lemma getHumanFieldName_custom (paths : LodashPaths)
    (this : Cio.MappingUtilSettings) (m : string) :
  In m (map (fun f => ("custom." ++ field_id f)%string) (Cio.leadCustomFields this)) ->
  (forall c, In c (Cio.leadCustomFields this) -> field_id c <> m) ->
  MappingUtilRev.getHumanFieldName paths this m = snakeCase paths "".
Proof.
  intros Hin Hids. unfold MappingUtilRev.getHumanFieldName.
  apply includes_In in Hin. rewrite Hin.
  rewrite find_none_all; [reflexivity|].
  intros c Hc. apply String.eqb_neq. now apply Hids.
Qed.

Lemma custom_is_no_special_name (m : string) (l : list string) :
  In m (map (fun id => ("custom." ++ id)%string) l) ->
  (m =? "phones") || (m =? "emails") || (m =? "urls") = false
  /\ (m =? "status_id") = false /\ (m =? "addresses") = false
  /\ (m =? "opportunities") = false.
Proof.
  intros Hin. apply in_map_iff in Hin. destruct Hin as (id & <- & _).
  repeat split; reflexivity.
Qed.

(** X17. In the later revision every custom field lands on one attribute.  When
    the inbound mapping lists custom fields as the settings offer them
    ([custom.<id>], for registered fields whose ids are not themselves of
    that form), [applyMapping] returns at most one attribute, named after
    no field, and it holds the value of the last listed field that has one:
    each custom field overwrites the one before it. *)
Theorem X17_custom_fields_share_one_attribute
    (paths : LodashPaths) (this : Cio.MappingUtilSettings)
    (mapping : list string) (serviceObject : Js.props) :
  Forall (fun m => In m (map (fun f => ("custom." ++ field_id f)%string)
                             (Cio.leadCustomFields this)))
         mapping ->
  (forall c m, In c (Cio.leadCustomFields this) -> In m mapping ->
               field_id c <> m) ->
  MappingUtilRev.applyMapping paths this mapping serviceObject
  = Ok match find (fun m => negb (Js.isNil (Lodash.get paths serviceObject m)))
                  (rev mapping) with
       | Some m =>
           [(("closeio/" ++ snakeCase paths "")%string,
             MappingUtilRev.trait (Lodash.get paths serviceObject m) "set")]
       | None => []
       end.
Proof.
  intros Hcustom Hids.
  induction mapping as [|m mapping IH] using rev_ind; [reflexivity|].
  apply Forall_app in Hcustom. destruct Hcustom as [Hrest Hm].
  apply Forall_inv in Hm.
  unfold MappingUtilRev.applyMapping in *. rewrite fold_left_app. cbn [fold_left].
  rewrite IH; [|assumption|].
  2: { intros c m' Hc Hm'. apply Hids; [assumption|]. apply in_or_app. now left. }
  cbn [bind]. rewrite rev_app_distr. cbn [rev app find].
  unfold MappingUtilRev.applyMapping_each.
  assert (Hm' : In m (map (fun id => ("custom." ++ id)%string)
                          (map field_id (Cio.leadCustomFields this))))
    by now rewrite map_map.
  destruct (custom_is_no_special_name m _ Hm') as (-> & -> & -> & ->).
  rewrite (getHumanFieldName_custom paths this m Hm).
  2: { intros c Hc. apply Hids; [assumption|]. apply in_or_app. right. now left. }
  destruct (negb (Js.isNil (Lodash.get paths serviceObject m))); [|reflexivity].
  destruct (find _ (rev mapping)); cbn [Js.set Js.assign].
  - now rewrite String.eqb_refl.
  - reflexivity.
Qed.

(** ** MappingUtil: the identity of a record *)

Lemma normalizeUrl_value (node : Node) (url : string) :
  MappingUtilRev.normalizeUrl node url
  = Ok match URL_parse node url with
       | Some closeUrl => hostname closeUrl
       | None => url
       end.
Proof.
  unfold MappingUtilRev.normalizeUrl, URL_new.
  now destruct (URL_parse node url).
Qed.

(** X18. Every identity the mapping builds for a record of the service carries
    [anonymous_id = "closeio:" + id], and two records whose ids are
    different texts get different anonymous ids; this holds for contacts
    and for leads, in both revisions, and building an identity never
    throws.  Beside it, the identity of a contact has the address of the
    first of its e-mails when it lists any (the others are not looked at)
    and nothing when it lists none; the identity of a lead in
    mapping-util.js has the normalized [url] of the lead as its [domain]. *)
Theorem X18_identities_are_built_on_the_service_id
    (node : Node) (this : Cio.MappingUtilSettings) :
  (forall record : Js.props,
     Js.get (mapContactToHullUserIdent record) "anonymous_id" = anonymous_id record
     /\ (exists ident,
           MappingUtilInbound.mapLeadToHullAccountIdent node record = Ok ident
           /\ Js.get ident "anonymous_id" = anonymous_id record)
     /\ (exists ident,
           MappingUtilRevInbound.mapLeadToHullAccountIdent node this record
           = Ok ident
           /\ Js.get ident "anonymous_id" = anonymous_id record))
  /\
  (forall (first second : Js.props) (id1 id2 : string),
     Js.get first "id" = Js.str id1 ->
     Js.get second "id" = Js.str id2 ->
     anonymous_id first = anonymous_id second ->
     id1 = id2)
  /\
  (forall contact : Js.props,
     isEmpty (Js.get contact "emails") = true ->
     mapContactToHullUserIdent contact
     = [("anonymous_id", anonymous_id contact)])
  /\
  (forall (contact : Js.props) (email : Js.value) (others : list Js.value),
     Js.get contact "emails" = Js.array (email :: others) ->
     mapContactToHullUserIdent contact
     = [("email", Js.member email "email");
        ("anonymous_id", anonymous_id contact)])
  /\
  (forall (lead : Js.props) (url : string),
     Js.get lead "url" = Js.str url ->
     MappingUtilInbound.mapLeadToHullAccountIdent node lead
     = Ok [("domain", Js.str match URL_parse node url with
                             | Some closeUrl => hostname closeUrl
                             | None => url
                             end);
           ("anonymous_id", anonymous_id lead)]).
Proof.
  split; [|split; [|split; [|split]]].
  - intros record. split; [|split].
    + unfold mapContactToHullUserIdent. apply get_set_same.
    + unfold MappingUtilInbound.mapLeadToHullAccountIdent,
        MappingUtilInbound.normalizeUrlOf, URL_new.
      destruct (URL_parse node _); cbn [bind try_catch];
        eexists; (split; [reflexivity | apply get_set_same]).
    + unfold MappingUtilRevInbound.mapLeadToHullAccountIdent.
      destruct (Cio.leadIdentifierHull this =? "domain");
        destruct (Js.get record (Cio.leadIdentifierService this));
        try rewrite normalizeUrl_value;
        try destruct (Cio.leadIdentifierHull this =? "external_id");
        cbn [bind]; eexists; (split; [reflexivity | apply get_set_same]).
  - intros r1 r2 id1 id2 H1 H2. unfold anonymous_id. rewrite H1, H2.
    cbn [Js.to_string]. intros [= H]. exact H.
  - intros contact Hempty. unfold mapContactToHullUserIdent.
    now rewrite Hempty.
  - intros contact email others Hemails. unfold mapContactToHullUserIdent.
    now rewrite Hemails.
  - intros lead url Hurl.
    unfold MappingUtilInbound.mapLeadToHullAccountIdent,
      MappingUtilInbound.normalizeUrlOf, URL_new.
    rewrite Hurl. cbn [Js.to_string].
    now destruct (URL_parse node url).
Qed.

(** X19. The identity of a lead in the later revision names the lead by one
    identifier at most.  It has a [domain] exactly when the hull identifier
    is ["domain"] and the lead holds a text under the service identifier,
    and the domain is then the normalized text: the hostname when the URL
    parser accepts it, the text itself otherwise.  It has an [external_id]
    exactly when the hull identifier is ["external_id"].  For a lead that
    lacks the service identifier under ["domain"], and for any other hull
    identifier, the identity is the anonymous id alone. *)
Theorem X19_lead_identity_names_one_identifier
    (node : Node) (this : Cio.MappingUtilSettings) (lead : Js.props) :
  let hullId := Cio.leadIdentifierHull this in
  let given := Js.get lead (Cio.leadIdentifierService this) in
  exists ident,
    MappingUtilRevInbound.mapLeadToHullAccountIdent node this lead = Ok ident
    /\ (Js.has ident "domain" = true <->
        hullId = "domain" /\ exists url, given = Js.str url)
    /\ (forall url, hullId = "domain" -> given = Js.str url ->
        Js.get ident "domain"
        = Js.str match URL_parse node url with
                 | Some closeUrl => hostname closeUrl
                 | None => url
                 end)
    /\ (Js.has ident "external_id" = true <-> hullId = "external_id")
    /\ (hullId = "external_id" -> Js.get ident "external_id" = given)
    /\ (Js.has ident "domain" = false -> Js.has ident "external_id" = false ->
        ident = [("anonymous_id", anonymous_id lead)]).
Proof.
  intros hullId given. subst hullId given.
  unfold MappingUtilRevInbound.mapLeadToHullAccountIdent.
  destruct (String.eqb_spec (Cio.leadIdentifierHull this) "domain") as [Hd | Hd].
  - rewrite Hd.
    destruct (Js.get lead (Cio.leadIdentifierService this)) as [| | | |url| |];
      try rewrite normalizeUrl_value; cbn [bind String.eqb Ascii.eqb Bool.eqb];
      eexists; (split; [reflexivity|]); cbn;
      repeat split; try discriminate; try reflexivity; eauto;
      try (intros (_ & url' & Habs); discriminate);
      try (intros url' _ [= <-]; reflexivity).
  - destruct (String.eqb_spec (Cio.leadIdentifierHull this) "external_id")
      as [He | He].
    + rewrite He.
      destruct (Js.get lead (Cio.leadIdentifierService this));
        cbn [bind]; eexists; (split; [reflexivity|]); cbn;
        repeat split; try discriminate; try reflexivity; eauto;
        try (intros (Habs & _); discriminate).
    + destruct (Js.get lead (Cio.leadIdentifierService this));
        cbn [bind]; eexists; (split; [reflexivity|]); cbn;
        repeat split; try discriminate; try reflexivity; eauto;
        try (intros (Habs & _); congruence); try congruence.
Qed.

(** ** ServiceClient *)

Lemma hasValidApiKey_iff (apiKey : Js.value) :
  ServiceClient.hasValidApiKey apiKey = true <->
  exists key, apiKey = Js.str key /\ 5 < String.length key.
Proof.
  unfold ServiceClient.hasValidApiKey.
  destruct apiKey as [| | | |key| |]; cbn [Js.isNil];
    try (split; [discriminate | intros (k & Hk & _); discriminate]).
  destruct (Nat.eqb_spec (String.length key) 0) as [Hz | Hnz];
    destruct (Nat.ltb_spec 5 (String.length key)) as [Hlt | Hge];
    cbn [negb andb]; split; try discriminate; try reflexivity;
    try (intros (k & [= <-] & Hk); lia).
  intros _. exists key. split; [reflexivity | lia].
Qed.

(** X20. Without a plausible API key the client talks to nobody.  When the key
    is missing, is not a text, or has five characters or fewer, every call
    of the client that would read or write data rejects with the
    [ConfigurationError] "No API key specified in the Settings." and hands
    no request to the agent; [isAuthenticated] resolves to [false], and the
    two envelope calls hand over no request either. *)
Theorem X20_no_request_without_api_key
    (errors : ServiceClient.HullErrors)
    (agent : ServiceClient.Request -> ServiceClient.Answer) (apiKey : Js.value) :
  (forall key, apiKey = Js.str key -> String.length key <= 5) ->
  let refused : list ServiceClient.Request * ServiceClient.Settled Js.props :=
    ([], ServiceClient.Rejected
           (ServiceClient.ConfigurationError errors
              "No API key specified in the Settings." [])) in
  ServiceClient.hasValidApiKey apiKey = false
  /\ (forall q limit skip,
        ServiceClient.listLeads errors agent apiKey q limit skip = refused)
  /\ (forall data, ServiceClient.createLead errors agent apiKey data = refused)
  /\ (forall data, ServiceClient.updateLead errors agent apiKey data = refused)
  /\ ServiceClient.listLeadStatuses errors agent apiKey = refused
  /\ (forall limit skip,
        ServiceClient.listCustomFields errors agent apiKey limit skip = refused)
  /\ (forall q limit skip,
        ServiceClient.listContacts errors agent apiKey q limit skip = refused)
  /\ (forall data, ServiceClient.postContact errors agent apiKey data = refused)
  /\ (forall data, ServiceClient.putContact errors agent apiKey data = refused)
  /\ ServiceClient.isAuthenticated agent apiKey = ([], ServiceClient.Resolved false)
  /\ (forall envelope,
        fst (ServiceClient.postContactEnvelope errors agent apiKey envelope) = []
        /\ fst (ServiceClient.updateContactEnvelope errors agent apiKey envelope) = []).
Proof.
  intros Hkey refused.
  assert (Hinvalid : ServiceClient.hasValidApiKey apiKey = false).
  { destruct (ServiceClient.hasValidApiKey apiKey) eqn:E; [|reflexivity].
    apply hasValidApiKey_iff in E. destruct E as (key & Hk & Hlen).
    specialize (Hkey key Hk). lia. }
  unfold ServiceClient.postContactEnvelope, ServiceClient.updateContactEnvelope,
    ServiceClient.listLeads, ServiceClient.createLead,
    ServiceClient.updateLead, ServiceClient.listLeadStatuses,
    ServiceClient.listCustomFields, ServiceClient.listContacts,
    ServiceClient.postContact, ServiceClient.putContact,
    ServiceClient.isAuthenticated, ServiceClient.update,
    ServiceClient.noApiKey.
  rewrite Hinvalid. cbn [negb Bool.eqb fst].
  repeat split; reflexivity.
Qed.

(** X21. With a plausible key, an update goes to the record its data names and
    nowhere else.  [updateLead] and [putContact] send nothing for data
    without an [id]: they reject with "Cannot update ... without id", and
    throw for data that is [undefined] or [null].  For data with an [id]
    they hand the agent one request, a [PUT] of the data to
    [/lead/<id>/] or [/contact/<id>/], and return the agent's promise. *)
Theorem X21_updates_are_addressed_by_id
    (errors : ServiceClient.HullErrors)
    (agent : ServiceClient.Request -> ServiceClient.Answer)
    (key : string) (data : Js.value) :
  5 < String.length key ->
  let updateLead := ServiceClient.updateLead errors agent (Js.str key) data in
  let putContact := ServiceClient.putContact errors agent (Js.str key) data in
  (Js.isNil data = true ->
   fst updateLead = [] /\ fst putContact = []
   /\ (exists message, snd updateLead = ServiceClient.Thrown (TypeError message))
   /\ (exists message, snd putContact = ServiceClient.Thrown (TypeError message)))
  /\ (Js.isNil data = false -> Js.member data "id" = Js.undefined ->
      updateLead = ([], ServiceClient.Rejected
                          (ServiceClient.Error_new "Cannot update lead without id"))
      /\ putContact = ([], ServiceClient.Rejected
                             (ServiceClient.Error_new
                                "Cannot update contact without id")))
  /\ (Js.isNil data = false -> Js.member data "id" <> Js.undefined ->
      let toLead :=
        {| ServiceClient.method := ServiceClient.PUT;
           ServiceClient.path :=
             ("/lead/" ++ Js.to_string (Js.member data "id") ++ "/")%string;
           ServiceClient.query := [];
           ServiceClient.sent := data |} in
      let toContact :=
        {| ServiceClient.method := ServiceClient.PUT;
           ServiceClient.path :=
             ("/contact/" ++ Js.to_string (Js.member data "id") ++ "/")%string;
           ServiceClient.query := [];
           ServiceClient.sent := data |} in
      updateLead = ServiceClient.request agent toLead
      /\ fst updateLead = [toLead]
      /\ putContact = ServiceClient.request agent toContact
      /\ fst putContact = [toContact]).
Proof.
  intros Hlen updateLead putContact. subst updateLead putContact.
  assert (Hvalid : ServiceClient.hasValidApiKey (Js.str key) = true)
    by (apply hasValidApiKey_iff; eauto).
  unfold ServiceClient.updateLead, ServiceClient.putContact, ServiceClient.update.
  rewrite Hvalid. cbn [negb].
  split; [|split].
  - destruct data; try discriminate; intros _; cbn; eauto 6.
  - intros Hnil Hid. rewrite Hid. cbn [ServiceClient.is_undefined].
    destruct data; try discriminate; split; reflexivity.
  - intros Hnil Hid.
    assert (Hu : ServiceClient.is_undefined (Js.member data "id") = false)
      by (destruct (Js.member data "id") eqn:E; cbn; congruence).
    rewrite Hu.
    destruct data; try discriminate; repeat split; reflexivity.
Qed.

Lemma enrich_outcome (envelope : Js.props)
    (answer : ServiceClient.Answer) :
  let settled :=
    ServiceClient.enrich envelope
      match answer with
      | ServiceClient.Fulfilled response => ServiceClient.Resolved response
      | ServiceClient.Failed error => ServiceClient.Rejected error
      end in
  match answer with
  | ServiceClient.Fulfilled response =>
      exists enriched,
        settled = ServiceClient.Resolved enriched
        /\ Js.get enriched "opsResult" = Js.str "success"
        /\ Js.get enriched "cioReadContact" = Js.get response "body"
        /\ forall k, k <> "opsResult" -> k <> "cioReadContact" ->
                     Js.get enriched k = Js.get envelope k
  | ServiceClient.Failed error =>
      if Js.isNil (Js.get error "response")
      then exists message, settled = ServiceClient.RejectedWith (TypeError message)
      else
        exists enriched,
          settled = ServiceClient.Resolved enriched
          /\ Js.get enriched "opsResult" = Js.str "error"
          /\ Js.get enriched "error"
             = Js.member (Js.get error "response") "body"
          /\ forall k, k <> "opsResult" -> k <> "error" ->
                       Js.get enriched k = Js.get envelope k
  end.
Proof.
  destruct answer as [response | error]; cbv zeta; cbn [ServiceClient.enrich].
  - eexists. split; [reflexivity|]. split; [apply get_set_same|]. split.
    + rewrite get_set_other by discriminate. apply get_set_same.
    + intros k Hk1 Hk2. now rewrite !get_set_other by congruence.
  - destruct (Js.isNil (Js.get error "response")); [eexists; reflexivity|].
    eexists. split; [reflexivity|]. split.
    + rewrite get_set_other by discriminate. apply get_set_same.
    + split; [apply get_set_same|].
      intros k Hk1 Hk2. now rewrite !get_set_other by congruence.
Qed.

(** X22. The envelope calls record the outcome on a copy of the envelope.  With
    a plausible key, [postContactEnvelope] posts the [cioWriteContact] of
    the envelope to [/contact/], and [updateContactEnvelope] puts it to
    [/contact/<id>/] when it has an id.  An answer of the service resolves
    to the envelope with [opsResult = "success"] and the body read under
    [cioReadContact]; a failure that carries a response resolves to the
    envelope with [opsResult = "error"] and the body of the response under
    [error]; every other property of the envelope is as it was.  A failure
    without a response is not recorded: reading its body throws, and the
    call rejects with a [TypeError]. *)
Theorem X22_contact_envelopes_record_the_outcome
    (errors : ServiceClient.HullErrors)
    (agent : ServiceClient.Request -> ServiceClient.Answer)
    (key : string) (envelope : Js.props) :
  5 < String.length key ->
  let data := Js.get envelope "cioWriteContact" in
  let post := {| ServiceClient.method := ServiceClient.POST;
                 ServiceClient.path := "/contact/";
                 ServiceClient.query := [];
                 ServiceClient.sent := data |} in
  let put := {| ServiceClient.method := ServiceClient.PUT;
                ServiceClient.path :=
                  ("/contact/" ++ Js.to_string (Js.member data "id") ++ "/")%string;
                ServiceClient.query := [];
                ServiceClient.sent := data |} in
  let outcome (answer : ServiceClient.Answer)
              (settled : ServiceClient.Settled Js.props) :=
    match answer with
    | ServiceClient.Fulfilled response =>
        exists enriched,
          settled = ServiceClient.Resolved enriched
          /\ Js.get enriched "opsResult" = Js.str "success"
          /\ Js.get enriched "cioReadContact" = Js.get response "body"
          /\ forall k, k <> "opsResult" -> k <> "cioReadContact" ->
                       Js.get enriched k = Js.get envelope k
    | ServiceClient.Failed error =>
        if Js.isNil (Js.get error "response")
        then exists message, settled = ServiceClient.RejectedWith (TypeError message)
        else
          exists enriched,
            settled = ServiceClient.Resolved enriched
            /\ Js.get enriched "opsResult" = Js.str "error"
            /\ Js.get enriched "error"
               = Js.member (Js.get error "response") "body"
            /\ forall k, k <> "opsResult" -> k <> "error" ->
                         Js.get enriched k = Js.get envelope k
    end in
  (fst (ServiceClient.postContactEnvelope errors agent (Js.str key) envelope)
   = [post]
   /\ outcome (agent post)
        (snd (ServiceClient.postContactEnvelope errors agent (Js.str key) envelope)))
  /\ (Js.isNil data = false -> Js.member data "id" <> Js.undefined ->
      fst (ServiceClient.updateContactEnvelope errors agent (Js.str key) envelope)
      = [put]
      /\ outcome (agent put)
           (snd (ServiceClient.updateContactEnvelope errors agent (Js.str key)
                   envelope))).
Proof.
  intros Hlen data post put outcome.
  assert (Hvalid : ServiceClient.hasValidApiKey (Js.str key) = true)
    by (apply hasValidApiKey_iff; eauto).
  split.
  - unfold ServiceClient.postContactEnvelope, ServiceClient.postContact.
    rewrite Hvalid. cbn [negb ServiceClient.request fst snd].
    split; [reflexivity|].
    exact (enrich_outcome envelope (agent post)).
  - intros Hnil Hid.
    unfold ServiceClient.updateContactEnvelope, ServiceClient.putContact,
      ServiceClient.update.
    rewrite Hvalid. cbn [negb]. fold data.
    assert (Hu : ServiceClient.is_undefined (Js.member data "id") = false)
      by (destruct (Js.member data "id") eqn:E; cbn; congruence).
    rewrite Hu.
    assert (Hcall : forall A (a b : A), match data with
                                        | Js.undefined | Js.null => a
                                        | _ => b
                                        end = b)
      by (intros A a b; destruct data; try discriminate; reflexivity).
    destruct data eqn:D; try discriminate;
      cbn [ServiceClient.request fst snd]; (split; [reflexivity|]);
      exact (enrich_outcome envelope (agent put)).
Qed.

(** ** MappingUtil: the attributes the connector owns *)

(** X23. The attributes that tie a record of the platform to the service are
    written last, so no mapped field can take their place.  In whatever
    either revision returns for a contact, [closeio/lead_id] holds the
    [lead_id] of the contact and, when the contact has an [id],
    [closeio/id] holds that id; in whatever they return for a lead,
    [closeio/created_at] holds its [date_created], to be set only if
    missing, and [closeio/updated_at] its [date_updated]; mapping-util.js
    also puts the [id] of a lead under [closeio/id]. *)
Theorem X23_owned_attributes_are_written_last
    (paths : LodashPaths) (this : Cio.MappingUtilSettings)
    (customFields : option (list CioLeadCustomField))
    (record hObject : Js.props) :
  (MappingUtilInbound.mapContactToHullUserAttributes paths this customFields record
     = Ok hObject
   \/ MappingUtilRevInbound.mapContactToHullUserAttributes paths this record
      = Ok hObject ->
   Js.get hObject "closeio/lead_id" = trait_with (Js.get record "lead_id") "set"
   /\ (Js.has record "id" = true ->
       Js.get hObject "closeio/id" = trait_with (Js.get record "id") "set"))
  /\
  (MappingUtilInbound.mapLeadToHullAccountAttributes paths this customFields record
     = Ok hObject
   \/ MappingUtilRev.mapLeadToHullAccountAttributes paths this record = Ok hObject ->
   Js.get hObject "closeio/created_at"
   = trait_with (Js.get record "date_created") "setIfNull"
   /\ Js.get hObject "closeio/updated_at"
      = trait_with (Js.get record "date_updated") "set")
  /\
  (MappingUtilInbound.mapLeadToHullAccountAttributes paths this customFields record
     = Ok hObject ->
   Js.has record "id" = true ->
   Js.get hObject "closeio/id" = trait_with (Js.get record "id") "set").
Proof.
  split; [|split].
  - intros [H | H]; revert H.
    + unfold MappingUtilInbound.mapContactToHullUserAttributes.
      destruct (Cio.attributeMappings this) as [| | mappings]; try discriminate.
      destruct (MappingUtilInbound.reduceMapping _ _ _ _) as [h0 | |];
        try discriminate.
      cbn [bind]. intros [= <-]. split; [apply get_set_same|].
      intros ->. rewrite get_set_other by discriminate. apply get_set_same.
    + unfold MappingUtilRevInbound.mapContactToHullUserAttributes.
      destruct (Cio.attributeMappings this) as [| | mappings]; try discriminate.
      destruct (MappingUtilRev.applyMapping _ _ _ _) as [h0 | |];
        try discriminate.
      cbn [bind]. intros [= <-]. split; [apply get_set_same|].
      intros ->. rewrite get_set_other by discriminate.
      destruct (MappingUtilRev.mappedName _).
      * rewrite get_set_other by discriminate. apply get_set_same.
      * apply get_set_same.
  - intros [H | H]; revert H.
    + unfold MappingUtilInbound.mapLeadToHullAccountAttributes.
      destruct (Cio.attributeMappings this) as [| | mappings]; try discriminate.
      destruct (MappingUtilInbound.reduceMapping _ _ _ _) as [h0 | |];
        try discriminate.
      cbn [bind]. intros [= <-]. split; [|apply get_set_same].
      rewrite get_set_other by discriminate. apply get_set_same.
    + unfold MappingUtilRev.mapLeadToHullAccountAttributes.
      destruct (Cio.attributeMappings this) as [| | mappings]; try discriminate.
      destruct (MappingUtilRev.applyMapping _ _ _ _) as [h0 | |];
        try discriminate.
      cbn [bind]. intros [= <-]. split; [|apply get_set_same].
      rewrite get_set_other by discriminate. apply get_set_same.
  - unfold MappingUtilInbound.mapLeadToHullAccountAttributes.
    destruct (Cio.attributeMappings this) as [| | mappings]; try discriminate.
    destruct (MappingUtilInbound.reduceMapping _ _ _ _) as [h0 | |];
      try discriminate.
    cbn [bind]. intros [= <-] ->.
    rewrite !get_set_other by discriminate. apply get_set_same.
Qed.

(** ** The further properties at the sample data *)

Lemma X1_constructor_without_segments_skips_all_witness :
  let this := FilterUtil_constructor Fixtures.bareConfig in
  let r := FilterUtil.filterAccounts Sample.messages this Sample.accountBatch in
  config_synchronizedAccountSegments Fixtures.bareConfig = None
  /\ toSkip r
     = [FilterUtil.a_skip (Sample.accountEnvelope Sample.account0)
          "Account is not in a synchronized segment.";
        FilterUtil.a_skip (Sample.accountEnvelope Sample.accountLinked)
          "Account is not in a synchronized segment."]
  /\ toUpdate r = [] /\ toInsert r = [].
Proof.
  intros this r. split; [reflexivity|].
  destruct (X1_constructor_without_segments_skips_all Sample.messages
              Fixtures.bareConfig (or_introl eq_refl)) as [Haccounts _].
  exact (Haccounts Sample.accountBatch).
Defined.

Lemma X5_deduplication_keeps_last_received_of_latest_witness :
  indexed_at (account Fixtures.accountFirst)
    = indexed_at (account Fixtures.accountSecond)
  /\ In (Some Fixtures.accountSecond)
        (FilterUtil.deduplicateAccountUpdateMessages
           [Fixtures.accountFirst; Fixtures.accountSecond])
  /\ (exists out events,
        FilterUtil.deduplicateUserUpdateMessages Sample.paths
          [Sample.userOlder; Sample.userYounger] = Ok out
        /\ In (FilterUtil.u_set_events Sample.userYounger events) out
        /\ NoDup (map event_id events)
        /\ (forall eid, In eid (map event_id events) <->
                        In eid ["evt-1"; "evt-2"; "evt-1"])).
Proof.
  split; [reflexivity|]. split.
  - apply (proj1 (X5_deduplication_keeps_last_received_of_latest Sample.paths)
             [Fixtures.accountFirst] [] Fixtures.accountSecond).
    + intros m [].
    + intros m [<- | []] _. reflexivity.
  - destruct (proj2 (X5_deduplication_keeps_last_received_of_latest Sample.paths)
                [Sample.userOlder] [] Sample.userYounger)
      as (out & events & Hout & Hin & _ & Hmerged).
    + intros m [].
    + intros m [<- | []] _. reflexivity.
    + destruct Hmerged as (Hnd & Hids & _).
      * intros m e [<- | [<- | []]].
        -- intros [<- | [<- | []]]; reflexivity.
        -- intros [<- | []]; reflexivity.
      * exists out, events. split; [exact Hout|]. split; [exact Hin|].
        split; [exact Hnd | exact Hids].
Defined.

Lemma X6_deduplication_is_idempotent_witness :
  exists out,
    FilterUtil.deduplicateUserUpdateMessages Sample.paths
      [Sample.userOlder; Sample.userYounger] = Ok out
    /\ FilterUtil.deduplicateUserUpdateMessages Sample.paths out = Ok out.
Proof.
  apply (proj2 (X6_deduplication_is_idempotent Sample.paths)
           [Sample.userOlder; Sample.userYounger]).
  intros m e [<- | [<- | []]] He; cbn in He;
    repeat (destruct He as [<- | He]; [reflexivity|]); destruct He.
Defined.

Lemma X7_normalizeSettings_ensures_lead_identifier_witness :
  exists finalSettings,
    snd (SyncAgent.normalizeSettings Fixtures.privateSettings) = Ok finalSettings
    /\ SyncAgent.lead_status finalSettings = Some "N/A"
    /\ SyncAgent.lead_attributes_outbound finalSettings
       = Defined [{| hull_field_name := Some "external_id";
                     closeio_field_name := Some "custom.lcf_ext" |}]
    /\ SyncAgent.lead_attributes_inbound finalSettings
       = Defined ["custom.lcf_ext"].
Proof.
  destruct (X7_normalizeSettings_ensures_lead_identifier Fixtures.privateSettings)
    as (final & rules & fields & Hfinal & _ & _ & Hstatus & Hrules & _ & Hfields
        & _ & Hgiven & _ & _ & Hmissing); try discriminate.
  exists final. split; [exact Hfinal|]. split; [exact Hstatus|].
  destruct (Hgiven [] eq_refl) as [-> | ->].
  - injection Hfinal as <-. discriminate Hrules.
  - rewrite (Hmissing eq_refl) in Hfields. auto.
Defined.

Lemma X8_normalizeSettings_is_idempotent_witness :
  exists finalSettings,
    snd (SyncAgent.normalizeSettings Fixtures.privateSettings) = Ok finalSettings
    /\ SyncAgent.normalizeSettings finalSettings = (finalSettings, Ok finalSettings).
Proof.
  eexists. split; [reflexivity|].
  apply (X8_normalizeSettings_is_idempotent Fixtures.privateSettings). reflexivity.
Defined.

Lemma X9_normalizeSettings_writes_into_its_argument_witness :
  SyncAgent.lead_attributes_outbound Fixtures.privateSettings = Defined []
  /\ SyncAgent.lead_attributes_outbound
       (fst (SyncAgent.normalizeSettings Fixtures.privateSettings))
     = Defined [{| hull_field_name := Some "external_id";
                   closeio_field_name := Some "custom.lcf_ext" |}]
  /\ SyncAgent.lead_status
       (fst (SyncAgent.normalizeSettings Fixtures.privateSettings)) = None.
Proof.
  split; [reflexivity|].
  destruct (X9_normalizeSettings_writes_into_its_argument Fixtures.privateSettings)
    as ((_ & _ & Hstatus & _) & Hlists).
  destruct (Hlists _ eq_refl) as (Hout & _).
  split; [|exact Hstatus].
  rewrite (Hout [] eq_refl). reflexivity.
Defined.

Lemma X10_normalized_settings_always_map_leads_witness :
  exists this cioLeadWrite,
    SyncAgent.mappingUtilSettings Fixtures.privateSettings [] Fixtures.customFields
    = Ok this
    /\ MappingUtil.mapToServiceObject Sample.messages Sample.paths this "Lead"
         (attributes Sample.account0) = Ok cioLeadWrite.
Proof.
  destruct (X10_normalized_settings_always_map_leads Sample.messages Sample.paths
              Fixtures.privateSettings [] Fixtures.customFields)
    as (this & Hthis & Hmaps); try discriminate.
  destruct (Hmaps (attributes Sample.account0)) as ((payload & Hpayload) & _).
  exists this, payload. split; assumption.
Defined.

Lemma X11_lead_status_is_sent_on_creation_only_witness :
  exists cioLeadWrite,
    MappingUtilRev.mapToServiceObject Sample.messages Sample.paths
      Fixtures.mappingSettings "Lead" (attributes Sample.account0)
    = Ok cioLeadWrite
    /\ Js.lookup cioLeadWrite "status_id"
       = Some (Js.str "stat_1ZdiZqcSIkoGVnNOyxiEY58eTGQmFNG3LPlEVQ4V7Nk").
Proof.
  destruct (X11_lead_status_is_sent_on_creation_only Sample.messages Sample.paths
              Fixtures.mappingSettings _ _ Fixtures.customFields
              (attributes Sample.account0) eq_refl eq_refl)
    as (payload & Hpayload & _ & _ & _ & Hcreated).
  - constructor; [|constructor].
    exists "description". split; [reflexivity|]. right. right. now left.
  - exists payload. split; [exact Hpayload|].
    apply Hcreated; [reflexivity | discriminate | discriminate].
Defined.

Lemma X12_outbound_rules_never_send_nil_witness :
  exists payload svcObject,
    MappingUtil.mapToServiceObject Sample.messages Sample.paths
      Fixtures.mappingSettings "Contact" Fixtures.hullUser = Ok payload
    /\ (MappingUtil.defaultProperties Sample.messages Fixtures.mappingSettings
          "Contact" Fixtures.hullUser = Ok svcObject
        \/ MappingUtilRev.defaultProperties Sample.messages Fixtures.mappingSettings
             "Contact" Fixtures.hullUser = Ok svcObject)
    /\ Js.lookup payload "lead_id" = Some Js.null
    /\ Js.lookup svcObject "lead_id" = Some Js.null
    /\ Js.has payload "title" = false.
Proof.
  eexists.
  destruct (X12_outbound_rules_never_send_nil Sample.messages Sample.paths
              Fixtures.mappingSettings "Contact" Fixtures.hullUser _
              (or_introl eq_refl))
    as (svcObject & Hdefault & _ & Hnil).
  exists svcObject. split; [reflexivity|]. split; [exact Hdefault|].
  split; [reflexivity|]. split; [|reflexivity].
  apply Hnil; reflexivity.
Defined.

Lemma X15_multi_valued_rules_accumulate_witness :
  exists payload,
    MappingUtilRev.mapToServiceObject Sample.messages Sample.paths
      Fixtures.mappingSettings "Contact" Fixtures.hullUser = Ok payload
    /\ Js.lookup payload "emails"
       = Some (Js.array
                 [Js.object [("type", Js.str "office");
                             ("email", Js.str "ada@hull.io")];
                  Js.object [("type", Js.str "home");
                             ("email", Js.str "ada@example.org")]]).
Proof.
  eexists. split; [reflexivity|].
  exact (X15_multi_valued_rules_accumulate Sample.messages Sample.paths
           Fixtures.mappingSettings "Contact" Fixtures.hullUser _ _ "emails"
           (or_introl eq_refl) (or_intror (conj eq_refl eq_refl))).
Defined.

Lemma X16_inbound_attributes_stay_in_namespace_witness :
  exists hObject,
    MappingUtilRevInbound.mapContactToHullUserAttributes Sample.paths
      Fixtures.mappingSettings Fixtures.contactRead = Ok hObject
    /\ Js.lookup hObject "name"
       = Some (MappingUtilRev.trait (Js.str "Ada Lovelace") "setIfNull")
    /\ Js.member (Js.get hObject "closeio/name") "value" = Js.str "Ada Lovelace".
Proof.
  eexists. split; [reflexivity|]. split; [reflexivity|].
  destruct (X16_inbound_attributes_stay_in_namespace Sample.paths
              Fixtures.mappingSettings None Fixtures.contactRead _ "name" _
              (or_intror (or_intror (or_intror eq_refl))) eq_refl)
    as [Habs | (_ & _ & name & _ & Hvalue & Hname)]; [discriminate|].
  injection Hname as <-. exact Hvalue.
Defined.

Lemma X17_custom_fields_share_one_attribute_witness :
  MappingUtilRev.applyMapping Sample.paths Fixtures.mappingSettings
    ["custom.lcf_industry"; "custom.lcf_plan"] Fixtures.leadRead
  = Ok [("closeio/", MappingUtilRev.trait (Js.str "Enterprise") "set")].
Proof.
  apply (X17_custom_fields_share_one_attribute Sample.paths Fixtures.mappingSettings
           ["custom.lcf_industry"; "custom.lcf_plan"] Fixtures.leadRead).
  - constructor; [cbn; auto | constructor; [cbn; auto | constructor]].
  - intros c m [<- | [<- | []]] [<- | [<- | []]]; discriminate.
Defined.

Lemma X20_no_request_without_api_key_witness :
  ServiceClient.listLeadStatuses Fixtures.errors Fixtures.echo (Js.str "abc")
  = ([], ServiceClient.Rejected
           [("name", Js.str "ConfigurationError");
            ("message", Js.str "No API key specified in the Settings.");
            ("extra", Js.object [])])
  /\ ServiceClient.isAuthenticated Fixtures.echo (Js.str "abc")
     = ([], ServiceClient.Resolved false).
Proof.
  destruct (X20_no_request_without_api_key Fixtures.errors Fixtures.echo (Js.str "abc"))
    as (_ & _ & _ & _ & Hstatuses & _ & _ & _ & _ & Hauth & _).
  - intros key [= <-]. cbn. lia.
  - split; [exact Hstatuses | exact Hauth].
Defined.

Lemma X21_updates_are_addressed_by_id_witness :
  fst (ServiceClient.updateLead Fixtures.errors Fixtures.echo
         (Js.str "api_1234567890")
         (Js.object [("id", Js.str "lead_1"); ("name", Js.str "Hull")]))
  = [{| ServiceClient.method := ServiceClient.PUT;
        ServiceClient.path := "/lead/lead_1/";
        ServiceClient.query := [];
        ServiceClient.sent :=
          Js.object [("id", Js.str "lead_1"); ("name", Js.str "Hull")] |}].
Proof.
  destruct (X21_updates_are_addressed_by_id Fixtures.errors Fixtures.echo
              "api_1234567890"
              (Js.object [("id", Js.str "lead_1"); ("name", Js.str "Hull")]))
    as (_ & _ & Hsent); [cbn; lia|].
  destruct Hsent as (_ & Hlead & _); [reflexivity | discriminate|].
  exact Hlead.
Defined.

Lemma X22_contact_envelopes_record_the_outcome_witness :
  let envelope := [("message", Js.str "user:update");
                   ("cioWriteContact", Js.object [("name", Js.str "Ada")])] in
  exists enriched,
    snd (ServiceClient.postContactEnvelope Fixtures.errors Fixtures.echo
           (Js.str "api_1234567890") envelope)
    = ServiceClient.Resolved enriched
    /\ Js.get enriched "opsResult" = Js.str "success"
    /\ Js.get enriched "cioReadContact" = Js.object [("name", Js.str "Ada")]
    /\ Js.get enriched "message" = Js.str "user:update".
Proof.
  intros envelope.
  destruct (X22_contact_envelopes_record_the_outcome Fixtures.errors Fixtures.echo
              "api_1234567890" envelope)
    as ((_ & enriched & Hsettled & Hops & Hread & Hrest) & _); [cbn; lia|].
  exists enriched. split; [exact Hsettled|]. split; [exact Hops|].
  split; [exact Hread|]. apply Hrest; discriminate.
Defined.

Lemma X13_revisions_agree_on_leads_witness :
  exists cioLeadWrite,
    MappingUtil.mapToServiceObject Sample.messages Sample.paths
      Fixtures.mappingSettings "Lead" (attributes Sample.accountLinked)
    = Ok cioLeadWrite
    /\ MappingUtilRev.mapToServiceObject Sample.messages Sample.paths
         Fixtures.mappingSettings "Lead" (attributes Sample.accountLinked)
       = Ok cioLeadWrite
    /\ Js.get cioLeadWrite "description" = Js.str "Hull Inc".
Proof.
  destruct (X13_revisions_agree_on_leads Sample.messages Sample.paths
              Fixtures.mappingSettings _ _ (attributes Sample.accountLinked)
              eq_refl eq_refl)
    as (payload & Hfirst & Hlater).
  - discriminate.
  - constructor; [split; reflexivity | constructor].
  - exists payload. split; [exact Hfirst|]. split; [exact Hlater|].
    cbn in Hlater. injection Hlater as <-. reflexivity.
Defined.

Lemma X23_owned_attributes_are_written_last_witness :
  exists hObject,
    MappingUtilRevInbound.mapContactToHullUserAttributes Sample.paths
      Fixtures.mappingSettings Fixtures.contactRead = Ok hObject
    /\ Js.get hObject "closeio/lead_id"
       = trait_with (Js.str "lead_534219tidgshk452t38tajfk") "set"
    /\ Js.get hObject "closeio/id"
       = trait_with (Js.str "cont_y29g2ohnb3u35hy") "set".
Proof.
  eexists. split; [reflexivity|].
  destruct (proj1 (X23_owned_attributes_are_written_last Sample.paths
                     Fixtures.mappingSettings None Fixtures.contactRead _)
              (or_intror eq_refl)) as [Hlead Hid].
  split; [exact Hlead | exact (Hid eq_refl)].
Defined.
